(** * Thunar thumbnailer: request lifecycle of [thunar/thunar-thumbnailer.c]

    A shallow embedding of the job registry of [ThunarThumbnailer]
    (the [HAVE_DBUS] build): the request-id allocator, the list of running
    jobs, the reply handler of the asynchronous [Queue] call, the signal
    handlers for [Ready], [Error] and [Finished], the idle functions that
    update the thumbnail state of files, the public entry points
    [thunar_thumbnailer_queue_files], [thunar_thumbnailer_queue_file] and
    [thunar_thumbnailer_dequeue], and [thunar_thumbnailer_finalize].

    Conventions.
    - A [guint] is a [Z] in [0, 2^32); the only arithmetic on it, the
      increment of [last_request], has its wrap-around written out.
    - Heap objects ([ThunarThumbnailerJob], [ThunarThumbnailerIdle],
      [ThunarFile]) are identified by their address, a [nat].  The jobs are
      kept in [thumbnailer->jobs] exactly as long as they are allocated, so
      the list of job records is at the same time the job heap: a job pointer
      that is not in the list is dangling.
    - What the code does to the outside (signal emission, D-Bus calls, idle
      sources, thumbnail-state writes) is returned as a list of [Event]s in
      program order. *)

From stdpp Require Import gmap strings list fin_maps.
From Stdlib Require Import ZArith Lia Sorted.

Local Open Scope Z_scope.

(** ** Data model *)

(** Modelled from the spec: the enumeration [ThunarFileThumbState] of
    thunar-file.h, which is not among the sources.  The spec names the
    thumbnail states "none", "ready" and "loading"; UNKNOWN is the state of
    a file that was never queued. *)
Inductive ThunarFileThumbState : Set :=
| THUNAR_FILE_THUMB_STATE_UNKNOWN
| THUNAR_FILE_THUMB_STATE_NONE
| THUNAR_FILE_THUMB_STATE_READY
| THUNAR_FILE_THUMB_STATE_LOADING.

(** Modelled from the spec: the file object [ThunarFile] of thunar-file.h,
    which is not among the sources; the spec has it as an external object
    with a URI, a content type and a thumbnail-state field.  These are the
    three things that the thumbnailer reads or writes, through
    [thunar_file_dup_uri], [thunar_file_get_content_type] and
    [thunar_file_get_thumb_state] / [thunar_file_set_thumb_state]. *)
Record ThunarFile : Type := mkFile {
  file_uri : string;
  file_content_type : option string;   (* NULL when unknown *)
  file_thumb_state : ThunarFileThumbState
}.

Inductive ThunarThumbnailerIdleType : Set :=
| THUNAR_THUMBNAILER_IDLE_ERROR
| THUNAR_THUMBNAILER_IDLE_READY.

(** [struct _ThunarThumbnailerJob].  [job_addr] is the address of the
    struct; [handle_call] tells whether the [DBusGProxyCall] pointer is
    non-NULL.  The back pointer [thumbnailer] is implicit. *)
Record ThunarThumbnailerJob : Type := mkJob {
  job_addr : nat;
  cancelled : bool;
  request : Z;
  handle : Z;
  handle_call : bool
}.

(** [struct _ThunarThumbnailerIdle]; [idle_addr] is the address of the
    struct, [id] the GLib source id, [uris] the copied array ([None] for a
    NULL array). *)
Record ThunarThumbnailerIdle : Type := mkIdle {
  idle_addr : nat;
  type : ThunarThumbnailerIdleType;
  id : nat;
  uris : option (list string)
}.

(** [struct _ThunarThumbnailer]. *)
Record ThunarThumbnailer : Type := mkThumbnailer {
  thumbnailer_proxy : bool;                    (* proxy != NULL *)
  jobs : list ThunarThumbnailerJob;            (* GSList, head first *)
  supported_schemes : option (list string);
  supported_types : option (list string);
  last_request : Z;
  idles : list ThunarThumbnailerIdle
}.

(** Everything outside the thumbnailer object that the code touches: the
    heap of [ThunarFile] objects, the file cache that
    [thunar_file_cache_lookup] searches (URI to file), the answer that the
    D-Bus service gives to [GetSupported] ([None]: the call fails and leaves
    both out-parameters alone), the slice allocator and the GLib source-id
    counter. *)
Record World : Type := mkWorld {
  files : gmap nat ThunarFile;
  file_cache : gmap string nat;
  get_supported_reply : option (list string * list string);
  next_addr : nat;
  next_source : nat
}.

(** What the code does to its environment.  The signal [request-finished]
    carries the request number only and a [Dequeue] call the handle only;
    the two events also record the address of the job that they are about,
    which tells two requests apart that got the same number after the
    counter has wrapped. *)
Inductive Event : Type :=
| EvRequestFinished (job : nat) (req : Z)     (* g_signal_emit (REQUEST_FINISHED, request) *)
| EvProxyDequeue (job : nat) (h : Z)          (* thunar_thumbnailer_proxy_dequeue *)
| EvProxyQueueAsync (us : list string) (mime_hints : list (option string)) (job : nat)
                                              (* thunar_thumbnailer_proxy_queue_async *)
| EvProxyGetSupported                         (* thunar_thumbnailer_proxy_get_supported *)
| EvIdleAdd (idle : nat) (source : nat)       (* g_idle_add_full *)
| EvSetThumbState (file : nat) (st : ThunarFileThumbState).
                                              (* thunar_file_set_thumb_state *)


Definition is_request_finished_of_job (a : nat) (e : Event) : bool :=
  match e with EvRequestFinished a' _ => Nat.eqb a' a | _ => false end.

Definition is_proxy_dequeue_of_job (a : nat) (e : Event) : bool :=
  match e with EvProxyDequeue a' _ => Nat.eqb a' a | _ => false end.

(** The events about one job: its [request-finished] and its [Dequeue]. *)
Definition is_event_of_job (a : nat) (e : Event) : bool :=
  is_request_finished_of_job a e || is_proxy_dequeue_of_job a e.

Definition is_any_request_finished (e : Event) : bool :=
  match e with EvRequestFinished _ _ => true | _ => false end.

Definition is_set_thumb_state (e : Event) : bool :=
  match e with EvSetThumbState _ _ => true | _ => false end.

(** Field updates. *)
Definition set_cancelled (j : ThunarThumbnailerJob) (b : bool) :=
  mkJob (job_addr j) b (request j) (handle j) (handle_call j).
Definition set_handle (j : ThunarThumbnailerJob) (h : Z) :=
  mkJob (job_addr j) (cancelled j) (request j) h (handle_call j).
Definition set_handle_call (j : ThunarThumbnailerJob) (c : bool) :=
  mkJob (job_addr j) (cancelled j) (request j) (handle j) c.

Definition set_jobs (t : ThunarThumbnailer) (js : list ThunarThumbnailerJob) :=
  mkThumbnailer (thumbnailer_proxy t) js (supported_schemes t) (supported_types t)
                (last_request t) (idles t).
Definition set_last_request (t : ThunarThumbnailer) (r : Z) :=
  mkThumbnailer (thumbnailer_proxy t) (jobs t) (supported_schemes t) (supported_types t)
                r (idles t).
Definition set_idles (t : ThunarThumbnailer) (il : list ThunarThumbnailerIdle) :=
  mkThumbnailer (thumbnailer_proxy t) (jobs t) (supported_schemes t) (supported_types t)
                (last_request t) il.
Definition set_supported (t : ThunarThumbnailer) (ss ts : option (list string)) :=
  mkThumbnailer (thumbnailer_proxy t) (jobs t) ss ts (last_request t) (idles t).

Definition set_files (w : World) (fs : gmap nat ThunarFile) :=
  mkWorld fs (file_cache w) (get_supported_reply w) (next_addr w) (next_source w).
Definition set_next_addr (w : World) (n : nat) :=
  mkWorld (files w) (file_cache w) (get_supported_reply w) n (next_source w).
Definition set_next_source (w : World) (n : nat) :=
  mkWorld (files w) (file_cache w) (get_supported_reply w) (next_addr w) n.

(** ** GSList helpers on the job list *)

(** [g_slist_remove (list, job)]: drops the first link whose data is the
    pointer [job]. *)
Fixpoint g_slist_remove (lp : list ThunarThumbnailerJob) (job : nat)
  : list ThunarThumbnailerJob :=
  match lp with
  | [] => []
  | j :: next => if Nat.eqb (job_addr j) job then next else j :: g_slist_remove next job
  end.

(** Dereferencing a job pointer: the record at that address, if the job is
    still allocated. *)
Fixpoint job_deref (lp : list ThunarThumbnailerJob) (job : nat)
  : option ThunarThumbnailerJob :=
  match lp with
  | [] => None
  | j :: next => if Nat.eqb (job_addr j) job then Some j else job_deref next job
  end.

(** Writing through a job pointer: the record at the address of [j'] is
    replaced by [j']. *)
Fixpoint job_store (lp : list ThunarThumbnailerJob) (j' : ThunarThumbnailerJob)
  : list ThunarThumbnailerJob :=
  match lp with
  | [] => []
  | j :: next =>
      if Nat.eqb (job_addr j) (job_addr j') then j' :: next else j :: job_store next j'
  end.

(** ** The request-id allocator and [thunar_thumbnailer_queue_async] *)

Definition guint_modulus : Z := 2 ^ 32.
Definition G_MAXUINT : Z := 4294967295.

(** Lines 568-573: [request_no = last_request + 1] in [guint] arithmetic,
    then [MAX (request_no, 1)]. *)
Definition next_request (last : Z) : Z :=
  let request_no := (last + 1) mod guint_modulus in
  Z.max request_no 1.

(** [thunar_thumbnailer_queue_async]: returns the new thumbnailer, the new
    world, the events and the request number. *)
Definition thunar_thumbnailer_queue_async
    (t : ThunarThumbnailer) (w : World)
    (us : list string) (mime_hints : list (option string))
  : ThunarThumbnailer * World * list Event * Z :=
  (* compute the next request ID, making sure it's never 0 *)
  let request_no := next_request (last_request t) in
  (* remember the ID for the next request *)
  let t := set_last_request t request_no in
  (* g_slice_new0: every field zero; then job->request = request_no *)
  let job := mkJob (next_addr w) false request_no 0 false in
  let w := set_next_addr w (S (next_addr w)) in
  (* store the job *)
  let t := set_jobs t (job :: jobs t) in
  (* queue thumbnails for the given URIs asynchronously *)
  let t := set_jobs t (job_store (jobs t) (set_handle_call job true)) in
  (t, w, [EvProxyQueueAsync us mime_hints (job_addr job)], request_no).

(** ** Signal handlers *)

(** The loop of [thunar_thumbnailer_thumbnailer_finished]: the first job
    whose handle equals [h] has its handle cleared, is reported and
    unlinked; the loop then breaks. *)
Fixpoint finished_loop (h : Z) (lp : list ThunarThumbnailerJob)
  : list ThunarThumbnailerJob * list Event :=
  match lp with
  | [] => ([], [])
  | job :: next =>
      if handle job =? h then
        let job := set_handle job 0 in
        (next, [EvRequestFinished (job_addr job) (request job)])
      else
        let '(rest, ev) := finished_loop h next in (job :: rest, ev)
  end.

Definition thunar_thumbnailer_thumbnailer_finished
    (t : ThunarThumbnailer) (h : Z) : ThunarThumbnailer * list Event :=
  let '(js, ev) := finished_loop h (jobs t) in (set_jobs t js, ev).

(** [thunar_thumbnailer_queue_async_reply (proxy, handle, error, job)].
    [error] tells whether the [GError] is set.  The function reads and
    writes through the pointer [job]; on a dangling pointer the behaviour
    of the C code is undefined, which is the result [None]. *)
Definition thunar_thumbnailer_queue_async_reply
    (t : ThunarThumbnailer) (h : Z) (error : bool) (job : nat)
  : option (ThunarThumbnailer * list Event) :=
  match job_deref (jobs t) job with
  | None => None
  | Some j =>
      (* the queue call is finished, we can forget about its proxy call *)
      let j := set_handle_call j false in
      if cancelled j then
        (* job is cancelled while there was no handle yet, so dequeue it now *)
        Some (set_jobs t (g_slist_remove (job_store (jobs t) j) job),
              [EvProxyDequeue job h])
      else if negb error then
        (* store the handle returned by tumbler *)
        Some (set_jobs t (job_store (jobs t) (set_handle j h)), [])
      else
        Some (set_jobs t (job_store (jobs t) j), [])
  end.

(** The loop of [thunar_thumbnailer_idle]: is there a job with this
    handle? *)
Definition job_with_handle (h : Z) (lp : list ThunarThumbnailerJob) : bool :=
  existsb (fun job => handle job =? h) lp.

(** [thunar_thumbnailer_idle (thumbnailer, handle, type, uris)]. *)
Definition thunar_thumbnailer_idle
    (t : ThunarThumbnailer) (w : World) (h : Z)
    (ty : ThunarThumbnailerIdleType) (us : option (list string))
  : ThunarThumbnailer * World * list Event :=
  match us with
  | None => (* leave if there are no uris *) (t, w, [])
  | Some l =>
      if job_with_handle h (jobs t) then
        (* allocate a new idle struct, copy the URI array *)
        let idle := mkIdle (next_addr w) ty (next_source w) (Some l) in
        let w := set_next_addr w (S (next_addr w)) in
        let w := set_next_source w (S (next_source w)) in
        (set_idles t (idle :: idles t), w, [EvIdleAdd (idle_addr idle) (id idle)])
      else (t, w, [])
  end.

Definition thunar_thumbnailer_thumbnailer_error
    (t : ThunarThumbnailer) (w : World) (h : Z) (us : option (list string))
    (code : Z) (message : string) :=
  thunar_thumbnailer_idle t w h THUNAR_THUMBNAILER_IDLE_ERROR us.

Definition thunar_thumbnailer_thumbnailer_ready
    (t : ThunarThumbnailer) (w : World) (h : Z) (us : option (list string)) :=
  thunar_thumbnailer_idle t w h THUNAR_THUMBNAILER_IDLE_READY us.

(** ** [thunar_thumbnailer_dequeue] *)

Fixpoint dequeue_loop (proxy : bool) (req : Z) (lp : list ThunarThumbnailerJob)
  : list ThunarThumbnailerJob * list Event :=
  match lp with
  | [] => ([], [])
  | job :: next =>
      (* find the request in the list *)
      if request job =? req then
        (* this job is cancelled *)
        let job := set_cancelled job true in
        if negb (handle job =? 0) then
          (* dequeue the tumbler request, remove job *)
          (next, if proxy then [EvProxyDequeue (job_addr job) (handle job)] else [])
        else (job :: next, [])
      else
        let '(rest, ev) := dequeue_loop proxy req next in (job :: rest, ev)
  end.

Definition thunar_thumbnailer_dequeue
    (t : ThunarThumbnailer) (req : Z) : ThunarThumbnailer * list Event :=
  let '(js, ev) := dequeue_loop (thumbnailer_proxy t) req (jobs t) in
  (set_jobs t js, ev).

(** ** Files and the idle function *)

(** Modelled from the spec: [thunar_file_cache_lookup] of thunar-file.c,
    which is not among the sources: the external lookup that resolves a URI
    to a file object, NULL ([None]) when the entry cannot be resolved.  The
    cache only holds live objects. *)
Definition thunar_file_cache_lookup (w : World) (uri : string) : option nat :=
  match file_cache w !! uri with
  | Some f => match files w !! f with Some _ => Some f | None => None end
  | None => None
  end.

(** Modelled from the spec: the accessors of the file object, which are not
    among the sources: reading and writing the thumbnail-state field,
    reading the content type (NULL when unknown) and the URI. *)
Definition thunar_file_get_thumb_state (fs : gmap nat ThunarFile) (f : nat)
  : option ThunarFileThumbState :=
  file_thumb_state <$> fs !! f.

Definition thunar_file_set_thumb_state
    (fs : gmap nat ThunarFile) (f : nat) (st : ThunarFileThumbState)
  : gmap nat ThunarFile :=
  alter (fun x => mkFile (file_uri x) (file_content_type x) st) f fs.

Definition thunar_file_get_content_type (fs : gmap nat ThunarFile) (f : nat)
  : option string :=
  match fs !! f with Some x => file_content_type x | None => None end.

Definition thunar_file_dup_uri (fs : gmap nat ThunarFile) (f : nat) : string :=
  match fs !! f with Some x => file_uri x | None => EmptyString end.

(** The body of the loop of [thunar_thumbnailer_idle_func] for one URI. *)
Definition idle_func_uri (ty : ThunarThumbnailerIdleType) (w : World) (uri : string)
  : World * list Event :=
  (* look up the corresponding ThunarFile from the cache *)
  match thunar_file_cache_lookup w uri with
  | None => (w, [])
  | Some file =>
      match ty with
      | THUNAR_THUMBNAILER_IDLE_ERROR =>
          (* set thumbnail state to none unless the thumbnail has already
             been created *)
          match thunar_file_get_thumb_state (files w) file with
          | Some THUNAR_FILE_THUMB_STATE_READY => (w, [])
          | _ =>
              (set_files w (thunar_file_set_thumb_state (files w) file
                              THUNAR_FILE_THUMB_STATE_NONE),
               [EvSetThumbState file THUNAR_FILE_THUMB_STATE_NONE])
          end
      | THUNAR_THUMBNAILER_IDLE_READY =>
          (* set thumbnail state to ready - we now have a thumbnail *)
          (set_files w (thunar_file_set_thumb_state (files w) file
                          THUNAR_FILE_THUMB_STATE_READY),
           [EvSetThumbState file THUNAR_FILE_THUMB_STATE_READY])
      end
  end.

Fixpoint idle_func_loop (ty : ThunarThumbnailerIdleType) (w : World) (us : list string)
  : World * list Event :=
  match us with
  | [] => (w, [])
  | uri :: rest =>
      let '(w1, ev1) := idle_func_uri ty w uri in
      let '(w2, ev2) := idle_func_loop ty w1 rest in
      (w2, ev1 ++ ev2)
  end.

(** [g_slist_remove (thumbnailer->idles, idle)]. *)
Fixpoint idles_remove (lp : list ThunarThumbnailerIdle) (idle : nat)
  : list ThunarThumbnailerIdle :=
  match lp with
  | [] => []
  | i :: next => if Nat.eqb (idle_addr i) idle then next else i :: idles_remove next idle
  end.

(** [thunar_thumbnailer_idle_func (idle)]. *)
Definition thunar_thumbnailer_idle_func
    (t : ThunarThumbnailer) (w : World) (idle : ThunarThumbnailerIdle)
  : ThunarThumbnailer * World * list Event :=
  let '(w1, ev) :=
    match uris idle with
    | None => (w, [])
    | Some us => idle_func_loop (type idle) w us
    end in
  (* remove the idle struct *)
  (set_idles t (idles_remove (idles t) (idle_addr idle)), w1, ev).

Fixpoint idle_deref (lp : list ThunarThumbnailerIdle) (idle : nat)
  : option ThunarThumbnailerIdle :=
  match lp with
  | [] => None
  | i :: next => if Nat.eqb (idle_addr i) idle then Some i else idle_deref next idle
  end.

(** ** Submission *)

Section Submission.

(** Two library predicates that the code calls and that are defined
    elsewhere: [g_file_has_uri_scheme] behind [thunar_file_has_uri_scheme]
    (on the URI of the file) and GIO's [g_content_type_is_a]. *)
Variable thunar_file_has_uri_scheme : string -> string -> bool.
Variable g_content_type_is_a : string -> string -> bool.

(** The loop of [thunar_thumbnailer_file_is_supported] over the two
    parallel arrays; it stops at the first pair that matches.  The arrays
    come from one [GetSupported] reply and have the same length; the loop
    is modelled up to the end of the shorter one. *)
Fixpoint supported_loop (uri content_type : string) (schemes types : list string) : bool :=
  match schemes, types with
  | s :: schemes', ty :: types' =>
      if thunar_file_has_uri_scheme uri s && g_content_type_is_a content_type ty
      then true
      else supported_loop uri content_type schemes' types'
  | _, _ => false
  end.

(** The on-demand call of [thunar_thumbnailer_proxy_get_supported]. *)
Definition request_supported (t : ThunarThumbnailer) (w : World)
  : ThunarThumbnailer * list Event :=
  match supported_schemes t, supported_types t with
  | Some _, Some _ => (t, [])
  | _, _ =>
      (match get_supported_reply w with
       | Some (ss, ts) => set_supported t (Some ss) (Some ts)
       | None => t
       end, [EvProxyGetSupported])
  end.

(** [thunar_thumbnailer_file_is_supported (thumbnailer, file)]. *)
Definition thunar_thumbnailer_file_is_supported
    (t : ThunarThumbnailer) (w : World) (file : nat)
  : ThunarThumbnailer * bool * list Event :=
  (* no types are supported if we don't have a thumbnailer *)
  if negb (thumbnailer_proxy t) then (t, false, [])
  else
    match thunar_file_get_content_type (files w) file with
    | None => (* abort if the content type is unknown *) (t, false, [])
    | Some content_type =>
        let '(t1, ev) := request_supported t w in
        match supported_schemes t1, supported_types t1 with
        | Some schemes, Some types =>
            (t1, supported_loop (thunar_file_dup_uri (files w) file) content_type
                                schemes types, ev)
        | _, _ => (t1, false, ev)
        end
    end.

(** First loop of [thunar_thumbnailer_queue_files]: from the last file to
    the first, prepend the supported ones. *)
Fixpoint collect_supported (t : ThunarThumbnailer) (w : World)
    (lp : list nat) (supported_files : list nat)
  : ThunarThumbnailer * list nat * list Event :=
  match lp with
  | [] => (t, supported_files, [])
  | file :: prev =>
      let '(t1, b, ev1) := thunar_thumbnailer_file_is_supported t w file in
      let supported_files := if b then file :: supported_files else supported_files in
      let '(t2, res, ev2) := collect_supported t1 w prev supported_files in
      (t2, res, ev1 ++ ev2)
  end.

(** Second loop: from the last supported file to the first, set the
    thumbnail state to loading and save URI and MIME hint. *)
Fixpoint fill_arrays (fs : gmap nat ThunarFile) (lp : list nat)
  : gmap nat ThunarFile * list string * list (option string) * list Event :=
  match lp with
  | [] => (fs, [], [], [])
  | file :: prev =>
      let fs1 := thunar_file_set_thumb_state fs file THUNAR_FILE_THUMB_STATE_LOADING in
      let uri := thunar_file_dup_uri fs1 file in
      let mime := thunar_file_get_content_type fs1 file in
      let '(fs2, us, mime_hints, ev) := fill_arrays fs1 prev in
      (fs2, uri :: us, mime :: mime_hints,
       EvSetThumbState file THUNAR_FILE_THUMB_STATE_LOADING :: ev)
  end.

(** [thunar_thumbnailer_queue_files (thumbnailer, files, request)].  The
    last component is [Some r] for the return value TRUE with [*request = r],
    and [None] for FALSE, where [*request] is not written. *)
Definition thunar_thumbnailer_queue_files
    (t : ThunarThumbnailer) (w : World) (fl : list nat)
  : ThunarThumbnailer * World * list Event * option Z :=
  if negb (thumbnailer_proxy t) then (t, w, [], None)
  else
    let '(t1, supported_files, ev1) := collect_supported t w (rev fl) [] in
    (* determine how many URIs are in the wait queue *)
    let n_items := length supported_files in
    if (0 <? n_items)%nat then
      let '(fs, us, mime_hints, ev2) := fill_arrays (files w) (rev supported_files) in
      let w1 := set_files w fs in
      let '(t2, w2, ev3, request_no) :=
        thunar_thumbnailer_queue_async t1 w1 us mime_hints in
      (t2, w2, ev1 ++ ev2 ++ ev3, Some request_no)
    else (t1, w, ev1, None).

(** [thunar_thumbnailer_queue_file]: a one-element file list. *)
Definition thunar_thumbnailer_queue_file
    (t : ThunarThumbnailer) (w : World) (file : nat) :=
  thunar_thumbnailer_queue_files t w [file].

(** ** The event loop *)

(** What can happen to a thumbnailer: the two public calls, the reply of a
    [Queue] call, the three signals, and the main loop running an idle
    source. *)
Inductive Input : Type :=
| CallQueueFiles (fl : list nat)
| CallDequeue (req : Z)
| QueueReply (job : nat) (h : Z) (error : bool)
| SignalFinished (h : Z)
| SignalReady (h : Z) (us : option (list string))
| SignalError (h : Z) (us : option (list string)) (code : Z) (message : string)
| IdleDispatch (idle : nat).

Definition is_submit (i : Input) : bool :=
  match i with CallQueueFiles _ => true | _ => false end.

Definition step (t : ThunarThumbnailer) (w : World) (i : Input)
  : option (ThunarThumbnailer * World * list Event) :=
  match i with
  | CallQueueFiles fl =>
      let '(t1, w1, ev, _) := thunar_thumbnailer_queue_files t w fl in Some (t1, w1, ev)
  | CallDequeue req =>
      let '(t1, ev) := thunar_thumbnailer_dequeue t req in Some (t1, w, ev)
  | QueueReply job h error =>
      match thunar_thumbnailer_queue_async_reply t h error job with
      | Some (t1, ev) => Some (t1, w, ev)
      | None => None
      end
  | SignalFinished h =>
      let '(t1, ev) := thunar_thumbnailer_thumbnailer_finished t h in Some (t1, w, ev)
  | SignalReady h us => Some (thunar_thumbnailer_thumbnailer_ready t w h us)
  | SignalError h us code message =>
      Some (thunar_thumbnailer_thumbnailer_error t w h us code message)
  | IdleDispatch idle =>
      (* the main loop only runs sources that exist *)
      match idle_deref (idles t) idle with
      | Some i => Some (thunar_thumbnailer_idle_func t w i)
      | None => Some (t, w, [])
      end
  end.

Fixpoint run (t : ThunarThumbnailer) (w : World) (ins : list Input)
  : option (ThunarThumbnailer * World * list Event) :=
  match ins with
  | [] => Some (t, w, [])
  | i :: rest =>
      match step t w i with
      | None => None
      | Some (t1, w1, ev1) =>
          match run t1 w1 rest with
          | None => None
          | Some (t2, w2, ev2) => Some (t2, w2, ev1 ++ ev2)
          end
      end
  end.

End Submission.

(** ** Initial state, invariants and observations *)

(** [thunar_thumbnailer_init]: the object is zero-filled by GObject; the
    proxy exists when the session bus could be reached. *)
Definition thunar_thumbnailer_init (connection : bool) : ThunarThumbnailer :=
  mkThumbnailer connection [] None None 0 [].

(** The registry invariant that every operation keeps as long as the
    request counter has not wrapped: the request numbers of the running jobs
    are distinct, positive and at most [last_request]; jobs only exist when
    there is a proxy; a job whose [Queue] call is still pending has no
    handle. *)
Record registry_ok (t : ThunarThumbnailer) : Prop := mkRegistryOk {
  ok_last : 0 <= last_request t <= G_MAXUINT;
  ok_requests : Forall (fun r => 1 <= r <= last_request t) (request <$> jobs t);
  ok_unique : NoDup (request <$> jobs t);
  ok_proxy : jobs t <> [] -> thumbnailer_proxy t = true;
  ok_pending : Forall (fun j => handle_call j = true -> handle j = 0) (jobs t)
}.

(** The job heap is well formed: the running jobs have distinct addresses,
    all below the next address that the allocator hands out. *)
Record heap_ok (t : ThunarThumbnailer) (w : World) : Prop := mkHeapOk {
  ok_addrs : NoDup (job_addr <$> jobs t);
  ok_allocated : Forall (fun a => (a < next_addr w)%nat) (job_addr <$> jobs t)
}.




Definition count_events_of_job (a : nat) (ev : list Event) : nat :=
  length (List.filter (is_event_of_job a) ev).

Definition count_submits (ins : list Input) : nat :=
  length (List.filter is_submit ins).

(** Running a list of idle structs through [thunar_thumbnailer_idle_func],
    in the order in which the main loop dispatches them. *)
Fixpoint idle_func_seq (t : ThunarThumbnailer) (w : World)
    (il : list ThunarThumbnailerIdle)
  : ThunarThumbnailer * World * list Event :=
  match il with
  | [] => (t, w, [])
  | i :: rest =>
      let '(t1, w1, ev1) := thunar_thumbnailer_idle_func t w i in
      let '(t2, w2, ev2) := idle_func_seq t1 w1 rest in
      (t2, w2, ev1 ++ ev2)
  end.

Section Observations.

Variable thunar_file_has_uri_scheme : string -> string -> bool.
Variable g_content_type_is_a : string -> string -> bool.

(** A file is eligible when [thunar_thumbnailer_file_is_supported] answers
    TRUE for it. *)
Definition eligible (t : ThunarThumbnailer) (w : World) (file : nat) : bool :=
  snd (fst (thunar_thumbnailer_file_is_supported
              thunar_file_has_uri_scheme g_content_type_is_a t w file)).

(** The request numbers handed out by the [thunar_thumbnailer_queue_files]
    calls of a run, in order. *)
Fixpoint returned_requests (t : ThunarThumbnailer) (w : World) (ins : list Input)
  : list Z :=
  match ins with
  | [] => []
  | i :: rest =>
      let here :=
        match i with
        | CallQueueFiles fl =>
            match snd (thunar_thumbnailer_queue_files
                         thunar_file_has_uri_scheme g_content_type_is_a t w fl) with
            | Some r => [r]
            | None => []
            end
        | _ => []
        end in
      match step thunar_file_has_uri_scheme g_content_type_is_a t w i with
      | Some (t1, w1, _) => here ++ returned_requests t1 w1 rest
      | None => here
      end
  end.

End Observations.

(** Concrete instances used in examples: scheme test by prefix, content
    types compared for equality. *)
Definition example_has_uri_scheme (uri scheme : string) : bool :=
  String.prefix scheme uri.
Definition example_content_type_is_a (ty super : string) : bool :=
  String.eqb ty super.

Definition example_world : World :=
  mkWorld
    (<[ 1%nat := mkFile "file:///a.png" (Some "image/png") THUNAR_FILE_THUMB_STATE_UNKNOWN ]>
     (<[ 2%nat := mkFile "file:///b.txt" (Some "text/plain") THUNAR_FILE_THUMB_STATE_UNKNOWN ]>
      (<[ 3%nat := mkFile "file:///c.png" (Some "image/png") THUNAR_FILE_THUMB_STATE_NONE ]> ∅)))
    (<[ "file:///a.png" := 1%nat ]>
     (<[ "file:///b.txt" := 2%nat ]>
      (<[ "file:///c.png" := 3%nat ]> ∅)))
    (Some (["file"], ["image/png"]))
    100 1.

(** How one call that creates no job may change the job list: not at all,
    by unlinking one job, or by writing fields of one job other than its
    [request] (without giving a handle to a job whose call is pending; a
    cancelled job stays cancelled and keeps its handle field). *)
Inductive jobs_step : list ThunarThumbnailerJob -> list ThunarThumbnailerJob -> Prop :=
| jobs_same l : jobs_step l l
| jobs_removed pre j post : jobs_step (pre ++ j :: post) (pre ++ post)
| jobs_updated pre j j' post :
    job_addr j' = job_addr j ->
    request j' = request j ->
    (cancelled j = true -> cancelled j' = true /\ handle j' = handle j) ->
    ((handle_call j = true -> handle j = 0) -> handle_call j' = true -> handle j' = 0) ->
    jobs_step (pre ++ j :: post) (pre ++ j' :: post).

(** Two thumbnailers that differ at most in the cached arrays. *)
Definition same_registry (t t1 : ThunarThumbnailer) : Prop :=
  thumbnailer_proxy t1 = thumbnailer_proxy t /\ jobs t1 = jobs t
  /\ last_request t1 = last_request t /\ idles t1 = idles t.

(** A thumbnailer with two running jobs: request 2 is waiting for the reply
    of its [Queue] call, request 1 has handle 7. *)
Definition example_thumbnailer : ThunarThumbnailer :=
  mkThumbnailer true [mkJob 11 false 2 0 true; mkJob 10 false 1 7 false]
                (Some ["file"]) (Some ["image/png"]) 2 [].

(** ** [thunar_thumbnailer_finalize] *)

(** What [thunar_thumbnailer_finalize] does to its environment, in program
    order.  The object does not exist afterwards, so there is no new
    state; the two events about a job record its address. *)
Inductive FinalizeEvent : Type :=
| FinDisconnectSignals                 (* g_signal_handlers_disconnect_matched *)
| FinSourceRemove (source : nat)       (* g_source_remove (idle->id) *)
| FinCancelCall (job : nat)            (* dbus_g_proxy_cancel_call (proxy, job->handle_call) *)
| FinProxyDequeue (job : nat) (h : Z)  (* thunar_thumbnailer_proxy_dequeue (proxy, job->handle) *)
| FinProxyUnref.                       (* g_object_unref (thumbnailer_proxy) *)

(** Lines 270-276: abort all pending idle functions. *)
Fixpoint finalize_idles (lp : list ThunarThumbnailerIdle) : list FinalizeEvent :=
  match lp with
  | [] => []
  | idle :: next => FinSourceRemove (id idle) :: finalize_idles next
  end.

(** Lines 278-294: remove all jobs. *)
Fixpoint finalize_jobs (proxy : bool) (lp : list ThunarThumbnailerJob)
  : list FinalizeEvent :=
  match lp with
  | [] => []
  | job :: next =>
      (if proxy then
         (if handle_call job then [FinCancelCall (job_addr job)] else [])
         ++ (if negb (handle job =? 0)
             then [FinProxyDequeue (job_addr job) (handle job)] else [])
       else [])
      ++ finalize_jobs proxy next
  end.

Definition thunar_thumbnailer_finalize (t : ThunarThumbnailer) : list FinalizeEvent :=
  (* disconnect from the thumbnailer proxy *)
  (if thumbnailer_proxy t then [FinDisconnectSignals] else [])
  ++ finalize_idles (idles t)
  ++ finalize_jobs (thumbnailer_proxy t) (jobs t)
  (* release the thumbnailer proxy *)
  ++ (if thumbnailer_proxy t then [FinProxyUnref] else []).

Definition is_finalize_event_of_job (a : nat) (e : FinalizeEvent) : bool :=
  match e with
  | FinCancelCall a' | FinProxyDequeue a' _ => Nat.eqb a' a
  | _ => false
  end.

(** ** Further observations *)

Definition is_get_supported (e : Event) : bool :=
  match e with EvProxyGetSupported => true | _ => false end.

(** Number of [GetSupported] calls in a trace. *)
Definition count_get_supported (ev : list Event) : nat :=
  length (List.filter is_get_supported ev).

(** No cancelled job of the list holds a handle. *)
Definition cancelled_without_handle (lp : list ThunarThumbnailerJob) : Prop :=
  Forall (fun j => cancelled j = true -> handle j = 0) lp.

(** The state that an idle function of type [ty] writes. *)
Definition idle_state (ty : ThunarThumbnailerIdleType) : ThunarFileThumbState :=
  match ty with
  | THUNAR_THUMBNAILER_IDLE_ERROR => THUNAR_FILE_THUMB_STATE_NONE
  | THUNAR_THUMBNAILER_IDLE_READY => THUNAR_FILE_THUMB_STATE_READY
  end.

(** Inputs that can unlink the job at address [a] while it has no handle:
    the reply of its own [Queue] call and a [Finished] signal with handle
    0. *)
Definition unlinks_without_handle (a : nat) (i : Input) : bool :=
  match i with
  | QueueReply job _ _ => Nat.eqb job a
  | SignalFinished h => h =? 0
  | _ => false
  end.

(** The events that tell the caller or the service that a job is over:
    [request-finished] and [Dequeue]. *)
Definition is_job_event (e : Event) : bool :=
  match e with
  | EvRequestFinished _ _ | EvProxyDequeue _ _ => true
  | _ => false
  end.

Definition count_job_events (ev : list Event) : nat :=
  length (List.filter is_job_event ev).

(** The world of the examples with a service that does not answer
    [GetSupported]. *)
Definition example_world_silent : World :=
  mkWorld (files example_world) (file_cache example_world) None 100 1.

(** The signals that carry handle [h]. *)
Definition is_signal_for (h : Z) (i : Input) : bool :=
  match i with
  | SignalFinished h' | SignalReady h' _ | SignalError h' _ _ _ => h' =? h
  | _ => false
  end.

(** A successful reply that delivers handle [h]. *)
Definition is_reply_with (h : Z) (i : Input) : bool :=
  match i with
  | QueueReply _ h' error => negb error && (h' =? h)
  | _ => false
  end.

(** * Facts *)

(** ** The job list *)

Lemma set_jobs_id (t : ThunarThumbnailer) : set_jobs t (jobs t) = t.
Proof. by destruct t. Qed.

Lemma job_deref_split (l : list ThunarThumbnailerJob) (a : nat) (j : ThunarThumbnailerJob) :
  job_deref l a = Some j ->
  exists pre post,
    l = pre ++ j :: post /\ job_addr j = a /\ Forall (fun x => job_addr x <> a) pre.
Proof.
  induction l as [|x l IH]; simpl; [done|].
  destruct (Nat.eqb_spec (job_addr x) a) as [Heq|Hne].
  - intros [= ->]. by exists [], l.
  - intros (pre & post & -> & Ha & Hpre)%IH.
    exists (x :: pre), post. split_and!; [done|done|by constructor].
Qed.

Lemma job_deref_app (pre post : list ThunarThumbnailerJob) (j : ThunarThumbnailerJob) :
  Forall (fun x => job_addr x <> job_addr j) pre ->
  job_deref (pre ++ j :: post) (job_addr j) = Some j.
Proof.
  induction 1 as [|x pre Hx _ IH]; simpl.
  - by rewrite Nat.eqb_refl.
  - by destruct (Nat.eqb_spec (job_addr x) (job_addr j)).
Qed.

Lemma job_store_app (pre post : list ThunarThumbnailerJob) (j j' : ThunarThumbnailerJob) :
  job_addr j = job_addr j' ->
  Forall (fun x => job_addr x <> job_addr j') pre ->
  job_store (pre ++ j :: post) j' = pre ++ j' :: post.
Proof.
  intros Hj. induction 1 as [|x pre Hx _ IH]; simpl.
  - by rewrite Hj, Nat.eqb_refl.
  - destruct (Nat.eqb_spec (job_addr x) (job_addr j')); [done|]. by rewrite IH.
Qed.

Lemma g_slist_remove_app (pre post : list ThunarThumbnailerJob) (j : ThunarThumbnailerJob)
    (a : nat) :
  job_addr j = a ->
  Forall (fun x => job_addr x <> a) pre ->
  g_slist_remove (pre ++ j :: post) a = pre ++ post.
Proof.
  intros Hj. induction 1 as [|x pre Hx _ IH]; simpl.
  - by rewrite Hj, Nat.eqb_refl.
  - destruct (Nat.eqb_spec (job_addr x) a); [done|]. by rewrite IH.
Qed.

(** The first element of a list that satisfies a boolean test. *)
Lemma first_match_split {A} (p : A -> bool) (l : list A) :
  existsb p l = true ->
  exists pre x post, l = pre ++ x :: post /\ p x = true /\ Forall (fun y => p y = false) pre.
Proof.
  induction l as [|x l IH]; simpl; [done|].
  destruct (p x) eqn:Hx.
  - intros _. by exists [], x, l.
  - intros (pre & y & post & -> & Hy & Hpre)%IH.
    exists (x :: pre), y, post. split_and!; [done|done|by constructor].
Qed.

Lemma finished_loop_app (h : Z) (pre post : list ThunarThumbnailerJob)
    (j : ThunarThumbnailerJob) :
  Forall (fun x => (handle x =? h) = false) pre ->
  handle j = h ->
  finished_loop h (pre ++ j :: post) = (pre ++ post, [EvRequestFinished (job_addr j) (request j)]).
Proof.
  intros Hpre Hj. induction Hpre as [|x pre Hx _ IH]; simpl.
  - by rewrite Hj, Z.eqb_refl.
  - by rewrite Hx, IH.
Qed.

Lemma finished_loop_none (h : Z) (l : list ThunarThumbnailerJob) :
  Forall (fun x => (handle x =? h) = false) l -> finished_loop h l = (l, []).
Proof.
  induction 1 as [|x l Hx _ IH]; simpl; [done|]. by rewrite Hx, IH.
Qed.

Lemma dequeue_loop_app (proxy : bool) (r : Z) (pre post : list ThunarThumbnailerJob)
    (j : ThunarThumbnailerJob) :
  Forall (fun x => (request x =? r) = false) pre ->
  request j = r ->
  dequeue_loop proxy r (pre ++ j :: post) =
    if handle j =? 0 then (pre ++ set_cancelled j true :: post, [])
    else (pre ++ post, if proxy then [EvProxyDequeue (job_addr j) (handle j)] else []).
Proof.
  intros Hpre Hj. induction Hpre as [|x pre Hx _ IH]; simpl.
  - rewrite Hj, Z.eqb_refl. by destruct (handle j =? 0).
  - rewrite Hx, IH. by destruct (handle j =? 0).
Qed.

Lemma dequeue_loop_none (proxy : bool) (r : Z) (l : list ThunarThumbnailerJob) :
  Forall (fun x => (request x =? r) = false) l -> dequeue_loop proxy r l = (l, []).
Proof.
  induction 1 as [|x l Hx _ IH]; simpl; [done|]. by rewrite Hx, IH.
Qed.

Lemma existsb_false_Forall {A} (p : A -> bool) (l : list A) :
  existsb p l = false -> Forall (fun y => p y = false) l.
Proof.
  induction l as [|x l IH]; simpl; [by constructor|].
  intros [Hx Hl]%orb_false_iff. constructor; auto.
Qed.

(** ** What each operation does to the job list *)

Lemma finished_loop_cases (h : Z) (l : list ThunarThumbnailerJob) :
  (Forall (fun x => (handle x =? h) = false) l /\ finished_loop h l = (l, []))
  \/ exists pre j post,
       l = pre ++ j :: post /\ handle j = h
       /\ Forall (fun x => (handle x =? h) = false) pre
       /\ finished_loop h l = (pre ++ post, [EvRequestFinished (job_addr j) (request j)]).
Proof.
  destruct (existsb (fun x => handle x =? h) l) eqn:He.
  - right. apply first_match_split in He as (pre & j & post & -> & Hj & Hpre).
    apply Z.eqb_eq in Hj. exists pre, j, post. split_and!; try done.
    by apply finished_loop_app.
  - left. apply existsb_false_Forall in He. split; [done|].
    by apply finished_loop_none.
Qed.

Lemma dequeue_loop_cases (proxy : bool) (r : Z) (l : list ThunarThumbnailerJob) :
  (Forall (fun x => (request x =? r) = false) l /\ dequeue_loop proxy r l = (l, []))
  \/ exists pre j post,
       l = pre ++ j :: post /\ request j = r
       /\ Forall (fun x => (request x =? r) = false) pre
       /\ dequeue_loop proxy r l =
            if handle j =? 0 then (pre ++ set_cancelled j true :: post, [])
            else (pre ++ post, if proxy then [EvProxyDequeue (job_addr j) (handle j)] else []).
Proof.
  destruct (existsb (fun x => request x =? r) l) eqn:He.
  - right. apply first_match_split in He as (pre & j & post & -> & Hj & Hpre).
    apply Z.eqb_eq in Hj. exists pre, j, post. split_and!; try done.
    by apply dequeue_loop_app.
  - left. apply existsb_false_Forall in He. split; [done|].
    by apply dequeue_loop_none.
Qed.

Lemma finished_jobs_step (t t1 : ThunarThumbnailer) (h : Z) (ev : list Event) :
  thunar_thumbnailer_thumbnailer_finished t h = (t1, ev) ->
  thumbnailer_proxy t1 = thumbnailer_proxy t /\ last_request t1 = last_request t
  /\ jobs_step (jobs t) (jobs t1)
  /\ (ev = [] \/ exists pre j post,
        jobs t = pre ++ j :: post /\ jobs t1 = pre ++ post
        /\ ev = [EvRequestFinished (job_addr j) (request j)]).
Proof.
  unfold thunar_thumbnailer_thumbnailer_finished.
  destruct (finished_loop_cases h (jobs t)) as [[_ ->]|(pre & j & post & Hl & _ & _ & ->)];
    intros [= <- <-]; simpl.
  - split_and!; try done; try (by left); constructor.
  - split_and!; try done.
    + rewrite Hl. constructor.
    + right. by exists pre, j, post.
Qed.

Lemma dequeue_jobs_step (t t1 : ThunarThumbnailer) (r : Z) (ev : list Event) :
  thunar_thumbnailer_dequeue t r = (t1, ev) ->
  thumbnailer_proxy t1 = thumbnailer_proxy t /\ last_request t1 = last_request t
  /\ jobs_step (jobs t) (jobs t1)
  /\ (ev = [] \/ exists pre j post,
        jobs t = pre ++ j :: post /\ jobs t1 = pre ++ post
        /\ ev = [EvProxyDequeue (job_addr j) (handle j)]).
Proof.
  unfold thunar_thumbnailer_dequeue.
  destruct (dequeue_loop_cases (thumbnailer_proxy t) r (jobs t))
    as [[_ ->]|(pre & j & post & Hl & _ & _ & ->)].
  - intros [= <- <-]; simpl. split_and!; try done; [constructor|by left].
  - destruct (handle j =? 0); intros [= <- <-]; simpl; rewrite Hl.
    + split_and!; try done; try (by left). by apply jobs_updated.
    + split_and!; try done; [constructor|].
      destruct (thumbnailer_proxy t); [right|by left]. by exists pre, j, post.
Qed.

(** The reply handler on a cancelled job. *)
Lemma reply_cancelled (t : ThunarThumbnailer) (a : nat) (j : ThunarThumbnailerJob)
    (h : Z) (error : bool) :
  job_deref (jobs t) a = Some j ->
  cancelled j = true ->
  thunar_thumbnailer_queue_async_reply t h error a
  = Some (set_jobs t (g_slist_remove (jobs t) a), [EvProxyDequeue a h]).
Proof.
  intros Hd Hc.
  pose proof Hd as (pre & post & Hl & Ha & Hpre)%job_deref_split. subst a.
  unfold thunar_thumbnailer_queue_async_reply. rewrite Hd. simpl. rewrite Hc, Hl.
  rewrite (job_store_app pre post j (set_handle_call j false)) by done.
  by rewrite !(g_slist_remove_app pre post _ (job_addr j)).
Qed.

Lemma reply_jobs_step (t t1 : ThunarThumbnailer) (h : Z) (error : bool) (a : nat)
    (ev : list Event) :
  thunar_thumbnailer_queue_async_reply t h error a = Some (t1, ev) ->
  thumbnailer_proxy t1 = thumbnailer_proxy t /\ last_request t1 = last_request t
  /\ jobs_step (jobs t) (jobs t1)
  /\ (ev = [] \/ exists pre j post,
        jobs t = pre ++ j :: post /\ jobs t1 = pre ++ post
        /\ ev = [EvProxyDequeue (job_addr j) h]).
Proof.
  destruct (job_deref (jobs t) a) as [j|] eqn:Hd;
    [|unfold thunar_thumbnailer_queue_async_reply; by rewrite Hd].
  pose proof Hd as (pre & post & Hl & Ha & Hpre)%job_deref_split. subst a.
  destruct (cancelled j) eqn:Hc.
  - rewrite (reply_cancelled t (job_addr j) j h error Hd Hc).
    intros [= <- <-]; simpl. rewrite Hl, (g_slist_remove_app pre post j (job_addr j)) by done.
    split_and!; try done; [constructor|right]. by exists pre, j, post.
  - unfold thunar_thumbnailer_queue_async_reply. rewrite Hd. simpl. rewrite Hc.
    destruct error; simpl; intros [= <- <-]; simpl; rewrite Hl.
    + rewrite (job_store_app pre post j (set_handle_call j false)) by done.
      split_and!; try done; try (by left).
      apply jobs_updated; try done; congruence.
    + rewrite (job_store_app pre post j (set_handle (set_handle_call j false) h)) by done.
      split_and!; try done; try (by left).
      apply jobs_updated; try done; congruence.
Qed.

Lemma idle_jobs (t t1 : ThunarThumbnailer) (w w1 : World) (h : Z)
    (ty : ThunarThumbnailerIdleType) (us : option (list string)) (ev : list Event) :
  thunar_thumbnailer_idle t w h ty us = (t1, w1, ev) ->
  thumbnailer_proxy t1 = thumbnailer_proxy t /\ last_request t1 = last_request t
  /\ jobs t1 = jobs t /\ files w1 = files w
  /\ (next_addr w <= next_addr w1)%nat
  /\ Forall (fun e => forall a, is_event_of_job a e = false) ev.
Proof.
  unfold thunar_thumbnailer_idle. destruct us as [l|].
  - destruct (job_with_handle h (jobs t)); intros [= <- <- <-]; simpl;
      split_and!; try done; try lia; repeat constructor.
  - intros [= <- <- <-]. split_and!; try done; constructor.
Qed.

(** ** Submission *)

Section SubmissionFacts.

Variable has_scheme : string -> string -> bool.
Variable is_a : string -> string -> bool.

Abbreviation file_is_supported := (thunar_thumbnailer_file_is_supported has_scheme is_a).
Abbreviation queue_files := (thunar_thumbnailer_queue_files has_scheme is_a).
Abbreviation collect := (collect_supported has_scheme is_a).
Abbreviation eligible_in := (eligible has_scheme is_a).

Lemma same_registry_refl t : same_registry t t.
Proof. by repeat split. Qed.

Lemma same_registry_trans t t1 t2 :
  same_registry t t1 -> same_registry t1 t2 -> same_registry t t2.
Proof.
  intros (?&?&?&?) (?&?&?&?). repeat split; congruence.
Qed.

Lemma request_supported_same t w : same_registry t (request_supported t w).1.
Proof.
  unfold request_supported.
  destruct (supported_schemes t), (supported_types t); simpl;
    try apply same_registry_refl;
    destruct (get_supported_reply w) as [[ss ts]|]; by repeat split.
Qed.

Lemma request_supported_events t w :
  Forall (fun e => e = EvProxyGetSupported) (request_supported t w).2.
Proof.
  unfold request_supported.
  destruct (supported_schemes t), (supported_types t); simpl; repeat constructor.
Qed.

Lemma request_supported_idem t w :
  (request_supported (request_supported t w).1 w).1 = (request_supported t w).1.
Proof.
  unfold request_supported.
  destruct (supported_schemes t) eqn:Hs, (supported_types t) eqn:Ht; simpl;
    try (by rewrite Hs, Ht);
    destruct (get_supported_reply w) as [[ss ts]|]; simpl; by rewrite ?Hs, ?Ht.
Qed.

Lemma file_is_supported_state t w f :
  (file_is_supported t w f).1.1 = t
  \/ (file_is_supported t w f).1.1 = (request_supported t w).1.
Proof.
  unfold thunar_thumbnailer_file_is_supported.
  destruct (thumbnailer_proxy t); simpl; [|by left].
  destruct (thunar_file_get_content_type (files w) f); [|by left].
  destruct (request_supported t w) as [t1 ev]; simpl.
  destruct (supported_schemes t1), (supported_types t1); by right.
Qed.

Lemma file_is_supported_same t w f : same_registry t (file_is_supported t w f).1.1.
Proof.
  destruct (file_is_supported_state t w f) as [-> | ->];
    [apply same_registry_refl | apply request_supported_same].
Qed.

Lemma file_is_supported_events t w f :
  Forall (fun e => e = EvProxyGetSupported) (file_is_supported t w f).2.
Proof.
  unfold thunar_thumbnailer_file_is_supported.
  destruct (thumbnailer_proxy t); simpl; [|constructor].
  destruct (thunar_file_get_content_type (files w) f); [|constructor].
  pose proof (request_supported_events t w) as He.
  destruct (request_supported t w) as [t1 ev]; simpl in *.
  destruct (supported_schemes t1), (supported_types t1); done.
Qed.

(** The answer for a file depends on the state only through the arrays
    that the first call fetches. *)
Lemma eligible_request_supported t w f :
  eligible_in (request_supported t w).1 w f = eligible_in t w f.
Proof.
  unfold eligible, thunar_thumbnailer_file_is_supported.
  destruct (request_supported_same t w) as (-> & _).
  destruct (thumbnailer_proxy t); simpl; [|done].
  destruct (thunar_file_get_content_type (files w) f); [|done].
  pose proof (request_supported_idem t w) as Hi.
  destruct (request_supported t w) as [t1 ev]; simpl in *.
  destruct (request_supported t1 w) as [t2 ev2]; simpl in *. subst t2.
  by destruct (supported_schemes t1), (supported_types t1).
Qed.

Lemma eligible_after_check t w f f' :
  eligible_in (file_is_supported t w f').1.1 w f = eligible_in t w f.
Proof.
  destruct (file_is_supported_state t w f') as [-> | ->];
    [done | apply eligible_request_supported].
Qed.

Lemma eligible_needs_proxy t w f :
  eligible_in t w f = true -> thumbnailer_proxy t = true.
Proof.
  unfold eligible, thunar_thumbnailer_file_is_supported.
  by destruct (thumbnailer_proxy t).
Qed.

Lemma eligible_has_content_type t w f :
  eligible_in t w f = true -> is_Some (files w !! f).
Proof.
  unfold eligible, thunar_thumbnailer_file_is_supported, thunar_file_get_content_type.
  destruct (thumbnailer_proxy t); simpl; [|done].
  destruct (files w !! f); [eauto|done].
Qed.

Lemma collect_supported_spec w lp : forall t acc,
  exists t1 ev,
    collect t w lp acc = (t1, rev (List.filter (eligible_in t w) lp) ++ acc, ev)
    /\ same_registry t t1
    /\ (forall f, eligible_in t1 w f = eligible_in t w f)
    /\ Forall (fun e => e = EvProxyGetSupported) ev.
Proof.
  induction lp as [|f lp IH]; intros t acc; simpl.
  - exists t, []. split_and!; try done; try apply same_registry_refl.
  - pose proof (file_is_supported_same t w f) as Hsame.
    pose proof (file_is_supported_events t w f) as Hev.
    pose proof (fun g => eligible_after_check t w g f) as Hel.
    assert (Hb : eligible_in t w f = (file_is_supported t w f).1.2) by done.
    destruct (file_is_supported t w f) as [[t1 b] ev1]; simpl in *.
    destruct (IH t1 (if b then f :: acc else acc)) as (t2 & ev2 & -> & Hs2 & He2 & Hev2).
    exists t2, (ev1 ++ ev2). split_and!.
    + f_equal. f_equal.
      rewrite (List.filter_ext _ _ Hel), Hb.
      destruct b; simpl; [|done]. by rewrite <- app_assoc.
    + by eapply same_registry_trans.
    + intros g. by rewrite He2, Hel.
    + by apply Forall_app.
Qed.

Lemma fill_arrays_events lp : forall fs,
  (fill_arrays fs lp).2 =
    map (fun f => EvSetThumbState f THUNAR_FILE_THUMB_STATE_LOADING) lp.
Proof.
  induction lp as [|f lp IH]; intros fs; simpl; [done|].
  specialize (IH (thunar_file_set_thumb_state fs f THUNAR_FILE_THUMB_STATE_LOADING)).
  destruct (fill_arrays _ lp) as [[[fs2 us] mh] ev]; simpl in *. by rewrite IH.
Qed.

Lemma set_thumb_state_lookup fs f st g :
  thunar_file_set_thumb_state fs f st !! g =
    if decide (f = g)
    then (fun x => mkFile (file_uri x) (file_content_type x) st) <$> fs !! g
    else fs !! g.
Proof.
  unfold thunar_file_set_thumb_state. rewrite lookup_alter.
  case_decide; by subst.
Qed.

Lemma fill_arrays_other lp : forall fs g,
  g ∉ lp -> (fill_arrays fs lp).1.1.1 !! g = fs !! g.
Proof.
  induction lp as [|f lp IH]; intros fs g Hg; simpl; [done|].
  apply not_elem_of_cons in Hg as [Hne Hg].
  specialize (IH (thunar_file_set_thumb_state fs f THUNAR_FILE_THUMB_STATE_LOADING) g Hg).
  destruct (fill_arrays _ lp) as [[[fs2 us] mh] ev]; simpl in *.
  rewrite IH, set_thumb_state_lookup. by case_decide.
Qed.

Lemma fill_arrays_loading lp : forall fs g,
  g ∈ lp -> is_Some (fs !! g) ->
  thunar_file_get_thumb_state (fill_arrays fs lp).1.1.1 g
    = Some THUNAR_FILE_THUMB_STATE_LOADING.
Proof.
  induction lp as [|f lp IH]; intros fs g Hg Hsome; [by apply elem_of_nil in Hg|].
  simpl.
  pose proof (IH (thunar_file_set_thumb_state fs f THUNAR_FILE_THUMB_STATE_LOADING) g) as IHg.
  pose proof (fill_arrays_other lp
                (thunar_file_set_thumb_state fs f THUNAR_FILE_THUMB_STATE_LOADING) g) as Ho.
  destruct (fill_arrays _ lp) as [[[fs2 us] mh] ev]; simpl in *.
  destruct (decide (g ∈ lp)) as [Hin|Hnin].
  - apply IHg; [done|]. rewrite set_thumb_state_lookup.
    case_decide; [|done]. destruct Hsome as [x ->]. by eexists.
  - apply elem_of_cons in Hg as [->|?]; [|done].
    unfold thunar_file_get_thumb_state. rewrite (Ho Hnin), set_thumb_state_lookup.
    rewrite decide_True by done. by destruct Hsome as [x ->].
Qed.

Lemma queue_async_spec t w us mh :
  thunar_thumbnailer_queue_async t w us mh =
    (let r := next_request (last_request t) in
     (set_jobs (set_last_request t r) (mkJob (next_addr w) false r 0 true :: jobs t),
      set_next_addr w (S (next_addr w)),
      [EvProxyQueueAsync us mh (next_addr w)], r)).
Proof.
  unfold thunar_thumbnailer_queue_async; simpl. by rewrite Nat.eqb_refl.
Qed.

(** The three ways in which [thunar_thumbnailer_queue_files] ends. *)
Lemma queue_files_cases t w fl :
  (thumbnailer_proxy t = false /\ queue_files t w fl = (t, w, [], None))
  \/ (thumbnailer_proxy t = true /\ List.filter (eligible_in t w) fl = []
      /\ exists t1 ev1,
           queue_files t w fl = (t1, w, ev1, None) /\ same_registry t t1
           /\ Forall (fun e => e = EvProxyGetSupported) ev1)
  \/ (thumbnailer_proxy t = true /\ List.filter (eligible_in t w) fl <> []
      /\ exists t1 ev1,
           same_registry t t1 /\ Forall (fun e => e = EvProxyGetSupported) ev1
           /\ let sup := List.filter (eligible_in t w) fl in
              let '(fs, us, mh, ev2) := fill_arrays (files w) (rev sup) in
              let r := next_request (last_request t) in
              queue_files t w fl =
                (set_jobs (set_last_request t1 r)
                          (mkJob (next_addr w) false r 0 true :: jobs t),
                 set_next_addr (set_files w fs) (S (next_addr w)),
                 ev1 ++ ev2 ++ [EvProxyQueueAsync us mh (next_addr w)],
                 Some r)).
Proof.
  unfold thunar_thumbnailer_queue_files.
  destruct (thumbnailer_proxy t) eqn:Hp; simpl; [|by left]. right.
  destruct (collect_supported_spec w (rev fl) t []) as (t1 & ev1 & -> & Hs & _ & Hev).
  rewrite List.filter_rev, rev_involutive, app_nil_r.
  destruct (List.filter (eligible_in t w) fl) as [|f sup] eqn:Hf; simpl.
  - left. split_and!; try done. by exists t1, ev1.
  - right. split_and!; try done. exists t1, ev1. split_and!; try done.
    destruct (fill_arrays (files w) (rev sup ++ [f])) as [[[fs us] mh] ev2].
    rewrite Nat.eqb_refl. destruct Hs as (_ & -> & -> & _). done.
Qed.

Lemma filter_nil_iff {A} (p : A -> bool) (l : list A) :
  List.filter p l = [] <-> forall x, x ∈ l -> p x = false.
Proof.
  induction l as [|x l IH]; simpl.
  - split; [intros _ y Hy; by apply elem_of_nil in Hy | done].
  - destruct (p x) eqn:Hx.
    + split; [done|]. intros H. specialize (H x (list_elem_of_here _ _)). congruence.
    + rewrite IH. split.
      * intros H y [->|Hy]%elem_of_cons; auto.
      * intros H y Hy. apply H. by apply list_elem_of_further.
Qed.

Lemma elem_of_filter_bool {A} (p : A -> bool) (l : list A) (x : A) :
  x ∈ List.filter p l <-> x ∈ l /\ p x = true.
Proof. rewrite !list_elem_of_In. apply List.filter_In. Qed.

Lemma elem_of_rev {A} (l : list A) (x : A) : x ∈ rev l <-> x ∈ l.
Proof. rewrite !list_elem_of_In. symmetry. apply in_rev. Qed.

Lemma dup_uri_set_thumb_state fs f st g :
  thunar_file_dup_uri (thunar_file_set_thumb_state fs f st) g = thunar_file_dup_uri fs g.
Proof.
  unfold thunar_file_dup_uri. rewrite set_thumb_state_lookup.
  case_decide; [|done]. by destruct (fs !! g).
Qed.

Lemma fill_arrays_uris lp : forall fs,
  (fill_arrays fs lp).1.1.2 = map (thunar_file_dup_uri fs) lp.
Proof.
  induction lp as [|f lp IH]; intros fs; simpl; [done|].
  specialize (IH (thunar_file_set_thumb_state fs f THUNAR_FILE_THUMB_STATE_LOADING)).
  destruct (fill_arrays _ lp) as [[[fs2 us] mh] ev]; simpl in *.
  rewrite IH, dup_uri_set_thumb_state. f_equal.
  apply map_ext. intros g. apply dup_uri_set_thumb_state.
Qed.

(** C7. [thunar_thumbnailer_queue_files] returns FALSE exactly when there is
    no proxy or no file of the list is supported; in that case no request
    number is written, the job list, [last_request] and the idle list are
    what they were, no file is touched, and nothing is sent to the service
    but the [GetSupported] query: there is no job that a later
    [request-finished] could refer to. *)
Theorem queue_files_fails_exactly_without_proxy_or_eligible_file
    (t : ThunarThumbnailer) (w : World) (fl : list nat) :
  ((queue_files t w fl).2 = None
     <-> thumbnailer_proxy t = false \/ forall f, f ∈ fl -> eligible_in t w f = false)
  /\ ((queue_files t w fl).2 = None ->
        jobs (queue_files t w fl).1.1.1 = jobs t
        /\ last_request (queue_files t w fl).1.1.1 = last_request t
        /\ idles (queue_files t w fl).1.1.1 = idles t
        /\ (queue_files t w fl).1.1.2 = w
        /\ Forall (fun e => e = EvProxyGetSupported) (queue_files t w fl).1.2).
Proof.
  destruct (queue_files_cases t w fl)
    as [[Hp ->]|[(Hp & Hnil & t1 & ev1 & -> & Hs & Hev)|(Hp & Hne & t1 & ev1 & Hs & Hev & Hq)]];
    simpl.
  - split; [split; [by left|done]|]. intros _. by split_and!.
  - split.
    + split; [|done]. intros _. right. by apply filter_nil_iff.
    + intros _. destruct Hs as (_ & ? & ? & ?). by split_and!.
  - cbv zeta in Hq.
    destruct (fill_arrays (files w) (rev (List.filter (eligible_in t w) fl)))
      as [[[fs us] mh] ev2].
    rewrite Hq; simpl. split; [|done]. split; [done|].
    intros [Hf|Hall]; [congruence|]. by apply filter_nil_iff in Hall.
Qed.

(** C8. When [thunar_thumbnailer_queue_files] succeeds, every supported file
    of the list has thumbnail state LOADING when the call returns; the
    state writes are exactly one per supported file and all of them precede
    the one [Queue] call, whose URI array lists exactly the supported files;
    every other file, in particular an unsupported file of the list, is left
    as it was. *)
Theorem queue_files_sets_loading_before_queue
    (t : ThunarThumbnailer) (w : World) (fl : list nat) (r : Z) :
  (queue_files t w fl).2 = Some r ->
  let sup := List.filter (eligible_in t w) fl in
  let w1 := (queue_files t w fl).1.1.2 in
  (forall f, f ∈ fl -> eligible_in t w f = true ->
     thunar_file_get_thumb_state (files w1) f = Some THUNAR_FILE_THUMB_STATE_LOADING)
  /\ (forall f, f ∉ fl \/ eligible_in t w f = false -> files w1 !! f = files w !! f)
  /\ exists ev1 mime_hints,
       (queue_files t w fl).1.2 =
         ev1 ++ map (fun f => EvSetThumbState f THUNAR_FILE_THUMB_STATE_LOADING) (rev sup)
             ++ [EvProxyQueueAsync (map (thunar_file_dup_uri (files w)) (rev sup))
                                   mime_hints (next_addr w)]
       /\ Forall (fun e => e = EvProxyGetSupported) ev1.
Proof.
  destruct (queue_files_cases t w fl)
    as [[Hp ->]|[(Hp & Hnil & t1 & ev1 & -> & Hs & Hev)|(Hp & Hne & t1 & ev1 & Hs & Hev & Hq)]];
    simpl; try done.
  intros _.
  pose proof (fill_arrays_events (rev (List.filter (eligible_in t w) fl)) (files w)) as He.
  pose proof (fill_arrays_uris (rev (List.filter (eligible_in t w) fl)) (files w)) as Hu.
  pose proof (fill_arrays_loading (rev (List.filter (eligible_in t w) fl)) (files w)) as Hl.
  pose proof (fill_arrays_other (rev (List.filter (eligible_in t w) fl)) (files w)) as Ho.
  cbv zeta in Hq.
  destruct (fill_arrays (files w) (rev (List.filter (eligible_in t w) fl)))
    as [[[fs us] mh] ev2].
  simpl in *. rewrite Hq; simpl. split_and!.
  - intros f Hf Hel. apply Hl.
    + apply elem_of_rev, elem_of_filter_bool. done.
    + by eapply eligible_has_content_type.
  - intros f Hf. apply Ho. rewrite elem_of_rev, elem_of_filter_bool.
    intros [? ?]. destruct Hf; [done|congruence].
  - exists ev1, mh. by subst.
Qed.

(** ** The request counter *)

Lemma next_request_small (last : Z) :
  0 <= last < G_MAXUINT -> next_request last = last + 1.
Proof.
  unfold next_request, guint_modulus, G_MAXUINT. intros H.
  change (2 ^ 32) with 4294967296. rewrite Z.mod_small by lia. lia.
Qed.

Lemma next_request_wrap : next_request G_MAXUINT = 1.
Proof. reflexivity. Qed.

Lemma next_request_range (last : Z) : 1 <= next_request last <= G_MAXUINT.
Proof.
  unfold next_request, guint_modulus, G_MAXUINT.
  change (2 ^ 32) with 4294967296.
  pose proof (Z.mod_pos_bound (last + 1) 4294967296). lia.
Qed.

(** ** The registry invariant *)

Lemma registry_ok_init (connection : bool) : registry_ok (thunar_thumbnailer_init connection).
Proof.
  split; simpl; try done; try constructor; unfold G_MAXUINT; lia.
Qed.

Lemma registry_ok_jobs_step (t t1 : ThunarThumbnailer) :
  registry_ok t ->
  thumbnailer_proxy t1 = thumbnailer_proxy t ->
  last_request t1 = last_request t ->
  jobs_step (jobs t) (jobs t1) ->
  registry_ok t1.
Proof.
  intros [Hlast Hreq Huniq Hproxy Hpend] Hp Hl Hstep.
  inversion Hstep as [l Hl1 Hl2|pre j post Hl1 Hl2|pre j j' post Ha Hr Hc Hpj Hl1 Hl2].
  - assert (jobs t1 = jobs t) as Hj by congruence.
    split; rewrite ?Hp, ?Hl, ?Hj; done.
  - rewrite <- Hl1 in *. split; rewrite ?Hp, ?Hl, <- ?Hl2; try done.
    + rewrite fmap_app, fmap_cons in Hreq. rewrite fmap_app.
      apply Forall_app in Hreq as [? [_ ?]%Forall_cons]. by apply Forall_app.
    + rewrite fmap_app, fmap_cons in Huniq. rewrite fmap_app.
      apply NoDup_app in Huniq as (Hn1 & Hd & [_ Hn2]%NoDup_cons).
      apply NoDup_app. split_and!; try done.
      intros x Hx Hx'. apply (Hd x Hx). by apply list_elem_of_further.
    + intros _. apply Hproxy. by destruct pre.
    + apply Forall_app in Hpend as [? [_ ?]%Forall_cons]. by apply Forall_app.
  - rewrite <- Hl1 in *. split; rewrite ?Hp, ?Hl, <- ?Hl2; try done.
    + rewrite fmap_app, fmap_cons, Hr. by rewrite fmap_app, fmap_cons in Hreq.
    + rewrite fmap_app, fmap_cons, Hr. by rewrite fmap_app, fmap_cons in Huniq.
    + intros _. apply Hproxy. by destruct pre.
    + apply Forall_app in Hpend as [? [? ?]%Forall_cons].
      apply Forall_app. split; [done|]. constructor; auto.
Qed.

Lemma registry_ok_new_job (t t1 : ThunarThumbnailer) (a : nat) :
  registry_ok t ->
  last_request t < G_MAXUINT ->
  thumbnailer_proxy t1 = true ->
  last_request t1 = next_request (last_request t) ->
  jobs t1 = mkJob a false (next_request (last_request t)) 0 true :: jobs t ->
  registry_ok t1.
Proof.
  intros [Hlast Hreq Huniq Hproxy Hpend] Hlt Hp Hl Hj.
  rewrite next_request_small in Hl, Hj by lia.
  split; rewrite ?Hl, ?Hj; try done.
  - lia.
  - rewrite fmap_cons. constructor; simpl; [lia|].
    eapply Forall_impl; [exact Hreq|]. simpl. intros; lia.
  - rewrite fmap_cons. apply NoDup_cons. split; [|done]. simpl.
    intros Hin. rewrite Forall_forall in Hreq. apply Hreq in Hin. lia.
  - by constructor.
Qed.

Lemma jobs_step_requests (l l1 : list ThunarThumbnailerJob) (r : Z) :
  jobs_step l l1 -> r ∈ request <$> l1 -> r ∈ request <$> l.
Proof.
  intros Hstep. inversion Hstep as [|pre j post|pre j j' post _ Hr _ _]; subst; [done| |].
  - rewrite !fmap_app, fmap_cons, !elem_of_app, elem_of_cons. tauto.
  - by rewrite !fmap_app, !fmap_cons, Hr.
Qed.

Lemma idle_func_loop_events ty us : forall w,
  Forall (fun e => is_set_thumb_state e = true) (idle_func_loop ty w us).2.
Proof.
  induction us as [|uri us IH]; intros w; simpl; [constructor|].
  assert (Forall (fun e => is_set_thumb_state e = true) (idle_func_uri ty w uri).2) as H1.
  { unfold idle_func_uri. destruct (thunar_file_cache_lookup w uri); [|constructor].
    destruct ty; [|by repeat constructor].
    destruct (thunar_file_get_thumb_state (files w) n) as [[]|]; by repeat constructor. }
  destruct (idle_func_uri ty w uri) as [w1 ev1]. specialize (IH w1).
  destruct (idle_func_loop ty w1 us) as [w2 ev2]. by apply Forall_app.
Qed.

Lemma idle_func_loop_next_addr ty us : forall w,
  next_addr (idle_func_loop ty w us).1 = next_addr w.
Proof.
  induction us as [|uri us IH]; intros w; simpl; [done|].
  assert (next_addr (idle_func_uri ty w uri).1 = next_addr w) as H1.
  { unfold idle_func_uri. destruct (thunar_file_cache_lookup w uri); [|done].
    destruct ty; [|done].
    by destruct (thunar_file_get_thumb_state (files w) n) as [[]|]. }
  destruct (idle_func_uri ty w uri) as [w1 ev1]. specialize (IH w1).
  destruct (idle_func_loop ty w1 us) as [w2 ev2]. simpl in *. congruence.
Qed.

Lemma idle_func_jobs (t t1 : ThunarThumbnailer) (w w1 : World)
    (i : ThunarThumbnailerIdle) (ev : list Event) :
  thunar_thumbnailer_idle_func t w i = (t1, w1, ev) ->
  thumbnailer_proxy t1 = thumbnailer_proxy t /\ last_request t1 = last_request t
  /\ jobs t1 = jobs t
  /\ next_addr w1 = next_addr w
  /\ Forall (fun e => is_set_thumb_state e = true) ev.
Proof.
  unfold thunar_thumbnailer_idle_func. destruct (uris i) as [us|].
  - pose proof (idle_func_loop_events (type i) us w) as H.
    pose proof (idle_func_loop_next_addr (type i) us w) as Ha.
    destruct (idle_func_loop (type i) w us) as [w2 ev2].
    by intros [= <- <- <-].
  - intros [= <- <- <-]. split_and!; try done.
Qed.

(** One step of the event loop either creates no job, and then changes the
    job list as [jobs_step] says, or is a successful
    [thunar_thumbnailer_queue_files] that prepends one job.  It emits an
    event about a job ([request-finished] or [Dequeue]) only when it
    unlinks that job, and then this is the only event. *)
Lemma step_effects (t t1 : ThunarThumbnailer) (w w1 : World) (i : Input)
    (ev : list Event) :
  step has_scheme is_a t w i = Some (t1, w1, ev) ->
  thumbnailer_proxy t1 = thumbnailer_proxy t
  /\ ((last_request t1 = last_request t /\ jobs_step (jobs t) (jobs t1)
       /\ (next_addr w <= next_addr w1)%nat)
      \/ (is_submit i = true /\ thumbnailer_proxy t = true
          /\ last_request t1 = next_request (last_request t)
          /\ jobs t1
             = mkJob (next_addr w) false (next_request (last_request t)) 0 true :: jobs t
          /\ next_addr w1 = S (next_addr w)))
  /\ (Forall (fun e => forall a, is_event_of_job a e = false) ev
      \/ exists pre j post,
           jobs t = pre ++ j :: post /\ jobs t1 = pre ++ post
           /\ last_request t1 = last_request t
           /\ (ev = [EvRequestFinished (job_addr j) (request j)]
               \/ exists h, ev = [EvProxyDequeue (job_addr j) h])).
Proof.
  destruct i as [fl|r|a h error|h|h us|h us code message|idle]; simpl.
  - destruct (queue_files_cases t w fl)
      as [[Hp ->]|[(Hp & Hnil & t2 & ev1 & -> & Hs & Hev)
                  |(Hp & Hne & t2 & ev1 & Hs & Hev & Hq)]].
    + intros [= <- <- <-].
      split_and!; [done|left; split_and!; [done|constructor|done]|left; constructor].
    + intros [= <- <- <-]. destruct Hs as (? & Hj & ? & ?).
      split_and!; [done|left; split_and!; [done|rewrite Hj; constructor|done]|left].
      eapply Forall_impl; [exact Hev|]. by intros ? ->.
    + cbv zeta in Hq.
      destruct (fill_arrays (files w) (rev (List.filter (eligible_in t w) fl)))
        as [[[fs us] mh] ev2] eqn:Hfill.
      rewrite Hq. intros [= <- <- <-]. destruct Hs as (Hp1 & Hj & Hl & ?). simpl.
      split_and!; [done| |].
      * right. by split_and!.
      * left. apply Forall_app. split.
        { eapply Forall_impl; [exact Hev|]. by intros ? ->. }
        apply Forall_app. split; [|by repeat constructor].
        pose proof (fill_arrays_events (rev (List.filter (eligible_in t w) fl)) (files w)) as He.
        rewrite Hfill in He. simpl in He. rewrite He.
        apply List.Forall_map. by apply Forall_true.
  - destruct (thunar_thumbnailer_dequeue t r) as [t2 ev2] eqn:Hd.
    apply dequeue_jobs_step in Hd as (? & ? & ? & Hev).
    intros [= <- <- <-]. split_and!; [done|by left|].
    destruct Hev as [->|(pre & j & post & ? & ? & ?)]; [left; constructor|right].
    exists pre, j, post. split_and!; try done. right. by eexists.
  - destruct (thunar_thumbnailer_queue_async_reply t h error a) as [[t2 ev2]|] eqn:Hd; [|done].
    apply reply_jobs_step in Hd as (? & ? & ? & Hev).
    intros [= <- <- <-]. split_and!; [done|by left|].
    destruct Hev as [->|(pre & j & post & ? & ? & ?)]; [left; constructor|right].
    exists pre, j, post. split_and!; try done. right. by eexists.
  - destruct (thunar_thumbnailer_thumbnailer_finished t h) as [t2 ev2] eqn:Hd.
    apply finished_jobs_step in Hd as (? & ? & ? & Hev).
    intros [= <- <- <-]. split_and!; [done|by left|].
    destruct Hev as [->|(pre & j & post & ? & ? & ?)]; [left; constructor|right].
    exists pre, j, post. split_and!; try done. by left.
  - intros [= Hi]. apply idle_jobs in Hi as (? & ? & Hj & _ & ? & ?).
    split_and!; [done|left; split_and!; [done|rewrite Hj; constructor|done]|by left].
  - intros [= Hi]. apply idle_jobs in Hi as (? & ? & Hj & _ & ? & ?).
    split_and!; [done|left; split_and!; [done|rewrite Hj; constructor|done]|by left].
  - destruct (idle_deref (idles t) idle) as [i|].
    + intros [= Hi]. apply idle_func_jobs in Hi as (? & ? & Hj & Ha & Hev).
      split_and!; [done|left; split_and!; [done|rewrite Hj; constructor|lia]|left].
      eapply Forall_impl; [exact Hev|]. by intros [].
    + intros [= <- <- <-].
      split_and!; [done|left; split_and!; [done|constructor|done]|left; constructor].
Qed.

Lemma no_event_of_job_not_finished (e : Event) :
  (forall a, is_event_of_job a e = false) -> is_any_request_finished e = false.
Proof.
  destruct e as [a r| | | | |]; try done.
  intros H. specialize (H a). unfold is_event_of_job in H. simpl in H.
  by rewrite Nat.eqb_refl in H.
Qed.

Lemma step_summary (t t1 : ThunarThumbnailer) (w w1 : World) (i : Input)
    (ev : list Event) :
  step has_scheme is_a t w i = Some (t1, w1, ev) ->
  thumbnailer_proxy t1 = thumbnailer_proxy t
  /\ ((last_request t1 = last_request t /\ jobs_step (jobs t) (jobs t1)
       /\ (next_addr w <= next_addr w1)%nat)
      \/ (is_submit i = true /\ thumbnailer_proxy t = true
          /\ last_request t1 = next_request (last_request t)
          /\ jobs t1
             = mkJob (next_addr w) false (next_request (last_request t)) 0 true :: jobs t
          /\ next_addr w1 = S (next_addr w)))
  /\ (Forall (fun e => is_any_request_finished e = false) ev
      \/ exists pre j post,
           jobs t = pre ++ j :: post /\ jobs t1 = pre ++ post
           /\ ev = [EvRequestFinished (job_addr j) (request j)]
           /\ last_request t1 = last_request t).
Proof.
  intros (Hp & Hj & Hev)%step_effects. split_and!; [done|done|].
  destruct Hev as [Hno|(pre & j & post & ? & ? & ? & [->|[h ->]])].
  - left. eapply Forall_impl; [exact Hno|]. apply no_event_of_job_not_finished.
  - right. by exists pre, j, post.
  - left. by repeat constructor.
Qed.

(** ** Traces *)



Lemma count_submits_cons (i : Input) (ins : list Input) :
  count_submits (i :: ins)
  = ((if is_submit i then 1 else 0) + count_submits ins)%nat.
Proof. unfold count_submits. simpl. by destruct (is_submit i). Qed.

Lemma step_preserves (t t1 : ThunarThumbnailer) (w w1 : World) (i : Input)
    (ins : list Input) (ev : list Event) :
  registry_ok t ->
  last_request t + Z.of_nat (count_submits (i :: ins)) <= G_MAXUINT ->
  step has_scheme is_a t w i = Some (t1, w1, ev) ->
  registry_ok t1
  /\ last_request t <= last_request t1
  /\ last_request t1 + Z.of_nat (count_submits ins) <= G_MAXUINT
  /\ (forall r, r ∈ request <$> jobs t1 -> r ∈ request <$> jobs t \/ last_request t < r).
Proof.
  intros Hok Hb Hs. rewrite count_submits_cons in Hb.
  apply step_summary in Hs as (Hp & [(Hl & Hst & _)|(Hsub & Hpt & Hl & Hj & _)] & _).
  - split_and!.
    + by eapply registry_ok_jobs_step.
    + lia.
    + lia.
    + intros r Hr. left. by eapply jobs_step_requests.
  - rewrite Hsub in Hb. pose proof (ok_last _ Hok) as Hlast.
    assert (last_request t < G_MAXUINT) as Hlt by lia.
    split_and!.
    + eapply registry_ok_new_job; try done. congruence.
    + rewrite Hl, next_request_small; lia.
    + rewrite Hl, next_request_small; lia.
    + intros r. rewrite Hj, fmap_cons, elem_of_cons. simpl.
      rewrite next_request_small by lia. intros [->|?]; [right; lia|by left].
Qed.



Lemma run_registry_ok (ins : list Input) :
  forall (t t' : ThunarThumbnailer) (w w' : World) (ev : list Event),
    registry_ok t ->
    last_request t + Z.of_nat (count_submits ins) <= G_MAXUINT ->
    run has_scheme is_a t w ins = Some (t', w', ev) ->
    registry_ok t'.
Proof.
  induction ins as [|i ins IH]; intros t t' w w' ev Hok Hb; simpl.
  - by intros [= <- <- <-].
  - destruct (step has_scheme is_a t w i) as [[[t1 w1] ev1]|] eqn:Hs; [|done].
    destruct (run has_scheme is_a t1 w1 ins) as [[[t2 w2] ev2]|] eqn:Hrun; [|done].
    intros [= <- <- <-].
    destruct (step_preserves _ _ _ _ _ ins _ Hok Hb Hs) as (Hok1 & Hl1 & Hb1 & Hnew).
    by eapply IH.
Qed.

(** ** The job heap along a run *)

Lemma jobs_step_addrs (l l1 : list ThunarThumbnailerJob) (n : nat) :
  jobs_step l l1 ->
  NoDup (job_addr <$> l) ->
  Forall (fun a => (a < n)%nat) (job_addr <$> l) ->
  NoDup (job_addr <$> l1)
  /\ Forall (fun a => (a < n)%nat) (job_addr <$> l1)
  /\ (forall a, a ∈ job_addr <$> l1 -> a ∈ job_addr <$> l).
Proof.
  intros Hstep. destruct Hstep as [l|pre j post|pre j j' post Ha Hr Hc Hpj]; [done| |].
  - rewrite !fmap_app, fmap_cons.
    intros (Hn1 & Hd & [_ Hn2]%NoDup_cons)%NoDup_app [? [_ ?]%Forall_cons]%Forall_app.
    split_and!.
    + apply NoDup_app. split_and!; try done.
      intros x Hx Hx'. apply (Hd x Hx). by apply list_elem_of_further.
    + by apply Forall_app.
    + intros a. rewrite !elem_of_app, elem_of_cons. tauto.
  - by rewrite !fmap_app, !fmap_cons, Ha.
Qed.

Lemma heap_ok_jobs_step (t t1 : ThunarThumbnailer) (w w1 : World) :
  heap_ok t w ->
  jobs_step (jobs t) (jobs t1) ->
  (next_addr w <= next_addr w1)%nat ->
  heap_ok t1 w1
  /\ (forall a, a ∈ job_addr <$> jobs t1 -> a ∈ job_addr <$> jobs t).
Proof.
  intros [Hnd Hall] Hstep Hle.
  assert (Forall (fun a => (a < next_addr w1)%nat) (job_addr <$> jobs t)) as Hall1.
  { eapply Forall_impl; [exact Hall|]. simpl. intros; lia. }
  destruct (jobs_step_addrs _ _ _ Hstep Hnd Hall1) as (? & ? & ?). by split.
Qed.

Lemma step_heap (t t1 : ThunarThumbnailer) (w w1 : World) (i : Input) (ev : list Event) :
  heap_ok t w ->
  step has_scheme is_a t w i = Some (t1, w1, ev) ->
  heap_ok t1 w1
  /\ (next_addr w <= next_addr w1)%nat
  /\ (forall a, a ∈ job_addr <$> jobs t1 ->
        a ∈ job_addr <$> jobs t \/ (next_addr w <= a)%nat).
Proof.
  intros Hok Hs.
  apply step_summary in Hs as (_ & [(_ & Hst & Hle)|(_ & _ & _ & Hj & Ha)] & _).
  - destruct (heap_ok_jobs_step t t1 w w1 Hok Hst Hle) as [Hok1 Hsub].
    split_and!; [done|done|]. intros a Hin. left. by apply Hsub.
  - destruct Hok as [Hnd Hall]. split_and!.
    + split; rewrite Hj, fmap_cons; simpl.
      * apply NoDup_cons. split; [|done]. intros Hin.
        rewrite Forall_forall in Hall. apply Hall in Hin. lia.
      * constructor; [lia|]. eapply Forall_impl; [exact Hall|]. simpl. intros; lia.
    + lia.
    + intros a. rewrite Hj, fmap_cons, elem_of_cons. simpl. intros [->|?]; [right; lia|by left].
Qed.


Lemma run_heap_ok (ins : list Input) :
  forall (t t' : ThunarThumbnailer) (w w' : World) (ev : list Event),
    heap_ok t w ->
    run has_scheme is_a t w ins = Some (t', w', ev) ->
    heap_ok t' w'.
Proof.
  induction ins as [|i ins IH]; intros t t' w w' ev Hok; simpl.
  - by intros [= <- <- <-].
  - destruct (step has_scheme is_a t w i) as [[[t1 w1] ev1]|] eqn:Hs; [|done].
    destruct (run has_scheme is_a t1 w1 ins) as [[[t2 w2] ev2]|] eqn:Hrun; [|done].
    intros [= <- <- <-].
    destruct (step_heap _ _ _ _ _ _ Hok Hs) as (Hok1 & _ & _). by eapply IH.
Qed.

(** *** Events about one job *)

Lemma count_events_of_job_app (a : nat) (ev1 ev2 : list Event) :
  count_events_of_job a (ev1 ++ ev2)
  = (count_events_of_job a ev1 + count_events_of_job a ev2)%nat.
Proof. unfold count_events_of_job. by rewrite List.filter_app, length_app. Qed.

Lemma count_events_of_job_none (a : nat) (ev : list Event) :
  Forall (fun e => forall a, is_event_of_job a e = false) ev ->
  count_events_of_job a ev = 0%nat.
Proof.
  unfold count_events_of_job. induction 1 as [|e ev He _ IH]; simpl; [done|].
  by rewrite He.
Qed.





(** *** Cancellation is latched *)

Lemma unique_by {A B} (f : A -> B) (l : list A) (x y : A) :
  NoDup (f <$> l) -> x ∈ l -> y ∈ l -> f x = f y -> x = y.
Proof.
  induction l as [|z l IH]; [by intros _ ?%elem_of_nil|].
  rewrite fmap_cons. intros [Hz Hnd]%NoDup_cons [->|Hx]%elem_of_cons [->|Hy]%elem_of_cons Hf;
    try done.
  - destruct Hz. rewrite Hf. apply list_elem_of_fmap. by exists y.
  - destruct Hz. rewrite <- Hf. apply list_elem_of_fmap. by exists x.
  - by apply IH.
Qed.

Lemma unique_addr (l : list ThunarThumbnailerJob) (j j' : ThunarThumbnailerJob) :
  NoDup (job_addr <$> l) -> j ∈ l -> j' ∈ l -> job_addr j = job_addr j' -> j = j'.
Proof. apply unique_by. Qed.

Lemma job_deref_elem (l : list ThunarThumbnailerJob) (a : nat) (j : ThunarThumbnailerJob) :
  job_deref l a = Some j -> j ∈ l /\ job_addr j = a.
Proof.
  intros (pre & post & -> & Ha & _)%job_deref_split. split; [|done].
  rewrite elem_of_app, elem_of_cons. auto.
Qed.





(** *** Request numbers and jobs *)



Lemma heap_ok_init (connection : bool) (w : World) :
  heap_ok (thunar_thumbnailer_init connection) w.
Proof. split; simpl; constructor. Qed.

(** ** The [Finished] signal *)


(** ** Cancellation *)

Lemma unique_request_prefix (pre post : list ThunarThumbnailerJob)
    (j : ThunarThumbnailerJob) :
  NoDup (request <$> (pre ++ j :: post)) ->
  Forall (fun x => (request x =? request j) = false) pre
  /\ request j ∉ request <$> (pre ++ post).
Proof.
  rewrite fmap_app, fmap_cons. intros (_ & Hd & [Hn _]%NoDup_cons)%NoDup_app.
  split.
  - apply Forall_forall. intros x Hx. apply Z.eqb_neq. intros Heq.
    apply (Hd (request x)); [|rewrite Heq; apply list_elem_of_here].
    apply list_elem_of_fmap. by exists x.
  - rewrite fmap_app, elem_of_app. intros [Hx|Hx]; [|done].
    apply (Hd _ Hx). apply list_elem_of_here.
Qed.






(** ** Request numbers *)

Lemma queue_files_result (t : ThunarThumbnailer) (w : World) (fl : list nat) :
  ((queue_files t w fl).2 = None
   /\ last_request (queue_files t w fl).1.1.1 = last_request t)
  \/ ((queue_files t w fl).2 = Some (next_request (last_request t))
      /\ last_request (queue_files t w fl).1.1.1 = next_request (last_request t)).
Proof.
  destruct (queue_files_cases t w fl)
    as [[Hp ->]|[(Hp & Hnil & t1 & ev1 & -> & Hs & Hev)|(Hp & Hne & t1 & ev1 & Hs & Hev & Hq)]];
    simpl.
  - by left.
  - left. by destruct Hs as (_ & _ & ? & _).
  - cbv zeta in Hq.
    destruct (fill_arrays (files w) (rev (List.filter (eligible_in t w) fl)))
      as [[[fs us] mh] ev2].
    rewrite Hq. by right.
Qed.

Lemma returned_requests_sorted (ins : list Input) :
  forall (t : ThunarThumbnailer) (w : World),
    0 <= last_request t ->
    last_request t + Z.of_nat (count_submits ins) <= G_MAXUINT ->
    Forall (fun r => last_request t < r <= G_MAXUINT) (returned_requests has_scheme is_a t w ins)
    /\ StronglySorted Z.lt (returned_requests has_scheme is_a t w ins).
Proof.
  induction ins as [|i ins IH]; intros t w H0 Hb; [split; constructor|].
  rewrite count_submits_cons in Hb.
  assert (forall t1 w1,
            last_request t1 = last_request t ->
            Forall (fun r => last_request t < r <= G_MAXUINT)
                   (returned_requests has_scheme is_a t1 w1 ins)
            /\ StronglySorted Z.lt (returned_requests has_scheme is_a t1 w1 ins)) as Hquiet.
  { intros t1 w1 Hl. rewrite <- Hl. apply IH; rewrite Hl; [done|].
    destruct (is_submit i); lia. }
  destruct i as [fl|r|a h error|h|h us|h us code message|idle];
    try (cbn [returned_requests]; 
         destruct (step has_scheme is_a t w _) as [[[t1 w1] ev1]|] eqn:Hs;
           [|split; constructor];
         pose proof Hs as Hs'; apply step_summary in Hs' as (_ & [(Hl & _)|(Hsub & _)] & _);
           [by eapply Hquiet|done]).
  cbn [returned_requests step].
  destruct (queue_files_result t w fl) as [[Hres Hl]|[Hres Hl]];
    destruct (queue_files t w fl) as [[[t1 w1] ev1] res]; simpl in Hres, Hl; subst res;
    cbn [snd].
  - by apply (Hquiet t1 w1).
  - simpl in Hb. assert (last_request t < G_MAXUINT) as Hlt by lia.
    rewrite next_request_small in Hl |- * by lia.
    destruct (IH t1 w1) as [Hall Hsorted]; [lia|lia|].
    rewrite Hl in Hall. simpl. split.
    + constructor; [unfold G_MAXUINT in *; lia|].
      eapply Forall_impl; [exact Hall|]. simpl. intros; lia.
    + constructor; [done|].
      eapply Forall_impl; [exact Hall|]. simpl. intros; lia.
Qed.

(** C9, as the code has it.  The allocator computes the new number as
    [MAX ((last_request + 1) mod 2^32, 1)] and stores it in [last_request];
    it is never 0.  While [last_request] is below [G_MAXUINT] this is
    [max (last_request + 1, 1) = last_request + 1], so the numbers returned
    by the successful [thunar_thumbnailer_queue_files] calls of a run are
    strictly increasing as long as the counter does not wrap; at
    [G_MAXUINT] the next number is 1. *)
Theorem request_ids_increase_until_wrap :
  (forall (t : ThunarThumbnailer) (w : World) (us : list string)
          (mh : list (option string)),
     let r := (thunar_thumbnailer_queue_async t w us mh).2 in
     let t1 := (thunar_thumbnailer_queue_async t w us mh).1.1.1 in
     r = Z.max ((last_request t + 1) mod 2 ^ 32) 1
     /\ last_request t1 = r /\ r <> 0 /\ 1 <= r <= G_MAXUINT)
  /\ (forall last : Z,
        0 <= last < G_MAXUINT ->
        next_request last = Z.max (last + 1) 1 /\ last < next_request last)
  /\ next_request G_MAXUINT = 1
  /\ (forall (t : ThunarThumbnailer) (w : World) (ins : list Input),
        0 <= last_request t ->
        last_request t + Z.of_nat (count_submits ins) <= G_MAXUINT ->
        StronglySorted Z.lt (returned_requests has_scheme is_a t w ins)
        /\ Forall (fun r => last_request t < r /\ r <> 0)
                  (returned_requests has_scheme is_a t w ins)).
Proof.
  split_and!.
  - intros t w us mh. rewrite queue_async_spec. simpl.
    pose proof (next_request_range (last_request t)). split_and!; try done; lia.
  - intros last H. rewrite next_request_small by done. lia.
  - reflexivity.
  - intros t w ins H0 Hb.
    destruct (returned_requests_sorted ins t w H0 Hb) as [Hall Hs]. split; [done|].
    eapply Forall_impl; [exact Hall|]. simpl. intros; lia.
Qed.

End SubmissionFacts.

(** ** The reply handler *)

(** C3.  When the reply handler runs for a job that is marked cancelled and
    the call has failed ([error] set), it sends a [Dequeue] for the handle
    argument all the same, although that argument is then not a handle that
    the service returned; it unlinks the job and emits no
    [request-finished].  The handler does exactly what it does when the call
    has succeeded: [error] is not looked at. *)
Theorem reply_for_cancelled_job_dequeues_even_on_error
    (t : ThunarThumbnailer) (a : nat) (j : ThunarThumbnailerJob) (h : Z) :
  job_deref (jobs t) a = Some j ->
  cancelled j = true ->
  thunar_thumbnailer_queue_async_reply t h true a
  = Some (set_jobs t (g_slist_remove (jobs t) a), [EvProxyDequeue a h])
  /\ thunar_thumbnailer_queue_async_reply t h true a
     = thunar_thumbnailer_queue_async_reply t h false a.
Proof.
  intros Hd Hc. by rewrite !(reply_cancelled t a j h _ Hd Hc).
Qed.

(** C6.  When the reply of the [Queue] call carries an error and the job is
    not cancelled, the handler only clears [handle_call]: the job stays in
    the list at its place with the handle field it had (0 for a job that
    never got a handle), nothing is emitted and nothing is sent. *)
Theorem reply_error_leaves_job_registered_without_handle
    (t : ThunarThumbnailer) (a : nat) (j : ThunarThumbnailerJob) (h : Z) :
  job_deref (jobs t) a = Some j ->
  cancelled j = false ->
  exists pre post,
    jobs t = pre ++ j :: post
    /\ thunar_thumbnailer_queue_async_reply t h true a
       = Some (set_jobs t (pre ++ mkJob a false (request j) (handle j) false :: post), [])
    /\ job_deref (pre ++ mkJob a false (request j) (handle j) false :: post) a
       = Some (mkJob a false (request j) (handle j) false).
Proof.
  intros Hd Hc.
  pose proof Hd as (pre & post & Hl & Ha & Hpre)%job_deref_split. subst a.
  exists pre, post. split; [done|].
  assert (set_handle_call j false = mkJob (job_addr j) false (request j) (handle j) false)
    as Hj.
  { unfold set_handle_call. by rewrite Hc. }
  split.
  - unfold thunar_thumbnailer_queue_async_reply. rewrite Hd. simpl. rewrite Hc. simpl.
    rewrite Hl, (job_store_app pre post j (set_handle_call j false)) by done.
    by rewrite Hj.
  - rewrite <- Hj.
    by apply (job_deref_app pre post (set_handle_call j false)).
Qed.

(** ** [Ready] and [Error] *)

Lemma job_with_handle_true (h : Z) (l : list ThunarThumbnailerJob) :
  job_with_handle h l = true <-> exists j, j ∈ l /\ handle j = h.
Proof.
  unfold job_with_handle. rewrite existsb_exists. split.
  - intros (j & Hin & Hj). exists j. split; [by apply list_elem_of_In|by apply Z.eqb_eq].
  - intros (j & Hin & Hj). exists j. split; [by apply list_elem_of_In|by apply Z.eqb_eq].
Qed.


(** C10.  A job is created with handle 0 and keeps it while its call is
    pending and after a reply with an error.  The handlers compare the
    handle fields for equality, so right after
    [thunar_thumbnailer_queue_async] a [Finished] signal with handle 0
    reports the new request as finished and unlinks its job, and a [Ready]
    or [Error] signal with handle 0 queues an idle function; the same holds
    after the reply with an error. *)
Theorem handle_zero_matches_job_without_handle
    (t : ThunarThumbnailer) (w : World) (us : list string) (mh : list (option string)) :
  let t1 := (thunar_thumbnailer_queue_async t w us mh).1.1.1 in
  let w1 := (thunar_thumbnailer_queue_async t w us mh).1.1.2 in
  let r := (thunar_thumbnailer_queue_async t w us mh).2 in
  let t1e := set_jobs t1 (mkJob (next_addr w) false r 0 false :: jobs t) in
  jobs t1 = mkJob (next_addr w) false r 0 true :: jobs t
  /\ thunar_thumbnailer_thumbnailer_finished t1 0
     = (set_jobs t1 (jobs t), [EvRequestFinished (next_addr w) r])
  /\ (forall ty l,
        thunar_thumbnailer_idle t1 w1 0 ty (Some l)
        = (set_idles t1 (mkIdle (next_addr w1) ty (next_source w1) (Some l) :: idles t1),
           set_next_source (set_next_addr w1 (S (next_addr w1))) (S (next_source w1)),
           [EvIdleAdd (next_addr w1) (next_source w1)]))
  /\ (forall h, thunar_thumbnailer_queue_async_reply t1 h true (next_addr w) = Some (t1e, []))
  /\ thunar_thumbnailer_thumbnailer_finished t1e 0
     = (set_jobs t1e (jobs t), [EvRequestFinished (next_addr w) r])
  /\ (forall ty l,
        thunar_thumbnailer_idle t1e w1 0 ty (Some l)
        = (set_idles t1e (mkIdle (next_addr w1) ty (next_source w1) (Some l) :: idles t1e),
           set_next_source (set_next_addr w1 (S (next_addr w1))) (S (next_source w1)),
           [EvIdleAdd (next_addr w1) (next_source w1)])).
Proof.
  rewrite queue_async_spec. simpl. split_and!; try done.
  intros h. unfold thunar_thumbnailer_queue_async_reply. simpl.
  rewrite Nat.eqb_refl. simpl. by rewrite Nat.eqb_refl.
Qed.

(** ** The idle function *)

Lemma cache_lookup_Some (w : World) (uri : string) (f : nat) :
  thunar_file_cache_lookup w uri = Some f ->
  file_cache w !! uri = Some f /\ is_Some (files w !! f).
Proof.
  unfold thunar_file_cache_lookup.
  destruct (file_cache w !! uri) as [g|]; [|done].
  destruct (files w !! g) eqn:Hg; [|done]. intros [= ->]. eauto.
Qed.

Lemma cache_lookup_set_thumb_state (w : World) (g : nat) (st : ThunarFileThumbState)
    (uri : string) :
  thunar_file_cache_lookup (set_files w (thunar_file_set_thumb_state (files w) g st)) uri
  = thunar_file_cache_lookup w uri.
Proof.
  unfold thunar_file_cache_lookup. simpl.
  destruct (file_cache w !! uri) as [f|]; [|done].
  rewrite set_thumb_state_lookup. case_decide; [|done]. by destruct (files w !! f).
Qed.

Lemma idle_func_uri_lookup (ty : ThunarThumbnailerIdleType) (w : World) (uri uri' : string) :
  thunar_file_cache_lookup (idle_func_uri ty w uri).1 uri' = thunar_file_cache_lookup w uri'.
Proof.
  unfold idle_func_uri. destruct (thunar_file_cache_lookup w uri) as [f|]; [|done].
  destruct ty; simpl.
  - destruct (thunar_file_get_thumb_state (files w) f) as [[]|]; simpl;
      try done; apply cache_lookup_set_thumb_state.
  - apply cache_lookup_set_thumb_state.
Qed.

Lemma get_thumb_state_set (fs : gmap nat ThunarFile) (g f : nat) (st : ThunarFileThumbState) :
  thunar_file_get_thumb_state (thunar_file_set_thumb_state fs g st) f
  = if decide (g = f) then (fun _ => st) <$> fs !! f
    else thunar_file_get_thumb_state fs f.
Proof.
  unfold thunar_file_get_thumb_state. rewrite set_thumb_state_lookup.
  case_decide; [|done]. by destruct (fs !! f).
Qed.

(** What one entry does to the file it resolves to. *)
Lemma idle_func_uri_error (w : World) (uri : string) (f : nat) :
  thunar_file_cache_lookup w uri = Some f ->
  match thunar_file_get_thumb_state (files w) f with
  | Some THUNAR_FILE_THUMB_STATE_READY =>
      idle_func_uri THUNAR_THUMBNAILER_IDLE_ERROR w uri = (w, [])
  | _ =>
      thunar_file_get_thumb_state
        (files (idle_func_uri THUNAR_THUMBNAILER_IDLE_ERROR w uri).1) f
      = Some THUNAR_FILE_THUMB_STATE_NONE
  end.
Proof.
  intros Hl. pose proof (cache_lookup_Some _ _ _ Hl) as [_ [x Hx]].
  unfold idle_func_uri. rewrite Hl.
  destruct (thunar_file_get_thumb_state (files w) f) as [[]|] eqn:Hg; simpl;
    try done; rewrite get_thumb_state_set, decide_True, Hx by done; done.
Qed.

Lemma idle_func_uri_ready (w : World) (uri : string) (f : nat) :
  thunar_file_cache_lookup w uri = Some f ->
  thunar_file_get_thumb_state
    (files (idle_func_uri THUNAR_THUMBNAILER_IDLE_READY w uri).1) f
  = Some THUNAR_FILE_THUMB_STATE_READY.
Proof.
  intros Hl. pose proof (cache_lookup_Some _ _ _ Hl) as [_ [x Hx]].
  unfold idle_func_uri. rewrite Hl. simpl.
  by rewrite get_thumb_state_set, decide_True, Hx.
Qed.

(** READY is kept by every entry, of either type. *)
Lemma idle_func_uri_keeps_ready (ty : ThunarThumbnailerIdleType) (w : World)
    (uri : string) (f : nat) :
  thunar_file_get_thumb_state (files w) f = Some THUNAR_FILE_THUMB_STATE_READY ->
  thunar_file_get_thumb_state (files (idle_func_uri ty w uri).1) f
  = Some THUNAR_FILE_THUMB_STATE_READY.
Proof.
  intros Hr. unfold idle_func_uri.
  destruct (thunar_file_cache_lookup w uri) as [g|]; [|done].
  destruct ty; simpl.
  - destruct (thunar_file_get_thumb_state (files w) g) as [[]|] eqn:Hg; simpl;
      try done; rewrite get_thumb_state_set; case_decide; try done; congruence.
  - rewrite get_thumb_state_set. case_decide; [|done]. subst g.
    unfold thunar_file_get_thumb_state in Hr. by destruct (files w !! f).
Qed.

Lemma idle_func_loop_lookup (ty : ThunarThumbnailerIdleType) (us : list string) :
  forall (w : World) (uri : string),
    thunar_file_cache_lookup (idle_func_loop ty w us).1 uri = thunar_file_cache_lookup w uri.
Proof.
  induction us as [|u us IH]; intros w uri; simpl; [done|].
  pose proof (idle_func_uri_lookup ty w u uri) as H1.
  destruct (idle_func_uri ty w u) as [w1 ev1]. specialize (IH w1 uri).
  destruct (idle_func_loop ty w1 us) as [w2 ev2]. simpl in *. congruence.
Qed.

Lemma idle_func_loop_keeps_ready (ty : ThunarThumbnailerIdleType) (us : list string) :
  forall (w : World) (f : nat),
    thunar_file_get_thumb_state (files w) f = Some THUNAR_FILE_THUMB_STATE_READY ->
    thunar_file_get_thumb_state (files (idle_func_loop ty w us).1) f
    = Some THUNAR_FILE_THUMB_STATE_READY.
Proof.
  induction us as [|u us IH]; intros w f Hr; simpl; [done|].
  pose proof (idle_func_uri_keeps_ready ty w u f Hr) as H1.
  destruct (idle_func_uri ty w u) as [w1 ev1]. specialize (IH w1 f H1).
  by destruct (idle_func_loop ty w1 us) as [w2 ev2].
Qed.

Lemma idle_func_loop_ready (us : list string) :
  forall (w : World) (uri : string) (f : nat),
    uri ∈ us ->
    thunar_file_cache_lookup w uri = Some f ->
    thunar_file_get_thumb_state
      (files (idle_func_loop THUNAR_THUMBNAILER_IDLE_READY w us).1) f
    = Some THUNAR_FILE_THUMB_STATE_READY.
Proof.
  induction us as [|u us IH]; intros w uri f Hin Hl; [by apply elem_of_nil in Hin|].
  cbn [idle_func_loop].
  pose proof (idle_func_uri_lookup THUNAR_THUMBNAILER_IDLE_READY w u uri) as Hlk.
  apply elem_of_cons in Hin as [<-|Hin].
  - pose proof (idle_func_uri_ready w uri f Hl) as H1.
    pose proof (idle_func_loop_keeps_ready THUNAR_THUMBNAILER_IDLE_READY us
                  (idle_func_uri THUNAR_THUMBNAILER_IDLE_READY w uri).1 f H1) as H2.
    destruct (idle_func_uri THUNAR_THUMBNAILER_IDLE_READY w uri) as [w1 ev1].
    cbn [fst] in *.
    by destruct (idle_func_loop THUNAR_THUMBNAILER_IDLE_READY w1 us) as [w2 ev2].
  - destruct (idle_func_uri THUNAR_THUMBNAILER_IDLE_READY w u) as [w1 ev1].
    simpl in Hlk. rewrite <- Hlk in Hl. specialize (IH w1 uri f Hin Hl).
    by destruct (idle_func_loop THUNAR_THUMBNAILER_IDLE_READY w1 us) as [w2 ev2].
Qed.

Lemma idle_func_lookup (t : ThunarThumbnailer) (w : World) (i : ThunarThumbnailerIdle)
    (uri : string) :
  thunar_file_cache_lookup (thunar_thumbnailer_idle_func t w i).1.2 uri
  = thunar_file_cache_lookup w uri.
Proof.
  unfold thunar_thumbnailer_idle_func. destruct (uris i) as [us|]; [|done].
  pose proof (idle_func_loop_lookup (type i) us w uri).
  by destruct (idle_func_loop (type i) w us).
Qed.

Lemma idle_func_keeps_ready (t : ThunarThumbnailer) (w : World) (i : ThunarThumbnailerIdle)
    (f : nat) :
  thunar_file_get_thumb_state (files w) f = Some THUNAR_FILE_THUMB_STATE_READY ->
  thunar_file_get_thumb_state (files (thunar_thumbnailer_idle_func t w i).1.2) f
  = Some THUNAR_FILE_THUMB_STATE_READY.
Proof.
  intros Hr. unfold thunar_thumbnailer_idle_func. destruct (uris i) as [us|]; [|done].
  pose proof (idle_func_loop_keeps_ready (type i) us w f Hr).
  by destruct (idle_func_loop (type i) w us).
Qed.

Lemma idle_func_ready (t : ThunarThumbnailer) (w : World) (i : ThunarThumbnailerIdle)
    (us : list string) (uri : string) (f : nat) :
  type i = THUNAR_THUMBNAILER_IDLE_READY ->
  uris i = Some us ->
  uri ∈ us ->
  thunar_file_cache_lookup w uri = Some f ->
  thunar_file_get_thumb_state (files (thunar_thumbnailer_idle_func t w i).1.2) f
  = Some THUNAR_FILE_THUMB_STATE_READY.
Proof.
  intros Hty Hus Hin Hl. unfold thunar_thumbnailer_idle_func. rewrite Hus, Hty.
  pose proof (idle_func_loop_ready us w uri f Hin Hl).
  by destruct (idle_func_loop THUNAR_THUMBNAILER_IDLE_READY w us).
Qed.

Lemma idle_func_seq_lookup (il : list ThunarThumbnailerIdle) :
  forall (t : ThunarThumbnailer) (w : World) (uri : string),
    thunar_file_cache_lookup (idle_func_seq t w il).1.2 uri = thunar_file_cache_lookup w uri.
Proof.
  induction il as [|i il IH]; intros t w uri; simpl; [done|].
  pose proof (idle_func_lookup t w i uri) as H1.
  destruct (thunar_thumbnailer_idle_func t w i) as [[t1 w1] ev1].
  specialize (IH t1 w1 uri).
  destruct (idle_func_seq t1 w1 il) as [[t2 w2] ev2]. simpl in *. congruence.
Qed.

Lemma idle_func_seq_keeps_ready (il : list ThunarThumbnailerIdle) :
  forall (t : ThunarThumbnailer) (w : World) (f : nat),
    thunar_file_get_thumb_state (files w) f = Some THUNAR_FILE_THUMB_STATE_READY ->
    thunar_file_get_thumb_state (files (idle_func_seq t w il).1.2) f
    = Some THUNAR_FILE_THUMB_STATE_READY.
Proof.
  induction il as [|i il IH]; intros t w f Hr; simpl; [done|].
  pose proof (idle_func_keeps_ready t w i f Hr) as H1.
  destruct (thunar_thumbnailer_idle_func t w i) as [[t1 w1] ev1].
  specialize (IH t1 w1 f H1).
  by destruct (idle_func_seq t1 w1 il) as [[t2 w2] ev2].
Qed.

Lemma idle_func_seq_ready (il1 il2 : list ThunarThumbnailerIdle) (i : ThunarThumbnailerIdle)
    (us : list string) (uri : string) (f : nat) :
  forall (t : ThunarThumbnailer) (w : World),
    type i = THUNAR_THUMBNAILER_IDLE_READY ->
    uris i = Some us ->
    uri ∈ us ->
    thunar_file_cache_lookup w uri = Some f ->
    thunar_file_get_thumb_state (files (idle_func_seq t w (il1 ++ i :: il2)).1.2) f
    = Some THUNAR_FILE_THUMB_STATE_READY.
Proof.
  induction il1 as [|i1 il1 IH]; intros t w Hty Hus Hin Hl; simpl.
  - pose proof (idle_func_ready t w i us uri f Hty Hus Hin Hl) as H1.
    destruct (thunar_thumbnailer_idle_func t w i) as [[t1 w1] ev1].
    pose proof (idle_func_seq_keeps_ready il2 t1 w1 f H1) as H2.
    by destruct (idle_func_seq t1 w1 il2) as [[t2 w2] ev2].
  - pose proof (idle_func_lookup t w i1 uri) as Hlk.
    destruct (thunar_thumbnailer_idle_func t w i1) as [[t1 w1] ev1].
    simpl in Hlk. rewrite <- Hlk in Hl. specialize (IH t1 w1 Hty Hus Hin Hl).
    by destruct (idle_func_seq t1 w1 (il1 ++ i :: il2)) as [[t2 w2] ev2].
Qed.

(** C5.  In the idle function an entry of type ERROR sets the state of the
    file it resolves to NONE unless that state is READY, in which case it
    changes nothing; an entry of type READY sets READY whatever the state
    was.  So when the idle functions of an [Error] and of a [Ready] both
    resolve a URI to the same file, the file is READY after both have run,
    in either order; more generally after any sequence of idle functions
    that contains such a [Ready]. *)
Theorem ready_wins_over_error :
  (forall (w : World) (uri : string) (f : nat),
     thunar_file_cache_lookup w uri = Some f ->
     match thunar_file_get_thumb_state (files w) f with
     | Some THUNAR_FILE_THUMB_STATE_READY =>
         idle_func_uri THUNAR_THUMBNAILER_IDLE_ERROR w uri = (w, [])
     | _ =>
         thunar_file_get_thumb_state
           (files (idle_func_uri THUNAR_THUMBNAILER_IDLE_ERROR w uri).1) f
         = Some THUNAR_FILE_THUMB_STATE_NONE
     end
     /\ thunar_file_get_thumb_state
          (files (idle_func_uri THUNAR_THUMBNAILER_IDLE_READY w uri).1) f
        = Some THUNAR_FILE_THUMB_STATE_READY)
  /\ (forall (t : ThunarThumbnailer) (w : World) (i_error i_ready : ThunarThumbnailerIdle)
             (us_error us_ready : list string) (uri_error uri_ready : string) (f : nat),
        type i_error = THUNAR_THUMBNAILER_IDLE_ERROR ->
        uris i_error = Some us_error ->
        uri_error ∈ us_error ->
        thunar_file_cache_lookup w uri_error = Some f ->
        type i_ready = THUNAR_THUMBNAILER_IDLE_READY ->
        uris i_ready = Some us_ready ->
        uri_ready ∈ us_ready ->
        thunar_file_cache_lookup w uri_ready = Some f ->
        thunar_file_get_thumb_state (files (idle_func_seq t w [i_error; i_ready]).1.2) f
        = Some THUNAR_FILE_THUMB_STATE_READY
        /\ thunar_file_get_thumb_state (files (idle_func_seq t w [i_ready; i_error]).1.2) f
           = Some THUNAR_FILE_THUMB_STATE_READY)
  /\ (forall (t : ThunarThumbnailer) (w : World) (before after : list ThunarThumbnailerIdle)
             (i_ready : ThunarThumbnailerIdle) (us : list string) (uri : string) (f : nat),
        type i_ready = THUNAR_THUMBNAILER_IDLE_READY ->
        uris i_ready = Some us ->
        uri ∈ us ->
        thunar_file_cache_lookup w uri = Some f ->
        thunar_file_get_thumb_state
          (files (idle_func_seq t w (before ++ i_ready :: after)).1.2) f
        = Some THUNAR_FILE_THUMB_STATE_READY).
Proof.
  split_and!.
  - intros w uri f Hl. split; [by apply idle_func_uri_error|by apply idle_func_uri_ready].
  - intros t w ie ir use usr urie urir f _ _ _ _ Hty Hus Hin Hl. split.
    + by apply (idle_func_seq_ready [ie] [] ir usr urir f).
    + by apply (idle_func_seq_ready [] [ie] ir usr urir f).
  - intros t w before after ir us uri f Hty Hus Hin Hl.
    by apply (idle_func_seq_ready before after ir us uri f).
Qed.

(** ** The counter at the end of its range *)

(** After [n] allocations from the initial counter 0 the counter is [n], up
    to [G_MAXUINT]. *)
Lemma counter_after_n_requests (n : N) :
  Z.of_N n <= G_MAXUINT -> N.iter n next_request 0 = Z.of_N n.
Proof.
  induction n as [|n IH] using N.peano_ind; [done|].
  intros Hn. rewrite N.iter_succ, IH by lia.
  rewrite next_request_small; unfold G_MAXUINT in *; lia.
Qed.

(** Against C9 as stated: two successful [thunar_thumbnailer_queue_files]
    calls in a row, started when the counter stands at [G_MAXUINT - 1]
    (where it is after that many requests): the first returns [G_MAXUINT],
    the second returns 1, which is neither larger than its predecessor nor
    [max (last + 1, 1)]. *)
Lemma request_ids_not_increasing_at_wrap :
  let t := mkThumbnailer true [] (Some ["file"]) (Some ["image/png"])
                         (G_MAXUINT - 1) [] in
  let ids := returned_requests example_has_uri_scheme example_content_type_is_a
               t example_world [CallQueueFiles [1%nat]; CallQueueFiles [1%nat]] in
  ids = [G_MAXUINT; 1]
  /\ ~ StronglySorted Z.lt ids
  /\ next_request G_MAXUINT <> Z.max (G_MAXUINT + 1) 1.
Proof.
  assert (returned_requests example_has_uri_scheme example_content_type_is_a
            (mkThumbnailer true [] (Some ["file"]) (Some ["image/png"])
                           (G_MAXUINT - 1) [])
            example_world [CallQueueFiles [1%nat]; CallQueueFiles [1%nat]]
          = [G_MAXUINT; 1]) as Hids by (vm_compute; reflexivity).
  cbv zeta. rewrite Hids. split_and!; [done| |by vm_compute].
  intros Hs. apply StronglySorted_inv in Hs as [_ Hall].
  apply Forall_inv in Hall. vm_compute in Hall. discriminate Hall.
Qed.

(** ** The theorems at concrete inputs *)

Lemma example_thumbnailer_ok : registry_ok example_thumbnailer.
Proof.
  split; simpl.
  - unfold G_MAXUINT. lia.
  - repeat constructor; lia.
  - repeat constructor; rewrite ?elem_of_cons, ?elem_of_nil; intros H; intuition lia.
  - done.
  - repeat constructor; done.
Defined.

Lemma example_heap_ok : heap_ok example_thumbnailer example_world.
Proof.
  split; simpl.
  - repeat constructor; rewrite ?elem_of_cons, ?elem_of_nil; intros H; intuition lia.
  - repeat constructor; lia.
Defined.


(** The failing run of C3: one supported file is queued (request 1, job at
    address 100), the request is cancelled while the [Queue] call is pending,
    and the call then fails; the handle argument of the reply is 4242 here. *)
Lemma reply_for_cancelled_job_dequeues_even_on_error_witness :
  let t2 := mkThumbnailer true [mkJob 100 true 1 0 true]
                          (Some ["file"]) (Some ["image/png"]) 1 [] in
  (exists w2 ev,
     run example_has_uri_scheme example_content_type_is_a
         (thunar_thumbnailer_init true) example_world
         [CallQueueFiles [1%nat]; CallDequeue 1]
     = Some (t2, w2, ev))
  /\ (job_deref (jobs t2) 100 = Some (mkJob 100 true 1 0 true)
      /\ cancelled (mkJob 100 true 1 0 true) = true)
  /\ thunar_thumbnailer_queue_async_reply t2 4242 true 100
     = Some (set_jobs t2 [], [EvProxyDequeue 100 4242]).
Proof.
  cbv zeta. split; [eexists _, _; vm_compute; reflexivity|]. split; [by split|].
  exact (proj1 (reply_for_cancelled_job_dequeues_even_on_error
                  (mkThumbnailer true [mkJob 100 true 1 0 true]
                                 (Some ["file"]) (Some ["image/png"]) 1 [])
                  100%nat (mkJob 100 true 1 0 true) 4242 eq_refl eq_refl)).
Defined.



Lemma ready_wins_over_error_witness :
  let i_error := mkIdle 100 THUNAR_THUMBNAILER_IDLE_ERROR 1 (Some ["file:///c.png"]) in
  let i_ready := mkIdle 101 THUNAR_THUMBNAILER_IDLE_READY 2
                        (Some ["file:///a.png"; "file:///c.png"]) in
  ("file:///c.png" ∈ ["file:///c.png"]
   /\ "file:///c.png" ∈ ["file:///a.png"; "file:///c.png"]
   /\ thunar_file_cache_lookup example_world "file:///c.png" = Some 3%nat)
  /\ thunar_file_get_thumb_state
       (files (idle_func_seq example_thumbnailer example_world [i_error; i_ready]).1.2) 3
     = Some THUNAR_FILE_THUMB_STATE_READY
  /\ thunar_file_get_thumb_state
       (files (idle_func_seq example_thumbnailer example_world [i_ready; i_error]).1.2) 3
     = Some THUNAR_FILE_THUMB_STATE_READY.
Proof.
  cbv zeta.
  assert ("file:///c.png" ∈ ["file:///c.png"]) as H1 by apply list_elem_of_here.
  assert ("file:///c.png" ∈ ["file:///a.png"; "file:///c.png"]) as H2
    by apply list_elem_of_further, list_elem_of_here.
  assert (thunar_file_cache_lookup example_world "file:///c.png" = Some 3%nat) as H3
    by (vm_compute; reflexivity).
  split; [by split_and!|].
  exact (proj1 (proj2 ready_wins_over_error) example_thumbnailer example_world
           (mkIdle 100 THUNAR_THUMBNAILER_IDLE_ERROR 1 (Some ["file:///c.png"]))
           (mkIdle 101 THUNAR_THUMBNAILER_IDLE_READY 2
                   (Some ["file:///a.png"; "file:///c.png"]))
           ["file:///c.png"] ["file:///a.png"; "file:///c.png"]
           "file:///c.png" "file:///c.png" 3%nat
           eq_refl eq_refl H1 H3 eq_refl eq_refl H2 H3).
Defined.

Lemma reply_error_leaves_job_registered_without_handle_witness :
  (job_deref (jobs example_thumbnailer) 11 = Some (mkJob 11 false 2 0 true)
   /\ cancelled (mkJob 11 false 2 0 true) = false)
  /\ exists pre post,
       jobs example_thumbnailer = pre ++ mkJob 11 false 2 0 true :: post
       /\ thunar_thumbnailer_queue_async_reply example_thumbnailer 0 true 11
          = Some (set_jobs example_thumbnailer (pre ++ mkJob 11 false 2 0 false :: post), [])
       /\ job_deref (pre ++ mkJob 11 false 2 0 false :: post) 11
          = Some (mkJob 11 false 2 0 false).
Proof.
  split; [by split|].
  exact (reply_error_leaves_job_registered_without_handle
           example_thumbnailer 11%nat (mkJob 11 false 2 0 true) 0 eq_refl eq_refl).
Defined.

Lemma queue_files_fails_exactly_without_proxy_or_eligible_file_witness :
  let res := thunar_thumbnailer_queue_files example_has_uri_scheme example_content_type_is_a
               example_thumbnailer example_world [2%nat] in
  res.2 = None
  /\ (thumbnailer_proxy example_thumbnailer = false
      \/ forall f, f ∈ [2%nat] ->
           eligible example_has_uri_scheme example_content_type_is_a
                    example_thumbnailer example_world f = false)
  /\ jobs res.1.1.1 = jobs example_thumbnailer
  /\ last_request res.1.1.1 = last_request example_thumbnailer
  /\ res.1.1.2 = example_world.
Proof.
  cbv zeta.
  pose proof (queue_files_fails_exactly_without_proxy_or_eligible_file
                example_has_uri_scheme example_content_type_is_a
                example_thumbnailer example_world [2%nat]) as [Hiff Hfail].
  assert ((thunar_thumbnailer_queue_files example_has_uri_scheme example_content_type_is_a
             example_thumbnailer example_world [2%nat]).2 = None) as Hnone
    by (vm_compute; reflexivity).
  split; [exact Hnone|]. split; [exact (proj1 Hiff Hnone)|].
  destruct (Hfail Hnone) as (Hj & Hl & _ & Hw & _). by split_and!.
Defined.

Lemma queue_files_sets_loading_before_queue_witness :
  let res := thunar_thumbnailer_queue_files example_has_uri_scheme example_content_type_is_a
               example_thumbnailer example_world [1%nat; 2%nat; 3%nat] in
  res.2 = Some 3
  /\ (eligible example_has_uri_scheme example_content_type_is_a
               example_thumbnailer example_world 3 = true
      /\ eligible example_has_uri_scheme example_content_type_is_a
                  example_thumbnailer example_world 2 = false)
  /\ thunar_file_get_thumb_state (files res.1.1.2) 3 = Some THUNAR_FILE_THUMB_STATE_LOADING
  /\ files res.1.1.2 !! 2%nat = files example_world !! 2%nat.
Proof.
  cbv zeta.
  assert ((thunar_thumbnailer_queue_files example_has_uri_scheme example_content_type_is_a
             example_thumbnailer example_world [1%nat; 2%nat; 3%nat]).2 = Some 3) as Hsome
    by (vm_compute; reflexivity).
  assert (eligible example_has_uri_scheme example_content_type_is_a
                   example_thumbnailer example_world 3 = true) as He3
    by (vm_compute; reflexivity).
  assert (eligible example_has_uri_scheme example_content_type_is_a
                   example_thumbnailer example_world 2 = false) as He2
    by (vm_compute; reflexivity).
  pose proof (queue_files_sets_loading_before_queue
                example_has_uri_scheme example_content_type_is_a
                example_thumbnailer example_world [1%nat; 2%nat; 3%nat] 3 Hsome)
    as (Hload & Hother & _).
  split; [exact Hsome|]. split; [by split|]. split.
  - apply Hload; [|exact He3]. do 2 apply list_elem_of_further. apply list_elem_of_here.
  - apply Hother. by right.
Defined.

Lemma request_ids_increase_until_wrap_witness :
  (0 <= 5 < G_MAXUINT /\ 5 < next_request 5)
  /\ (0 <= last_request example_thumbnailer
      /\ last_request example_thumbnailer
         + Z.of_nat (count_submits [CallQueueFiles [1%nat]; SignalFinished 7;
                                    CallQueueFiles [3%nat]]) <= G_MAXUINT)
  /\ StronglySorted Z.lt
       (returned_requests example_has_uri_scheme example_content_type_is_a
          example_thumbnailer example_world
          [CallQueueFiles [1%nat]; SignalFinished 7; CallQueueFiles [3%nat]]).
Proof.
  pose proof (request_ids_increase_until_wrap
                example_has_uri_scheme example_content_type_is_a) as (_ & Hsmall & _ & Hrun).
  assert (0 <= 5 < G_MAXUINT) as H5 by (unfold G_MAXUINT; lia).
  assert (0 <= last_request example_thumbnailer) as H0 by (simpl; lia).
  assert (last_request example_thumbnailer
          + Z.of_nat (count_submits [CallQueueFiles [1%nat]; SignalFinished 7;
                                     CallQueueFiles [3%nat]]) <= G_MAXUINT) as Hb
    by (vm_compute; discriminate).
  split; [split; [exact H5|exact (proj2 (Hsmall 5 H5))]|].
  split; [by split|].
  exact (proj1 (Hrun example_thumbnailer example_world _ H0 Hb)).
Defined.

(** * Further properties of the code *)

Section Lifecycle.

Variable has_scheme : string -> string -> bool.
Variable is_a : string -> string -> bool.

(** ** A thumbnailer without proxy *)

Lemma step_without_proxy (t t1 : ThunarThumbnailer) (w w1 : World) (i : Input)
    (ev : list Event) :
  thumbnailer_proxy t = false -> jobs t = [] -> idles t = [] ->
  step has_scheme is_a t w i = Some (t1, w1, ev) ->
  t1 = t /\ w1 = w /\ ev = [].
Proof.
  intros Hp Hj Hi Hstep. destruct i as [fl|r|a h e|h|h us|h us c m|idle]; simpl in Hstep.
  - unfold thunar_thumbnailer_queue_files in Hstep. rewrite Hp in Hstep. simpl in Hstep.
    by injection Hstep as <- <- <-.
  - unfold thunar_thumbnailer_dequeue in Hstep. rewrite Hj in Hstep. simpl in Hstep.
    injection Hstep as <- <- <-. by rewrite <- Hj, set_jobs_id.
  - unfold thunar_thumbnailer_queue_async_reply in Hstep. by rewrite Hj in Hstep.
  - unfold thunar_thumbnailer_thumbnailer_finished in Hstep. rewrite Hj in Hstep.
    simpl in Hstep. injection Hstep as <- <- <-. by rewrite <- Hj, set_jobs_id.
  - unfold thunar_thumbnailer_thumbnailer_ready, thunar_thumbnailer_idle in Hstep.
    rewrite Hj in Hstep. destruct us; simpl in Hstep; by injection Hstep as <- <- <-.
  - unfold thunar_thumbnailer_thumbnailer_error, thunar_thumbnailer_idle in Hstep.
    rewrite Hj in Hstep. destruct us; simpl in Hstep; by injection Hstep as <- <- <-.
  - rewrite Hi in Hstep. simpl in Hstep. by injection Hstep as <- <- <-.
Qed.

(** X1.  A thumbnailer that has no proxy (no D-Bus connection at
    construction), no jobs and no idle functions is inert: whatever is
    called or delivered, in any order, the object and the files stay as
    they are, nothing is emitted or sent, and no
    [thunar_thumbnailer_queue_files] call hands out a request number. *)
Theorem thumbnailer_without_proxy_is_inert (ins : list Input) :
  forall (t t' : ThunarThumbnailer) (w w' : World) (ev : list Event),
    thumbnailer_proxy t = false -> jobs t = [] -> idles t = [] ->
    run has_scheme is_a t w ins = Some (t', w', ev) ->
    t' = t /\ w' = w /\ ev = [] /\ returned_requests has_scheme is_a t w ins = [].
Proof.
  induction ins as [|i ins IH]; intros t t' w w' ev Hp Hj Hi Hrun.
  - simpl in Hrun. by injection Hrun as <- <- <-.
  - cbn [run] in Hrun. cbn [returned_requests].
    destruct (step has_scheme is_a t w i) as [[[t1 w1] ev1]|] eqn:Hstep; [|done].
    destruct (step_without_proxy _ _ _ _ _ _ Hp Hj Hi Hstep) as (-> & -> & ->).
    destruct (run has_scheme is_a t w ins) as [[[t2 w2] ev2]|] eqn:Hrest; [|done].
    injection Hrun as <- <- <-.
    destruct (IH _ _ _ _ _ Hp Hj Hi Hrest) as (-> & -> & -> & Hret).
    rewrite Hret. split_and!; try done.
    destruct i; try done. simpl.
    unfold thunar_thumbnailer_queue_files. by rewrite Hp.
Qed.


(** ** Which input causes which effect *)

Lemma idle_func_uri_writes (ty : ThunarThumbnailerIdleType) (w : World) (uri : string) :
  Forall (fun e => exists f, e = EvSetThumbState f (idle_state ty)) (idle_func_uri ty w uri).2.
Proof.
  unfold idle_func_uri. destruct (thunar_file_cache_lookup w uri) as [f|]; [|by constructor].
  destruct ty; simpl.
  - destruct (thunar_file_get_thumb_state (files w) f) as [[]|]; simpl;
      repeat constructor; eauto.
  - repeat constructor; eauto.
Qed.

Lemma idle_func_loop_writes (ty : ThunarThumbnailerIdleType) (us : list string) :
  forall w : World,
    Forall (fun e => exists f, e = EvSetThumbState f (idle_state ty)) (idle_func_loop ty w us).2.
Proof.
  induction us as [|u us IH]; intros w; simpl; [by constructor|].
  pose proof (idle_func_uri_writes ty w u) as H1.
  destruct (idle_func_uri ty w u) as [w1 ev1]. specialize (IH w1).
  destruct (idle_func_loop ty w1 us) as [w2 ev2]. simpl in *. by apply Forall_app.
Qed.

Lemma idle_func_writes (t : ThunarThumbnailer) (w : World) (i : ThunarThumbnailerIdle) :
  Forall (fun e => exists f, e = EvSetThumbState f (idle_state (type i)))
         (thunar_thumbnailer_idle_func t w i).2.
Proof.
  unfold thunar_thumbnailer_idle_func. destruct (uris i) as [us|]; [|by constructor].
  pose proof (idle_func_loop_writes (type i) us w).
  by destruct (idle_func_loop (type i) w us).
Qed.

Lemma queue_files_events (t : ThunarThumbnailer) (w : World) (fl : list nat) :
  Forall (fun e => e = EvProxyGetSupported
                   \/ (exists f, e = EvSetThumbState f THUNAR_FILE_THUMB_STATE_LOADING)
                   \/ exists us mh, e = EvProxyQueueAsync us mh (next_addr w))
         (thunar_thumbnailer_queue_files has_scheme is_a t w fl).1.2.
Proof.
  destruct (queue_files_cases has_scheme is_a t w fl)
    as [[_ ->]|[(_ & _ & t1 & ev1 & -> & _ & Hev)|(_ & _ & t1 & ev1 & _ & Hev & Hq)]]; simpl.
  - constructor.
  - eapply Forall_impl; [exact Hev|]. by left.
  - cbv zeta in Hq.
    pose proof (fill_arrays_events
                  (rev (List.filter (eligible has_scheme is_a t w) fl)) (files w)) as Hfill.
    destruct (fill_arrays (files w) (rev (List.filter (eligible has_scheme is_a t w) fl)))
      as [[[fs us] mh] ev2].
    simpl in Hfill. rewrite Hq. simpl. apply Forall_app. split.
    + eapply Forall_impl; [exact Hev|]. by left.
    + apply Forall_app. split.
      * rewrite Hfill. apply Forall_forall. intros e He.
        apply list_elem_of_In, in_map_iff in He as (f & <- & _). right. left. eauto.
      * apply Forall_cons. split; [|by constructor]. right. right. eauto.
Qed.

(** X2.  Every effect has its own causes.  In one step of the event loop:
    [request-finished] is emitted only by the handler of [Finished];
    [Dequeue] is sent only by [thunar_thumbnailer_dequeue] and by the reply
    handler, there for the job and with the handle of the reply; [Queue]
    and [GetSupported] are sent only by [thunar_thumbnailer_queue_files];
    an idle source is added only by the handlers of [Ready] and [Error];
    a thumbnail state is written only by [thunar_thumbnailer_queue_files],
    which writes LOADING, and by an idle function, which writes READY or
    NONE.  The signal handlers, the reply handler and
    [thunar_thumbnailer_dequeue] leave every file as it is. *)
Theorem effects_come_from_their_inputs
    (t t1 : ThunarThumbnailer) (w w1 : World) (i : Input) (ev : list Event) :
  step has_scheme is_a t w i = Some (t1, w1, ev) ->
  (forall a r, EvRequestFinished a r ∈ ev -> exists h, i = SignalFinished h)
  /\ (forall a h, EvProxyDequeue a h ∈ ev ->
        (exists r, i = CallDequeue r) \/ (exists error, i = QueueReply a h error))
  /\ (forall us mh a, EvProxyQueueAsync us mh a ∈ ev -> exists fl, i = CallQueueFiles fl)
  /\ (EvProxyGetSupported ∈ ev -> exists fl, i = CallQueueFiles fl)
  /\ (forall a s, EvIdleAdd a s ∈ ev ->
        (exists h us, i = SignalReady h us) \/ (exists h us c m, i = SignalError h us c m))
  /\ (forall f st, EvSetThumbState f st ∈ ev ->
        (st = THUNAR_FILE_THUMB_STATE_LOADING /\ exists fl, i = CallQueueFiles fl)
        \/ ((st = THUNAR_FILE_THUMB_STATE_READY \/ st = THUNAR_FILE_THUMB_STATE_NONE)
            /\ exists idle, i = IdleDispatch idle))
  /\ match i with
     | CallQueueFiles _ | IdleDispatch _ => True
     | _ => files w1 = files w /\ file_cache w1 = file_cache w
     end.
Proof.
  intros Hstep. destruct i as [fl|r|a h e|h|h us|h us c m|idle]; simpl in Hstep.
  - pose proof (queue_files_events t w fl) as Hev.
    destruct (thunar_thumbnailer_queue_files has_scheme is_a t w fl) as [[[t2 w2] ev2] res].
    injection Hstep as <- <- <-. simpl in Hev. rewrite Forall_forall in Hev.
    split_and!; try done; intros; try (by eexists);
      match goal with H : _ ∈ ev2 |- _ =>
        destruct (Hev _ H) as [?|[[? ?]|(? & ? & ?)]]; try done end.
    left. split; [congruence|by eexists].
  - destruct (thunar_thumbnailer_dequeue t r) as [t2 ev2] eqn:Hd.
    injection Hstep as <- <- <-.
    destruct (dequeue_jobs_step _ _ _ _ Hd) as (_ & _ & _ & [->|(pre & j & post & _ & _ & ->)]);
      split_and!; try done; intros;
      try (match goal with H : _ ∈ [] |- _ => by apply elem_of_nil in H end);
      try (match goal with H : _ ∈ [_] |- _ => by apply list_elem_of_singleton in H end).
    left. by eexists.
  - unfold thunar_thumbnailer_queue_async_reply in Hstep.
    destruct (job_deref (jobs t) a) as [j|]; [|done]. simpl in Hstep.
    destruct (cancelled j); [|destruct (negb e)]; injection Hstep as <- <- <-;
      split_and!; try done; intros;
      try (match goal with H : _ ∈ [] |- _ => by apply elem_of_nil in H end);
      try (match goal with H : _ ∈ [_] |- _ => by apply list_elem_of_singleton in H end).
    match goal with H : _ ∈ [_] |- _ => apply list_elem_of_singleton in H; injection H as -> -> end.
    right. by eexists.
  - destruct (thunar_thumbnailer_thumbnailer_finished t h) as [t2 ev2] eqn:Hf.
    injection Hstep as <- <- <-.
    destruct (finished_jobs_step _ _ _ _ Hf) as (_ & _ & _ & [->|(pre & j & post & _ & _ & ->)]);
      split_and!; try done; intros; try (by eexists);
      try (match goal with H : _ ∈ [] |- _ => by apply elem_of_nil in H end);
      try (match goal with H : _ ∈ [_] |- _ => by apply list_elem_of_singleton in H end).
  - injection Hstep as Hstep.
    unfold thunar_thumbnailer_thumbnailer_ready, thunar_thumbnailer_idle in Hstep.
    destruct us as [l|]; [destruct (job_with_handle h (jobs t))|];
      injection Hstep as <- <- <-;
      split_and!; try done; intros;
      try (match goal with H : _ ∈ [] |- _ => by apply elem_of_nil in H end);
      try (match goal with H : _ ∈ [_] |- _ => by apply list_elem_of_singleton in H end).
    left. by do 2 eexists.
  - injection Hstep as Hstep.
    unfold thunar_thumbnailer_thumbnailer_error, thunar_thumbnailer_idle in Hstep.
    destruct us as [l|]; [destruct (job_with_handle h (jobs t))|];
      injection Hstep as <- <- <-;
      split_and!; try done; intros;
      try (match goal with H : _ ∈ [] |- _ => by apply elem_of_nil in H end);
      try (match goal with H : _ ∈ [_] |- _ => by apply list_elem_of_singleton in H end).
    right. by do 4 eexists.
  - destruct (idle_deref (idles t) idle) as [i|].
    + pose proof (idle_func_writes t w i) as Hev. injection Hstep as Hstep.
      rewrite Hstep in Hev. simpl in Hev. rewrite Forall_forall in Hev.
      split_and!; try done; intros;
        match goal with H : _ ∈ ev |- _ => destruct (Hev _ H) as [? ?]; try done end.
      right. split; [|by eexists].
      match goal with H : EvSetThumbState _ _ = EvSetThumbState _ _ |- _ =>
        injection H as -> -> end.
      destruct (type i); simpl; eauto.
    + injection Hstep as <- <- <-.
      split_and!; try done; intros;
        match goal with H : _ ∈ [] |- _ => by apply elem_of_nil in H end.
Qed.


(** ** Cancelling twice, and what an operation leaves alone *)

Lemma set_jobs_set_jobs (t : ThunarThumbnailer) (l l' : list ThunarThumbnailerJob) :
  set_jobs (set_jobs t l) l' = set_jobs t l'.
Proof. done. Qed.

Lemma not_elem_request_Forall (r : Z) (l : list ThunarThumbnailerJob) :
  r ∉ request <$> l -> Forall (fun x => (request x =? r) = false) l.
Proof.
  intros Hn. apply Forall_forall. intros x Hx. apply Z.eqb_neq. intros <-.
  apply Hn, list_elem_of_fmap. eauto.
Qed.

(** X3.  Cancelling is idempotent: after [thunar_thumbnailer_dequeue] for a
    request, a second call for the same request changes nothing and sends
    nothing, whether the first call marked a job without handle as
    cancelled, unlinked a job with a handle, or found no job; and a call
    for a request number that no running job has changes nothing at
    all. *)
Theorem dequeue_is_idempotent (t : ThunarThumbnailer) (r : Z) :
  NoDup (request <$> jobs t) ->
  thunar_thumbnailer_dequeue (thunar_thumbnailer_dequeue t r).1 r
  = ((thunar_thumbnailer_dequeue t r).1, [])
  /\ ((forall j, j ∈ jobs t -> request j <> r) -> thunar_thumbnailer_dequeue t r = (t, [])).
Proof.
  intros Hnd. unfold thunar_thumbnailer_dequeue at 2 3 4.
  destruct (dequeue_loop_cases (thumbnailer_proxy t) r (jobs t))
    as [[Hall ->]|(pre & j & post & Hj & Hr & Hpre & ->)].
  - rewrite set_jobs_id. unfold thunar_thumbnailer_dequeue.
    rewrite (dequeue_loop_none _ _ _ Hall), set_jobs_id. done.
  - split.
    + unfold thunar_thumbnailer_dequeue. destruct (handle j =? 0) eqn:Hh; simpl.
      * rewrite (dequeue_loop_app _ _ _ _ _ Hpre) by done. simpl. by rewrite Hh.
      * rewrite Hj in Hnd. destruct (unique_request_prefix _ _ _ Hnd) as [_ Hnot].
        rewrite Hr in Hnot.
        by rewrite (dequeue_loop_none _ _ _ (not_elem_request_Forall _ _ Hnot)).
    + intros Hno. exfalso. apply (Hno j); [|done]. rewrite Hj.
      apply elem_of_app. right. apply list_elem_of_here.
Qed.

Lemma filter_unlink {A} (p : A -> bool) (pre post : list A) (x : A) :
  p x = false -> List.filter p (pre ++ x :: post) = List.filter p (pre ++ post).
Proof. intros Hx. rewrite !List.filter_app. simpl. by rewrite Hx. Qed.

Lemma filter_replace {A} (p : A -> bool) (pre post : list A) (x y : A) :
  p x = false -> p y = false ->
  List.filter p (pre ++ x :: post) = List.filter p (pre ++ y :: post).
Proof. intros Hx Hy. rewrite !List.filter_app. simpl. by rewrite Hx, Hy. Qed.

(** X4.  Each operation on the registry touches at most the one job it is
    about.  [thunar_thumbnailer_dequeue] leaves the jobs with another
    request number as they are and in their order, the handler of
    [Finished] those with another handle, the reply handler those at
    another address; none of the three changes the proxy, the request
    counter, the cached arrays or the idle list. *)
Theorem operations_touch_one_job (t : ThunarThumbnailer) :
  (forall r,
     let t1 := (thunar_thumbnailer_dequeue t r).1 in
     List.filter (fun j => negb (request j =? r)) (jobs t1)
     = List.filter (fun j => negb (request j =? r)) (jobs t)
     /\ set_jobs t1 (jobs t) = t)
  /\ (forall h,
        let t1 := (thunar_thumbnailer_thumbnailer_finished t h).1 in
        List.filter (fun j => negb (handle j =? h)) (jobs t1)
        = List.filter (fun j => negb (handle j =? h)) (jobs t)
        /\ set_jobs t1 (jobs t) = t)
  /\ (forall h error a t1 ev,
        thunar_thumbnailer_queue_async_reply t h error a = Some (t1, ev) ->
        List.filter (fun j => negb (Nat.eqb (job_addr j) a)) (jobs t1)
        = List.filter (fun j => negb (Nat.eqb (job_addr j) a)) (jobs t)
        /\ set_jobs t1 (jobs t) = t).
Proof.
  split_and!.
  - intros r. cbv zeta. unfold thunar_thumbnailer_dequeue.
    destruct (dequeue_loop_cases (thumbnailer_proxy t) r (jobs t))
      as [[_ ->]|(pre & j & post & Hj & Hr & _ & ->)];
      [simpl; by destruct t|].
    assert (negb (request j =? r) = false) as Hn by (by rewrite Hr, Z.eqb_refl).
    destruct (handle j =? 0); simpl; (split; [|by destruct t]); rewrite Hj; symmetry.
    + by apply filter_replace.
    + by apply filter_unlink.
  - intros h. cbv zeta. unfold thunar_thumbnailer_thumbnailer_finished.
    destruct (finished_loop_cases h (jobs t))
      as [[_ ->]|(pre & j & post & Hj & Hh & _ & ->)];
      [simpl; by destruct t|].
    assert (negb (handle j =? h) = false) as Hn by (by rewrite Hh, Z.eqb_refl).
    simpl. split; [|by destruct t]. rewrite Hj. symmetry. by apply filter_unlink.
  - intros h error a t1 ev Hrep.
    destruct (job_deref (jobs t) a) as [j|] eqn:Hd;
      [|unfold thunar_thumbnailer_queue_async_reply in Hrep; by rewrite Hd in Hrep].
    pose proof Hd as (pre & post & Hj & Ha & Hpre)%job_deref_split. subst a.
    assert (negb (Nat.eqb (job_addr j) (job_addr j)) = false) as Hn
      by (by rewrite Nat.eqb_refl).
    destruct (cancelled j) eqn:Hc.
    + rewrite (reply_cancelled t (job_addr j) j h error Hd Hc) in Hrep.
      injection Hrep as <- <-. simpl. split; [|by destruct t].
      rewrite Hj, (g_slist_remove_app pre post j (job_addr j)) by done.
      symmetry. by apply filter_unlink.
    + unfold thunar_thumbnailer_queue_async_reply in Hrep. rewrite Hd in Hrep.
      simpl in Hrep. rewrite Hc in Hrep.
      destruct error; simpl in Hrep; injection Hrep as <- <-; simpl;
        (split; [|by destruct t]); rewrite Hj.
      * rewrite (job_store_app pre post j (set_handle_call j false)) by done.
        symmetry. by apply filter_replace.
      * rewrite (job_store_app pre post j (set_handle (set_handle_call j false) h)) by done.
        symmetry. by apply filter_replace.
Qed.

(** ** The life of a request that runs through *)

(** X5.  A request that runs through: when
    [thunar_thumbnailer_queue_files] succeeds with request number [r], its
    job is the one at the address that the allocator handed out; a
    successful reply with handle [h] attaches [h] to that job and sends
    nothing; the signal [Finished] for [h] then emits [request-finished]
    for exactly this job and [r], also when an older job holds the same
    handle, and leaves the job list as it was before the request. *)
Theorem request_runs_through
    (t : ThunarThumbnailer) (w : World) (fl : list nat) (r h : Z) :
  (thunar_thumbnailer_queue_files has_scheme is_a t w fl).2 = Some r ->
  let t1 := (thunar_thumbnailer_queue_files has_scheme is_a t w fl).1.1.1 in
  let a := next_addr w in
  r = next_request (last_request t)
  /\ jobs t1 = mkJob a false r 0 true :: jobs t
  /\ exists t2,
       thunar_thumbnailer_queue_async_reply t1 h false a = Some (t2, [])
       /\ jobs t2 = mkJob a false r h false :: jobs t
       /\ thunar_thumbnailer_thumbnailer_finished t2 h
          = (set_jobs t1 (jobs t), [EvRequestFinished a r])
       /\ last_request (set_jobs t1 (jobs t)) = r.
Proof.
  intros Hres. cbv zeta.
  destruct (queue_files_cases has_scheme is_a t w fl)
    as [[_ Hq]|[(_ & _ & t1 & ev1 & Hq & _)|(_ & _ & t1 & ev1 & _ & _ & Hq)]];
    try (rewrite Hq in Hres; discriminate Hres).
  cbv zeta in Hq.
  destruct (fill_arrays (files w) (rev (List.filter (eligible has_scheme is_a t w) fl)))
    as [[[fs us] mh] ev2].
  rewrite Hq in Hres |- *. simpl in Hres. injection Hres as <-. simpl.
  split; [done|]. split; [done|]. eexists. split_and!.
  - unfold thunar_thumbnailer_queue_async_reply. simpl. rewrite Nat.eqb_refl. simpl.
    rewrite Nat.eqb_refl. reflexivity.
  - done.
  - unfold thunar_thumbnailer_thumbnailer_finished. simpl. by rewrite Z.eqb_refl.
  - done.
Qed.

(** ** From a notification to the files *)

Lemma set_thumb_state_fields (fs : gmap nat ThunarFile) (g f : nat)
    (st : ThunarFileThumbState) :
  file_uri <$> thunar_file_set_thumb_state fs g st !! f = file_uri <$> fs !! f
  /\ file_content_type <$> thunar_file_set_thumb_state fs g st !! f
     = file_content_type <$> fs !! f
  /\ (thunar_file_get_thumb_state (thunar_file_set_thumb_state fs g st) f
      = thunar_file_get_thumb_state fs f
      \/ thunar_file_get_thumb_state (thunar_file_set_thumb_state fs g st) f = Some st).
Proof.
  unfold thunar_file_get_thumb_state. rewrite set_thumb_state_lookup.
  case_decide; [|by split_and!; try left]. destruct (fs !! f); simpl; split_and!; eauto.
Qed.

(** One entry writes nothing but the thumbnail state of the file it
    resolves to. *)
Lemma idle_func_uri_fields (ty : ThunarThumbnailerIdleType) (w : World) (uri : string) :
  let w1 := (idle_func_uri ty w uri).1 in
  (file_cache w1 = file_cache w /\ get_supported_reply w1 = get_supported_reply w
   /\ next_addr w1 = next_addr w /\ next_source w1 = next_source w)
  /\ (forall f,
        file_uri <$> files w1 !! f = file_uri <$> files w !! f
        /\ file_content_type <$> files w1 !! f = file_content_type <$> files w !! f
        /\ (thunar_file_get_thumb_state (files w1) f = thunar_file_get_thumb_state (files w) f
            \/ thunar_file_get_thumb_state (files w1) f = Some (idle_state ty)))
  /\ (forall f, thunar_file_cache_lookup w uri <> Some f -> files w1 !! f = files w !! f).
Proof.
  cbv zeta. unfold idle_func_uri.
  destruct (thunar_file_cache_lookup w uri) as [g|];
    [|split; [done|]; split; [|done]; intros f; split_and!; try done; by left].
  assert (forall st f,
            Some g <> Some f ->
            files (set_files w (thunar_file_set_thumb_state (files w) g st)) !! f
            = files w !! f) as Hother.
  { intros st f Hne. simpl. rewrite set_thumb_state_lookup. case_decide; [congruence|done]. }
  destruct ty; simpl.
  - destruct (thunar_file_get_thumb_state (files w) g) as [[]|]; simpl;
      (split; [done|]; split);
      try (intros f; apply (set_thumb_state_fields (files w) g f THUNAR_FILE_THUMB_STATE_NONE));
      try apply Hother; try done.
    intros f. split_and!; try done. by left.
  - split; [done|]. split.
    + intros f. apply (set_thumb_state_fields (files w) g f THUNAR_FILE_THUMB_STATE_READY).
    + apply Hother.
Qed.

Lemma idle_func_loop_fields (ty : ThunarThumbnailerIdleType) (us : list string) :
  forall w : World,
    let w1 := (idle_func_loop ty w us).1 in
    (file_cache w1 = file_cache w /\ get_supported_reply w1 = get_supported_reply w
     /\ next_addr w1 = next_addr w /\ next_source w1 = next_source w)
    /\ (forall f,
          file_uri <$> files w1 !! f = file_uri <$> files w !! f
          /\ file_content_type <$> files w1 !! f = file_content_type <$> files w !! f
          /\ (thunar_file_get_thumb_state (files w1) f
              = thunar_file_get_thumb_state (files w) f
              \/ thunar_file_get_thumb_state (files w1) f = Some (idle_state ty)))
    /\ (forall f, (forall uri, uri ∈ us -> thunar_file_cache_lookup w uri <> Some f) ->
          files w1 !! f = files w !! f).
Proof.
  induction us as [|u us IH]; intros w; cbv zeta.
  - simpl. split; [done|]. split; [|done]. intros f. split_and!; try done. by left.
  - cbn [idle_func_loop].
    pose proof (idle_func_uri_fields ty w u) as (Hc1 & Hf1 & Ho1).
    pose proof (fun uri => idle_func_uri_lookup ty w u uri) as Hlk.
    destruct (idle_func_uri ty w u) as [w1 ev1]. cbn [fst] in *.
    pose proof (IH w1) as (Hc2 & Hf2 & Ho2).
    destruct (idle_func_loop ty w1 us) as [w2 ev2]. cbn [fst] in *.
    split; [|split].
    + destruct Hc1 as (? & ? & ? & ?), Hc2 as (? & ? & ? & ?). split_and!; congruence.
    + intros f. destruct (Hf1 f) as (Hu1 & Ht1 & Hs1). destruct (Hf2 f) as (Hu2 & Ht2 & Hs2).
      split_and!; [congruence|congruence|].
      destruct Hs2 as [Hs2|Hs2]; [|by right]. rewrite Hs2. exact Hs1.
    + intros f Hno. rewrite Ho2, Ho1; [done|..].
      * apply Hno. apply list_elem_of_here.
      * intros uri Hin. rewrite Hlk. apply Hno. by apply list_elem_of_further.
Qed.

(** X6.  An idle function writes nothing but thumbnail states.  It leaves
    the file cache as it is; it creates and removes no file; it keeps the
    URI and the content type of every file; the thumbnail state of a file
    is afterwards what it was, or NONE after an idle function of type
    ERROR, READY after one of type READY; and a file that none of the
    URIs of the idle function resolves to is not touched (in particular no
    file is, when no URI can be resolved).  The jobs, the request counter
    and the proxy are not touched either. *)
Theorem idle_func_writes_only_thumb_states
    (t : ThunarThumbnailer) (w : World) (i : ThunarThumbnailerIdle) :
  let t1 := (thunar_thumbnailer_idle_func t w i).1.1 in
  let w1 := (thunar_thumbnailer_idle_func t w i).1.2 in
  (file_cache w1 = file_cache w /\ get_supported_reply w1 = get_supported_reply w
   /\ next_addr w1 = next_addr w /\ next_source w1 = next_source w)
  /\ (forall f,
        file_uri <$> files w1 !! f = file_uri <$> files w !! f
        /\ file_content_type <$> files w1 !! f = file_content_type <$> files w !! f
        /\ (thunar_file_get_thumb_state (files w1) f = thunar_file_get_thumb_state (files w) f
            \/ thunar_file_get_thumb_state (files w1) f = Some (idle_state (type i))))
  /\ (forall f,
        (forall us uri, uris i = Some us -> uri ∈ us ->
                        thunar_file_cache_lookup w uri <> Some f) ->
        files w1 !! f = files w !! f)
  /\ set_idles t1 (idles t) = t.
Proof.
  cbv zeta. unfold thunar_thumbnailer_idle_func.
  destruct (uris i) as [us|] eqn:Hus.
  - pose proof (idle_func_loop_fields (type i) us w) as (Hc & Hf & Ho).
    destruct (idle_func_loop (type i) w us) as [w1 ev]. cbn [fst snd] in *.
    split; [exact Hc|]. split; [exact Hf|]. split; [|by destruct t].
    intros f Hno. apply Ho. intros uri Hin. by apply (Hno us).
  - simpl. split; [done|]. split; [|split; [done|by destruct t]].
    intros f. split_and!; try done. by left.
Qed.

Lemma idle_func_loop_error (us : list string) :
  forall (w : World) (uri : string) (f : nat),
    uri ∈ us ->
    thunar_file_cache_lookup w uri = Some f ->
    thunar_file_get_thumb_state
      (files (idle_func_loop THUNAR_THUMBNAILER_IDLE_ERROR w us).1) f
    = Some (match thunar_file_get_thumb_state (files w) f with
            | Some THUNAR_FILE_THUMB_STATE_READY => THUNAR_FILE_THUMB_STATE_READY
            | _ => THUNAR_FILE_THUMB_STATE_NONE
            end).
Proof.
  induction us as [|u us IH]; intros w uri f Hin Hl; [by apply elem_of_nil in Hin|].
  assert (thunar_file_get_thumb_state (files w) f = Some THUNAR_FILE_THUMB_STATE_READY
          \/ thunar_file_get_thumb_state (files w) f <> Some THUNAR_FILE_THUMB_STATE_READY)
    as [Hr|Hnr]
    by (destruct (thunar_file_get_thumb_state (files w) f) as [[]|]; (by left) || (by right)).
  { rewrite Hr. by apply idle_func_loop_keeps_ready. }
  assert (match thunar_file_get_thumb_state (files w) f with
          | Some THUNAR_FILE_THUMB_STATE_READY => THUNAR_FILE_THUMB_STATE_READY
          | _ => THUNAR_FILE_THUMB_STATE_NONE
          end = THUNAR_FILE_THUMB_STATE_NONE) as ->
    by (by destruct (thunar_file_get_thumb_state (files w) f) as [[]|]).
  cbn [idle_func_loop].
  pose proof (idle_func_uri_lookup THUNAR_THUMBNAILER_IDLE_ERROR w u uri) as Hlk.
  pose proof (idle_func_uri_fields THUNAR_THUMBNAILER_IDLE_ERROR w u) as (_ & Hf1 & _).
  apply elem_of_cons in Hin as [<-|Hin].
  - pose proof (idle_func_uri_error w uri f Hl) as H1.
    destruct (idle_func_uri THUNAR_THUMBNAILER_IDLE_ERROR w uri) as [w1 ev1].
    cbn [fst] in *.
    assert (thunar_file_get_thumb_state (files w1) f = Some THUNAR_FILE_THUMB_STATE_NONE)
      as Hn by (by destruct (thunar_file_get_thumb_state (files w) f) as [[]|]).
    pose proof (idle_func_loop_fields THUNAR_THUMBNAILER_IDLE_ERROR us w1) as (_ & Hf2 & _).
    destruct (idle_func_loop THUNAR_THUMBNAILER_IDLE_ERROR w1 us) as [w2 ev2].
    cbn [fst] in *. destruct (Hf2 f) as (_ & _ & [Hs|Hs]); [congruence|exact Hs].
  - destruct (idle_func_uri THUNAR_THUMBNAILER_IDLE_ERROR w u) as [w1 ev1].
    cbn [fst] in *. rewrite <- Hlk in Hl. specialize (IH w1 uri f Hin Hl).
    destruct (idle_func_loop THUNAR_THUMBNAILER_IDLE_ERROR w1 us) as [w2 ev2].
    cbn [fst] in *. rewrite IH.
    destruct (Hf1 f) as (_ & _ & [Hs|Hs]); rewrite Hs; [|done].
    by destruct (thunar_file_get_thumb_state (files w) f) as [[]|].
Qed.

(** X7.  From a notification to the files.  When a job holds the handle
    of a [Ready] or [Error] signal that carries URIs, the signal followed
    by the dispatch of the idle source it queued leaves the thumbnailer
    exactly as it was before the signal (the idle struct is gone again),
    and the files are updated: after [Ready] every file that a URI of the
    signal resolves to is READY; after [Error] such a file is NONE, unless
    it was READY, which it then still is.  Files that no URI of the signal
    resolves to are as they were. *)
Theorem notification_reaches_files
    (t : ThunarThumbnailer) (w : World) (h : Z) (l : list string) :
  (exists j, j ∈ jobs t /\ handle j = h) ->
  (exists w2 ev,
     run has_scheme is_a t w [SignalReady h (Some l); IdleDispatch (next_addr w)]
     = Some (t, w2, EvIdleAdd (next_addr w) (next_source w) :: ev)
     /\ (forall uri f, uri ∈ l -> thunar_file_cache_lookup w uri = Some f ->
           thunar_file_get_thumb_state (files w2) f = Some THUNAR_FILE_THUMB_STATE_READY)
     /\ (forall f, (forall uri, uri ∈ l -> thunar_file_cache_lookup w uri <> Some f) ->
           files w2 !! f = files w !! f))
  /\ (forall code message, exists w2 ev,
        run has_scheme is_a t w
            [SignalError h (Some l) code message; IdleDispatch (next_addr w)]
        = Some (t, w2, EvIdleAdd (next_addr w) (next_source w) :: ev)
        /\ (forall uri f, uri ∈ l -> thunar_file_cache_lookup w uri = Some f ->
              thunar_file_get_thumb_state (files w2) f
              = Some (match thunar_file_get_thumb_state (files w) f with
                      | Some THUNAR_FILE_THUMB_STATE_READY => THUNAR_FILE_THUMB_STATE_READY
                      | _ => THUNAR_FILE_THUMB_STATE_NONE
                      end))
        /\ (forall f, (forall uri, uri ∈ l -> thunar_file_cache_lookup w uri <> Some f) ->
              files w2 !! f = files w !! f)).
Proof.
  intros Hj. apply job_with_handle_true in Hj.
  set (w1 := set_next_source (set_next_addr w (S (next_addr w))) (S (next_source w))).
  assert (forall ty,
            thunar_thumbnailer_idle t w h ty (Some l)
            = (set_idles t (mkIdle (next_addr w) ty (next_source w) (Some l) :: idles t),
               w1, [EvIdleAdd (next_addr w) (next_source w)])) as Hsignal.
  { intros ty. unfold thunar_thumbnailer_idle. by rewrite Hj. }
  assert (forall ty,
            step has_scheme is_a
                 (set_idles t (mkIdle (next_addr w) ty (next_source w) (Some l) :: idles t))
                 w1 (IdleDispatch (next_addr w))
            = Some (t, (idle_func_loop ty w1 l).1, (idle_func_loop ty w1 l).2))
    as Hdispatch.
  { intros ty. cbn [step]. simpl idle_deref. rewrite Nat.eqb_refl.
    unfold thunar_thumbnailer_idle_func. simpl uris. simpl type. simpl idles.
    simpl idle_addr. simpl idles_remove. rewrite Nat.eqb_refl.
    destruct (idle_func_loop ty w1 l) as [w2 ev2]. simpl. by destruct t. }
  assert (forall uri, thunar_file_cache_lookup w1 uri = thunar_file_cache_lookup w uri)
    as Hlk by done.
  split.
  - exists (idle_func_loop THUNAR_THUMBNAILER_IDLE_READY w1 l).1,
           ((idle_func_loop THUNAR_THUMBNAILER_IDLE_READY w1 l).2 ++ []).
    split_and!.
    + assert (step has_scheme is_a t w (SignalReady h (Some l))
              = Some (set_idles t (mkIdle (next_addr w) THUNAR_THUMBNAILER_IDLE_READY
                                          (next_source w) (Some l) :: idles t),
                      w1, [EvIdleAdd (next_addr w) (next_source w)])) as Hs
        by (cbn [step]; unfold thunar_thumbnailer_thumbnailer_ready; by rewrite Hsignal).
      cbn [run]. by rewrite Hs, Hdispatch.
    + intros uri f Hin Hl. apply (idle_func_loop_ready l w1 uri f Hin). by rewrite Hlk.
    + intros f Hno.
      pose proof (idle_func_loop_fields THUNAR_THUMBNAILER_IDLE_READY l w1) as (_ & _ & Ho).
      rewrite Ho; [done|]. intros uri Hin. rewrite Hlk. by apply Hno.
  - intros code message.
    exists (idle_func_loop THUNAR_THUMBNAILER_IDLE_ERROR w1 l).1,
           ((idle_func_loop THUNAR_THUMBNAILER_IDLE_ERROR w1 l).2 ++ []).
    split_and!.
    + assert (step has_scheme is_a t w (SignalError h (Some l) code message)
              = Some (set_idles t (mkIdle (next_addr w) THUNAR_THUMBNAILER_IDLE_ERROR
                                          (next_source w) (Some l) :: idles t),
                      w1, [EvIdleAdd (next_addr w) (next_source w)])) as Hs
        by (cbn [step]; unfold thunar_thumbnailer_thumbnailer_error; by rewrite Hsignal).
      cbn [run]. by rewrite Hs, Hdispatch.
    + intros uri f Hin Hl.
      rewrite (idle_func_loop_error l w1 uri f Hin) by (by rewrite Hlk). done.
    + intros f Hno.
      pose proof (idle_func_loop_fields THUNAR_THUMBNAILER_IDLE_ERROR l w1) as (_ & _ & Ho).
      rewrite Ho; [done|]. intros uri Hin. rewrite Hlk. by apply Hno.
Qed.

Lemma idle_func_world (t : ThunarThumbnailer) (w : World) (i : ThunarThumbnailerIdle) :
  (file_cache (thunar_thumbnailer_idle_func t w i).1.2 = file_cache w
   /\ get_supported_reply (thunar_thumbnailer_idle_func t w i).1.2 = get_supported_reply w
   /\ next_source (thunar_thumbnailer_idle_func t w i).1.2 = next_source w)
  /\ set_idles (thunar_thumbnailer_idle_func t w i).1.1 (idles t) = t.
Proof.
  unfold thunar_thumbnailer_idle_func. destruct (uris i) as [us|].
  - pose proof (idle_func_loop_fields (type i) us w) as ((Hc & Hr & _ & Hs) & _).
    destruct (idle_func_loop (type i) w us) as [w1 ev]. cbn [fst snd] in *.
    split; [done|by destruct t].
  - simpl. split; [done|by destruct t].
Qed.

(** ** The cache of supported schemes and types *)

Lemma count_get_supported_app (ev1 ev2 : list Event) :
  count_get_supported (ev1 ++ ev2)
  = (count_get_supported ev1 + count_get_supported ev2)%nat.
Proof. unfold count_get_supported. by rewrite List.filter_app, length_app. Qed.

Lemma count_get_supported_none (ev : list Event) :
  Forall (fun e => is_get_supported e = false) ev -> count_get_supported ev = 0%nat.
Proof.
  unfold count_get_supported. induction 1 as [|e ev He _ IH]; [done|].
  simpl. by rewrite He.
Qed.

Lemma count_get_supported_all (ev : list Event) :
  Forall (fun e => e = EvProxyGetSupported) ev -> count_get_supported ev = length ev.
Proof.
  unfold count_get_supported. induction 1 as [|e ev -> _ IH]; [done|].
  simpl. by rewrite IH.
Qed.

(** The test that [thunar_thumbnailer_file_is_supported] makes before it
    looks at the cached arrays. *)
Lemma file_is_supported_asks (t : ThunarThumbnailer) (w : World) (f : nat) :
  let res := thunar_thumbnailer_file_is_supported has_scheme is_a t w f in
  (thumbnailer_proxy t = true /\ is_Some (thunar_file_get_content_type (files w) f)
   /\ res.1.1 = (request_supported t w).1 /\ res.2 = (request_supported t w).2)
  \/ ((thumbnailer_proxy t = false \/ thunar_file_get_content_type (files w) f = None)
      /\ res = (t, false, [])).
Proof.
  cbv zeta. unfold thunar_thumbnailer_file_is_supported.
  destruct (thumbnailer_proxy t); simpl; [|right; by split; [left|]].
  destruct (thunar_file_get_content_type (files w) f) as [ct|]; [|right; by split; [right|]].
  left. destruct (request_supported t w) as [t1 ev].
  split_and!; try done; by destruct (supported_schemes t1), (supported_types t1).
Qed.

Lemma request_supported_cached (t : ThunarThumbnailer) (w : World) :
  is_Some (supported_schemes t) -> is_Some (supported_types t) ->
  request_supported t w = (t, []).
Proof. intros [ss Hs] [ts Ht]. unfold request_supported. by rewrite Hs, Ht. Qed.

Lemma request_supported_fetch (t : ThunarThumbnailer) (w : World) :
  supported_schemes t = None \/ supported_types t = None ->
  request_supported t w
  = (match get_supported_reply w with
     | Some (ss, ts) => set_supported t (Some ss) (Some ts)
     | None => t
     end, [EvProxyGetSupported]).
Proof.
  intros Hn. unfold request_supported.
  destruct (supported_schemes t), (supported_types t); try done. by destruct Hn.
Qed.

Lemma not_cached_cases (t : ThunarThumbnailer) :
  (is_Some (supported_schemes t) /\ is_Some (supported_types t))
  \/ (supported_schemes t = None \/ supported_types t = None).
Proof. destruct (supported_schemes t), (supported_types t); eauto. Qed.

Lemma collect_supported_cached (w : World) (lp : list nat) :
  forall (t : ThunarThumbnailer) (acc : list nat),
    is_Some (supported_schemes t) -> is_Some (supported_types t) ->
    (collect_supported has_scheme is_a t w lp acc).1.1 = t
    /\ (collect_supported has_scheme is_a t w lp acc).2 = [].
Proof.
  induction lp as [|f lp IH]; intros t acc Hs Ht; [done|]. cbn [collect_supported].
  pose proof (file_is_supported_asks t w f) as Hask. cbv zeta in Hask.
  rewrite (request_supported_cached t w Hs Ht) in Hask.
  destruct (thunar_thumbnailer_file_is_supported has_scheme is_a t w f) as [[t1 b] ev1].
  assert (t1 = t /\ ev1 = []) as [-> ->].
  { destruct Hask as [(_ & _ & ? & ?)|[_ [= -> _ ->]]]; by simpl in *. }
  pose proof (IH t (if b then f :: acc else acc) Hs Ht) as IH'.
  destruct (collect_supported has_scheme is_a t w lp (if b then f :: acc else acc))
    as [[t2 res] ev2].
  by simpl in *.
Qed.

Lemma collect_supported_fetch (w : World) (lp : list nat) (ss ts : list string) :
  get_supported_reply w = Some (ss, ts) ->
  forall (t : ThunarThumbnailer) (acc : list nat),
    let res := collect_supported has_scheme is_a t w lp acc in
    (count_get_supported res.2 = 0%nat /\ res.1.1 = t)
    \/ (count_get_supported res.2 = 1%nat
        /\ (supported_schemes t = None \/ supported_types t = None)
        /\ res.1.1 = set_supported t (Some ss) (Some ts)).
Proof.
  intros Hreply. induction lp as [|f lp IH]; intros t acc; cbv zeta; [by left|].
  cbn [collect_supported].
  pose proof (file_is_supported_asks t w f) as Hask. cbv zeta in Hask.
  destruct (not_cached_cases t) as [[Hs Ht]|Hn].
  - pose proof (collect_supported_cached w (f :: lp) t acc Hs Ht) as [H1 H2].
    cbn [collect_supported] in H1, H2.
    destruct (thunar_thumbnailer_file_is_supported has_scheme is_a t w f) as [[t1 b] ev1].
    destruct (collect_supported has_scheme is_a t1 w lp (if b then f :: acc else acc))
      as [[t2 res] ev2].
    simpl in *. left. by rewrite H2.
  - rewrite (request_supported_fetch t w Hn), Hreply in Hask.
    destruct (thunar_thumbnailer_file_is_supported has_scheme is_a t w f) as [[t1 b] ev1].
    destruct Hask as [(_ & _ & Ht1 & Hev1)|[_ [= -> -> ->]]].
    + simpl in Ht1, Hev1. subst t1 ev1.
      pose proof (collect_supported_cached w lp (set_supported t (Some ss) (Some ts))
                    (if b then f :: acc else acc)) as [H1 H2]; [by eexists..|].
      destruct (collect_supported has_scheme is_a (set_supported t (Some ss) (Some ts)) w lp
                  (if b then f :: acc else acc)) as [[t2 res] ev2].
      simpl in *. right. by rewrite H2.
    + specialize (IH t acc). cbv zeta in IH.
      destruct (collect_supported has_scheme is_a t w lp acc) as [[t2 res] ev2].
      by simpl in *.
Qed.

Lemma queue_files_get_supported (t : ThunarThumbnailer) (w : World) (fl : list nat) :
  let res := thunar_thumbnailer_queue_files has_scheme is_a t w fl in
  let col := collect_supported has_scheme is_a t w (rev fl) [] in
  (thumbnailer_proxy t = false /\ res = (t, w, [], None))
  \/ (thumbnailer_proxy t = true
      /\ count_get_supported res.1.2 = count_get_supported col.2
      /\ supported_schemes res.1.1.1 = supported_schemes col.1.1
      /\ supported_types res.1.1.1 = supported_types col.1.1
      /\ get_supported_reply res.1.1.2 = get_supported_reply w
      /\ (col.1.2 = [] -> res.2 = None)).
Proof.
  cbv zeta. unfold thunar_thumbnailer_queue_files.
  destruct (thumbnailer_proxy t); simpl; [right|by left]. split; [done|].
  destruct (collect_supported has_scheme is_a t w (rev fl) []) as [[t1 sup] ev1].
  destruct (0 <? length sup)%nat eqn:Hlen; simpl.
  - pose proof (fill_arrays_events (rev sup) (files w)) as Hfill.
    destruct (fill_arrays (files w) (rev sup)) as [[[fs us] mh] ev2].
    simpl in *. split_and!; try done.
    + rewrite !count_get_supported_app, Hfill.
      rewrite (count_get_supported_none (map _ _)); [unfold count_get_supported; simpl; lia|].
      apply Forall_forall. intros e He.
      by apply list_elem_of_In, in_map_iff in He as (f & <- & _).
    + intros ->. simpl in Hlen. done.
  - by split_and!.
Qed.

Lemma step_get_supported (t t1 : ThunarThumbnailer) (w w1 : World) (i : Input)
    (ev : list Event) :
  step has_scheme is_a t w i = Some (t1, w1, ev) ->
  get_supported_reply w1 = get_supported_reply w
  /\ (is_Some (supported_schemes t) -> is_Some (supported_types t) ->
      count_get_supported ev = 0%nat
      /\ supported_schemes t1 = supported_schemes t
      /\ supported_types t1 = supported_types t)
  /\ (forall ss ts, get_supported_reply w = Some (ss, ts) ->
        (count_get_supported ev = 0%nat
         /\ supported_schemes t1 = supported_schemes t
         /\ supported_types t1 = supported_types t)
        \/ (count_get_supported ev = 1%nat
            /\ supported_schemes t1 = Some ss /\ supported_types t1 = Some ts)).
Proof.
  intros Hstep.
  assert (forall t2 evs,
            supported_schemes t2 = supported_schemes t ->
            supported_types t2 = supported_types t ->
            count_get_supported evs = 0%nat ->
            (is_Some (supported_schemes t) -> is_Some (supported_types t) ->
             count_get_supported evs = 0%nat
             /\ supported_schemes t2 = supported_schemes t
             /\ supported_types t2 = supported_types t)
            /\ (forall ss ts, get_supported_reply w = Some (ss, ts) ->
                  (count_get_supported evs = 0%nat
                   /\ supported_schemes t2 = supported_schemes t
                   /\ supported_types t2 = supported_types t)
                  \/ (count_get_supported evs = 1%nat
                      /\ supported_schemes t2 = Some ss /\ supported_types t2 = Some ts)))
    as Hquiet by (intros; split; intros; [|left]; by split_and!).
  destruct i as [fl|r|a h e|h|h us|h us c m|idle]; simpl in Hstep.
  - pose proof (queue_files_get_supported t w fl) as Hq. cbv zeta in Hq.
    destruct (thunar_thumbnailer_queue_files has_scheme is_a t w fl) as [[[t2 w2] ev2] res].
    injection Hstep as <- <- <-.
    destruct Hq as [[_ [= -> -> -> _]]|(_ & Hcount & Hss & Hts & Hrep & _)];
      [split; [done|]; by apply Hquiet|].
    simpl in *. split; [done|]. rewrite Hcount, Hss, Hts. split.
    + intros Hs Ht.
      by destruct (collect_supported_cached w (rev fl) t [] Hs Ht) as [-> ->].
    + intros ss ts Hreply.
      destruct (collect_supported_fetch w (rev fl) ss ts Hreply t [])
        as [[-> ->]|(-> & _ & ->)]; [by left|by right].
  - destruct (thunar_thumbnailer_dequeue t r) as [t2 ev2] eqn:Hd.
    injection Hstep as <- <- <-. split; [done|].
    unfold thunar_thumbnailer_dequeue in Hd.
    destruct (dequeue_loop_cases (thumbnailer_proxy t) r (jobs t))
      as [[_ Hl]|(pre & j & post & _ & _ & _ & Hl)]; rewrite Hl in Hd.
    + injection Hd as <- <-. by apply Hquiet.
    + destruct (handle j =? 0); injection Hd as <- <-; apply Hquiet; try done.
      by destruct (thumbnailer_proxy t).
  - unfold thunar_thumbnailer_queue_async_reply in Hstep.
    destruct (job_deref (jobs t) a) as [j|]; [|done]. simpl in Hstep.
    destruct (cancelled j); [|destruct (negb e)]; injection Hstep as <- <- <-;
      (split; [done|]); by apply Hquiet.
  - destruct (thunar_thumbnailer_thumbnailer_finished t h) as [t2 ev2] eqn:Hf.
    injection Hstep as <- <- <-. split; [done|].
    unfold thunar_thumbnailer_thumbnailer_finished in Hf.
    destruct (finished_loop_cases h (jobs t))
      as [[_ Hl]|(pre & j & post & _ & _ & _ & Hl)]; rewrite Hl in Hf;
      injection Hf as <- <-; by apply Hquiet.
  - injection Hstep as Hstep.
    unfold thunar_thumbnailer_thumbnailer_ready, thunar_thumbnailer_idle in Hstep.
    destruct us as [l|]; [destruct (job_with_handle h (jobs t))|];
      injection Hstep as <- <- <-; (split; [done|]); by apply Hquiet.
  - injection Hstep as Hstep.
    unfold thunar_thumbnailer_thumbnailer_error, thunar_thumbnailer_idle in Hstep.
    destruct us as [l|]; [destruct (job_with_handle h (jobs t))|];
      injection Hstep as <- <- <-; (split; [done|]); by apply Hquiet.
  - destruct (idle_deref (idles t) idle) as [i|].
    + pose proof (idle_func_writes t w i) as Hev.
      pose proof (idle_func_world t w i) as Hfields.
      injection Hstep as Hstep. rewrite Hstep in Hev, Hfields. simpl in Hev, Hfields.
      destruct Hfields as ((_ & Hrep & _) & Ht1). split; [done|].
      apply Hquiet;
        [exact (f_equal supported_schemes Ht1)|exact (f_equal supported_types Ht1)|].
      apply count_get_supported_none. eapply Forall_impl; [exact Hev|].
      by intros e [f ->].
    + injection Hstep as <- <- <-. split; [done|]. by apply Hquiet.
Qed.

(** X8.  The supported schemes and types are asked for once.  Once both
    arrays are cached, no run sends [GetSupported] again and the arrays
    stay as they are.  When the service answers the call, a run sends
    [GetSupported] at most once, whatever is submitted and however often,
    and after that one call the cached arrays are those of the answer. *)
Theorem get_supported_is_asked_once (ins : list Input) :
  forall (t t' : ThunarThumbnailer) (w w' : World) (ev : list Event),
    run has_scheme is_a t w ins = Some (t', w', ev) ->
    (is_Some (supported_schemes t) -> is_Some (supported_types t) ->
     count_get_supported ev = 0%nat
     /\ supported_schemes t' = supported_schemes t
     /\ supported_types t' = supported_types t)
    /\ (forall ss ts, get_supported_reply w = Some (ss, ts) ->
          (count_get_supported ev <= 1)%nat
          /\ (count_get_supported ev = 1%nat ->
              supported_schemes t' = Some ss /\ supported_types t' = Some ts)).
Proof.
  induction ins as [|i ins IH]; intros t t' w w' ev Hrun.
  - simpl in Hrun. injection Hrun as <- <- <-. split; [done|].
    intros ss ts _. unfold count_get_supported. simpl. split; [lia|done].
  - cbn [run] in Hrun.
    destruct (step has_scheme is_a t w i) as [[[t1 w1] ev1]|] eqn:Hstep; [|done].
    destruct (run has_scheme is_a t1 w1 ins) as [[[t2 w2] ev2]|] eqn:Hrest; [|done].
    injection Hrun as <- <- <-.
    destruct (step_get_supported _ _ _ _ _ _ Hstep) as (Hrep & Hcached & Hfetch).
    destruct (IH _ _ _ _ _ Hrest) as (IHcached & IHfetch).
    rewrite count_get_supported_app. split.
    + intros Hs Ht. destruct (Hcached Hs Ht) as (-> & Hs1 & Ht1).
      rewrite <- Hs1 in Hs. rewrite <- Ht1 in Ht. destruct (IHcached Hs Ht) as (-> & -> & ->).
      done.
    + intros ss ts Hreply. rewrite <- Hrep in Hreply.
      destruct (IHfetch ss ts Hreply) as (Hle & Hone). rewrite Hrep in Hreply.
      destruct (Hfetch ss ts Hreply) as [(-> & Hs1 & Ht1)|(-> & Hs1 & Ht1)]; [done|].
      destruct (IHcached) as (-> & -> & ->); [by rewrite Hs1|by rewrite Ht1|].
      split; [lia|done].
Qed.

Lemma collect_supported_fail (w : World) (lp : list nat) :
  get_supported_reply w = None ->
  forall (t : ThunarThumbnailer) (acc : list nat),
    thumbnailer_proxy t = true ->
    supported_schemes t = None \/ supported_types t = None ->
    collect_supported has_scheme is_a t w lp acc
    = (t, acc,
       map (fun _ => EvProxyGetSupported)
           (List.filter (fun f => bool_decide
                                    (is_Some (thunar_file_get_content_type (files w) f)))
                        lp)).
Proof.
  intros Hreply. induction lp as [|f lp IH]; intros t acc Hp Hn; [done|].
  cbn [collect_supported]. unfold thunar_thumbnailer_file_is_supported.
  rewrite Hp. simpl.
  destruct (thunar_file_get_content_type (files w) f) as [ct|] eqn:Hct; simpl.
  - rewrite (request_supported_fetch t w Hn), Hreply.
    assert (match supported_schemes t with
            | Some schemes =>
                match supported_types t with
                | Some types =>
                    (t, supported_loop has_scheme is_a (thunar_file_dup_uri (files w) f)
                                       ct schemes types, [EvProxyGetSupported])
                | None => (t, false, [EvProxyGetSupported])
                end
            | None => (t, false, [EvProxyGetSupported])
            end = (t, false, [EvProxyGetSupported])) as ->
      by (destruct (supported_schemes t), (supported_types t); try done; by destruct Hn).
    by rewrite (IH t acc Hp Hn).
  - by rewrite (IH t acc Hp Hn).
Qed.

(** X9.  When the [GetSupported] call fails, nothing is cached and nothing
    is supported: [thunar_thumbnailer_queue_files] on a thumbnailer with a
    proxy and without the cached arrays repeats the call for every file
    of the list that has a content type, then returns FALSE; it creates no
    job, hands out no request number and leaves the files as they are. *)
Theorem get_supported_failure_is_retried_per_file
    (t : ThunarThumbnailer) (w : World) (fl : list nat) :
  get_supported_reply w = None ->
  thumbnailer_proxy t = true ->
  supported_schemes t = None \/ supported_types t = None ->
  thunar_thumbnailer_queue_files has_scheme is_a t w fl
  = (t, w,
     map (fun _ => EvProxyGetSupported)
         (List.filter (fun f => bool_decide
                                  (is_Some (thunar_file_get_content_type (files w) f)))
                      (rev fl)),
     None)
  /\ count_get_supported (thunar_thumbnailer_queue_files has_scheme is_a t w fl).1.2
     = length (List.filter
                 (fun f => bool_decide (is_Some (thunar_file_get_content_type (files w) f)))
                 fl).
Proof.
  intros Hreply Hp Hn.
  assert (thunar_thumbnailer_queue_files has_scheme is_a t w fl
          = (t, w,
             map (fun _ => EvProxyGetSupported)
                 (List.filter
                    (fun f => bool_decide
                                (is_Some (thunar_file_get_content_type (files w) f)))
                    (rev fl)),
             None)) as Hq.
  { unfold thunar_thumbnailer_queue_files. rewrite Hp. simpl.
    by rewrite (collect_supported_fail w (rev fl) Hreply t [] Hp Hn). }
  split; [exact Hq|]. rewrite Hq. simpl.
  rewrite count_get_supported_all by (apply Forall_forall; intros e He;
    by apply list_elem_of_In, in_map_iff in He as (f & <- & _)).
  rewrite length_map, List.filter_rev. apply length_rev.
Qed.

(** ** Which files are supported, and what is sent for them *)



Lemma content_type_set_thumb_state (fs : gmap nat ThunarFile) (f g : nat)
    (st : ThunarFileThumbState) :
  thunar_file_get_content_type (thunar_file_set_thumb_state fs f st) g
  = thunar_file_get_content_type fs g.
Proof.
  unfold thunar_file_get_content_type. rewrite set_thumb_state_lookup.
  case_decide; [|done]. by destruct (fs !! g).
Qed.

Lemma fill_arrays_mime_hints (lp : list nat) :
  forall fs : gmap nat ThunarFile,
    (fill_arrays fs lp).1.2 = map (thunar_file_get_content_type fs) lp.
Proof.
  induction lp as [|f lp IH]; intros fs; [done|]. cbn [fill_arrays].
  specialize (IH (thunar_file_set_thumb_state fs f THUNAR_FILE_THUMB_STATE_LOADING)).
  destruct (fill_arrays (thunar_file_set_thumb_state fs f THUNAR_FILE_THUMB_STATE_LOADING) lp)
    as [[[fs2 us] mh] ev].
  simpl in *. rewrite IH, content_type_set_thumb_state. f_equal.
  apply map_ext. intros g. apply content_type_set_thumb_state.
Qed.

Lemma eligible_content_type (t : ThunarThumbnailer) (w : World) (f : nat) :
  eligible has_scheme is_a t w f = true ->
  is_Some (thunar_file_get_content_type (files w) f).
Proof.
  unfold eligible, thunar_thumbnailer_file_is_supported.
  destruct (negb (thumbnailer_proxy t)); [done|].
  destruct (thunar_file_get_content_type (files w) f); [by eexists|done].
Qed.

(** X11.  The two arrays of a [Queue] call are parallel and complete: a
    successful [thunar_thumbnailer_queue_files] sends exactly one [Queue]
    call, as its last action; the call carries one URI and one MIME hint
    per eligible file of the list, in the reverse of the order of the list,
    the hint at each position being the content type of the file whose URI
    stands at that position; no hint is NULL, so that neither NULL-terminated array
    is cut short, and the arrays are not empty. *)
Theorem queue_call_arrays_are_parallel
    (t : ThunarThumbnailer) (w : World) (fl : list nat) (r : Z) :
  (thunar_thumbnailer_queue_files has_scheme is_a t w fl).2 = Some r ->
  let sup := rev (List.filter (eligible has_scheme is_a t w) fl) in
  let us := map (thunar_file_dup_uri (files w)) sup in
  let mime_hints := map (thunar_file_get_content_type (files w)) sup in
  (exists ev,
     (thunar_thumbnailer_queue_files has_scheme is_a t w fl).1.2
     = ev ++ [EvProxyQueueAsync us mime_hints (next_addr w)]
     /\ Forall (fun e => match e with EvProxyQueueAsync _ _ _ => False | _ => True end) ev)
  /\ length us = length mime_hints
  /\ (0 < length us)%nat
  /\ Forall is_Some mime_hints.
Proof.
  intros Hres. cbv zeta.
  destruct (queue_files_cases has_scheme is_a t w fl)
    as [[_ Hq]|[(_ & _ & t1 & ev1 & Hq & _)|(_ & Hne & t1 & ev1 & _ & Hev1 & Hq)]];
    try (rewrite Hq in Hres; discriminate Hres).
  cbv zeta in Hq.
  pose proof (fill_arrays_events
                (rev (List.filter (eligible has_scheme is_a t w) fl)) (files w)) as Hev2.
  pose proof (fill_arrays_uris
                (rev (List.filter (eligible has_scheme is_a t w) fl)) (files w)) as Hus.
  pose proof (fill_arrays_mime_hints
                (rev (List.filter (eligible has_scheme is_a t w) fl)) (files w)) as Hmh.
  destruct (fill_arrays (files w) (rev (List.filter (eligible has_scheme is_a t w) fl)))
    as [[[fs us] mh] ev2].
  simpl in Hev2, Hus, Hmh. subst ev2 us mh. rewrite Hq. simpl. split_and!.
  - eexists (ev1 ++ _). rewrite <- app_assoc. split; [reflexivity|].
    apply Forall_app. split.
    + eapply Forall_impl; [exact Hev1|]. by intros e ->.
    + apply Forall_forall. intros e He.
      by apply list_elem_of_In, in_map_iff in He as (f & <- & _).
  - by rewrite !length_map.
  - rewrite length_map, length_rev.
    destruct (List.filter (eligible has_scheme is_a t w) fl); [done|simpl; lia].
  - apply Forall_forall. intros m Hm.
    apply list_elem_of_In, in_map_iff in Hm as (f & <- & Hf).
    apply list_elem_of_In, elem_of_rev, elem_of_filter_bool in Hf as [_ Hf].
    by apply eligible_content_type in Hf.
Qed.

(** X12.  [thunar_thumbnailer_queue_file] for one file: it returns FALSE
    exactly when the file is not eligible (no proxy, unknown content type,
    no matching scheme and type), and then creates no job; for an eligible
    file it sets the thumbnail state of the file to LOADING, sends one
    [Queue] call with the URI and the content type of this file alone, and
    returns the next request number. *)
Theorem queue_file_succeeds_iff_supported
    (t : ThunarThumbnailer) (w : World) (f : nat) :
  let res := thunar_thumbnailer_queue_file has_scheme is_a t w f in
  (eligible has_scheme is_a t w f = false ->
     res.2 = None /\ jobs res.1.1.1 = jobs t /\ res.1.1.2 = w)
  /\ (eligible has_scheme is_a t w f = true ->
        res.2 = Some (next_request (last_request t))
        /\ jobs res.1.1.1
           = mkJob (next_addr w) false (next_request (last_request t)) 0 true :: jobs t
        /\ thunar_file_get_thumb_state (files res.1.1.2) f
           = Some THUNAR_FILE_THUMB_STATE_LOADING
        /\ exists ev,
             res.1.2
             = ev ++ [EvSetThumbState f THUNAR_FILE_THUMB_STATE_LOADING;
                      EvProxyQueueAsync [thunar_file_dup_uri (files w) f]
                                        [thunar_file_get_content_type (files w) f]
                                        (next_addr w)]
             /\ Forall (fun e => e = EvProxyGetSupported) ev).
Proof.
  cbv zeta. unfold thunar_thumbnailer_queue_file.
  destruct (queue_files_cases has_scheme is_a t w [f])
    as [[Hp Hq]|[(_ & Hnone & t1 & ev1 & Hq & Hsame & _)
                |(_ & Hsome & t1 & ev1 & Hsame & Hev1 & Hq)]].
  - split.
    + intros _. by rewrite Hq.
    + intros He. apply eligible_needs_proxy in He. congruence.
  - simpl in Hnone. split.
    + intros _. rewrite Hq. simpl. by destruct Hsame as (_ & -> & _).
    + intros He. by rewrite He in Hnone.
  - simpl in Hsome, Hq. split.
    + intros He. by rewrite He in Hsome.
    + intros He. rewrite He in Hq. simpl in Hq. rewrite Hq. simpl.
      pose proof (eligible_has_content_type has_scheme is_a t w f He) as [x Hx].
      split_and!; try done.
      * unfold thunar_file_get_thumb_state. rewrite set_thumb_state_lookup, decide_True by done.
        by rewrite Hx.
      * exists ev1. split; [|done].
        by rewrite dup_uri_set_thumb_state, content_type_set_thumb_state.
Qed.

(** ** Invariants of the reachable states *)

(** X13.  The states that a thumbnailer reaches from its construction are
    well formed, as long as the request counter has not wrapped: the
    running jobs have pairwise distinct request numbers, each between 1
    and the last number handed out; jobs exist only with a proxy; a job
    whose [Queue] call is pending has no handle; the jobs have pairwise
    distinct addresses.  The heap part needs no bound on the counter. *)
Theorem reachable_states_are_well_formed
    (connection : bool) (w w' : World) (ins : list Input) (t' : ThunarThumbnailer)
    (ev : list Event) :
  run has_scheme is_a (thunar_thumbnailer_init connection) w ins = Some (t', w', ev) ->
  heap_ok t' w'
  /\ (Z.of_nat (count_submits ins) <= G_MAXUINT -> registry_ok t').
Proof.
  intros Hrun. split.
  - exact (run_heap_ok has_scheme is_a ins _ _ _ _ _ (heap_ok_init connection w) Hrun).
  - intros Hb.
    exact (run_registry_ok has_scheme is_a ins _ _ _ _ _
             (registry_ok_init connection) Hb Hrun).
Qed.

Lemma step_last_request (t t1 : ThunarThumbnailer) (w w1 : World) (i : Input)
    (ev : list Event) :
  is_submit i = false ->
  step has_scheme is_a t w i = Some (t1, w1, ev) ->
  last_request t1 = last_request t.
Proof.
  intros Hi Hstep.
  destruct (step_effects has_scheme is_a _ _ _ _ _ _ Hstep)
    as (_ & [(Hl & _)|(Hs & _)] & _); [done|congruence].
Qed.

Lemma map_seq_shift (a : Z) (n : nat) :
  map (fun k : nat => a + 1 + Z.of_nat k) (seq 1 n)
  = map (fun k : nat => a + Z.of_nat k) (seq 2 n).
Proof.
  rewrite <- (seq_shift n 1), map_map. apply map_ext. intros k. lia.
Qed.

(** X14.  Request numbers are consecutive until the counter wraps: in a
    run that starts with the counter at [last], the successful
    [thunar_thumbnailer_queue_files] calls return [last + 1], [last + 2],
    ... in this order, with no gap for calls that fail or for anything
    else that happens in between, and at the end of the run the counter
    is [last] plus the number of successful calls. *)
Theorem request_numbers_are_consecutive (ins : list Input) :
  forall (t : ThunarThumbnailer) (w : World),
    0 <= last_request t ->
    last_request t + Z.of_nat (count_submits ins) <= G_MAXUINT ->
    returned_requests has_scheme is_a t w ins
    = map (fun k : nat => last_request t + Z.of_nat k)
          (seq 1 (length (returned_requests has_scheme is_a t w ins)))
    /\ (length (returned_requests has_scheme is_a t w ins) <= count_submits ins)%nat
    /\ forall t' w' ev,
         run has_scheme is_a t w ins = Some (t', w', ev) ->
         last_request t'
         = last_request t + Z.of_nat (length (returned_requests has_scheme is_a t w ins)).
Proof.
  induction ins as [|i ins IH]; intros t w H0 Hb.
  - simpl. split_and!; [done|lia|]. intros t' w' ev [= <- <- <-]. lia.
  - rewrite count_submits_cons in Hb. cbn [returned_requests run].
    destruct (is_submit i) eqn:Hi.
    + destruct i as [fl| | | | | |]; try done. cbn [step].
      pose proof (queue_files_result has_scheme is_a t w fl) as Hres.
      destruct (thunar_thumbnailer_queue_files has_scheme is_a t w fl)
        as [[[t1 w1] ev1] res].
      cbn [fst snd] in Hres. rewrite count_submits_cons. cbn [is_submit].
      destruct Hres as [[-> Hl]|[-> Hl]].
      * destruct (IH t1 w1) as (IH1 & IH2 & IH3); [lia|lia|].
        rewrite Hl in IH1, IH3. cbn [app fst snd]. split_and!; [done|lia|].
        intros t' w' ev Hrun.
        destruct (run has_scheme is_a t1 w1 ins) as [[[t2 w2] ev2]|] eqn:Hrest; [|done].
        injection Hrun as <- <- <-. by apply (IH3 _ _ _ eq_refl).
      * rewrite next_request_small in Hl |- * by lia.
        destruct (IH t1 w1) as (IH1 & IH2 & IH3); [lia|lia|].
        rewrite Hl in IH1, IH3. cbn [app length seq map fst snd]. split_and!.
        -- f_equal; try lia. rewrite IH1 at 1. apply map_seq_shift.
        -- lia.
        -- intros t' w' ev Hrun.
           destruct (run has_scheme is_a t1 w1 ins) as [[[t2 w2] ev2]|] eqn:Hrest; [|done].
           injection Hrun as <- <- <-. rewrite (IH3 _ _ _ eq_refl). lia.
    + assert (match i with
              | CallQueueFiles fl =>
                  match (thunar_thumbnailer_queue_files has_scheme is_a t w fl).2 with
                  | Some r => [r]
                  | None => []
                  end
              | _ => []
              end = []) as -> by (by destruct i).
      rewrite count_submits_cons, Hi. cbn [app].
      destruct (step has_scheme is_a t w i) as [[[t1 w1] ev1]|] eqn:Hstep.
      * pose proof (step_last_request _ _ _ _ _ _ Hi Hstep) as Hl.
        destruct (IH t1 w1) as (IH1 & IH2 & IH3); [lia|lia|].
        rewrite Hl in IH1, IH3. split_and!; [done|lia|].
        intros t' w' ev Hrun.
        destruct (run has_scheme is_a t1 w1 ins) as [[[t2 w2] ev2]|] eqn:Hrest; [|done].
        injection Hrun as <- <- <-. by apply (IH3 _ _ _ eq_refl).
      * simpl. split_and!; [done|lia|done].
Qed.

Lemma cancelled_without_handle_unlink (pre post : list ThunarThumbnailerJob)
    (j : ThunarThumbnailerJob) :
  cancelled_without_handle (pre ++ j :: post) -> cancelled_without_handle (pre ++ post).
Proof.
  unfold cancelled_without_handle. rewrite !Forall_app, Forall_cons. tauto.
Qed.

Lemma cancelled_without_handle_replace (pre post : list ThunarThumbnailerJob)
    (j j' : ThunarThumbnailerJob) :
  (cancelled j' = true -> handle j' = 0) ->
  cancelled_without_handle (pre ++ j :: post) ->
  cancelled_without_handle (pre ++ j' :: post).
Proof.
  unfold cancelled_without_handle. rewrite !Forall_app, !Forall_cons. tauto.
Qed.

Lemma step_cancelled_without_handle (t t1 : ThunarThumbnailer) (w w1 : World) (i : Input)
    (ev : list Event) :
  cancelled_without_handle (jobs t) ->
  step has_scheme is_a t w i = Some (t1, w1, ev) ->
  cancelled_without_handle (jobs t1).
Proof.
  intros Hinv Hstep. destruct i as [fl|r|a h e|h|h us|h us c m|idle]; simpl in Hstep.
  - destruct (queue_files_cases has_scheme is_a t w fl)
      as [[_ Hq]|[(_ & _ & t2 & ev2 & Hq & Hsame & _)|(_ & _ & t2 & ev2 & _ & _ & Hq)]].
    + rewrite Hq in Hstep. by injection Hstep as <- <- <-.
    + rewrite Hq in Hstep. injection Hstep as <- <- <-.
      destruct Hsame as (_ & -> & _). done.
    + cbv zeta in Hq.
      destruct (fill_arrays (files w) (rev (List.filter (eligible has_scheme is_a t w) fl)))
        as [[[fs us] mh] ev3].
      rewrite Hq in Hstep. injection Hstep as <- <- <-. simpl.
      apply Forall_cons. by split.
  - unfold thunar_thumbnailer_dequeue in Hstep.
    destruct (dequeue_loop_cases (thumbnailer_proxy t) r (jobs t))
      as [[_ Hl]|(pre & j & post & Hj & _ & _ & Hl)]; rewrite Hl in Hstep.
    + by injection Hstep as <- <- <-.
    + rewrite Hj in Hinv. destruct (handle j =? 0) eqn:Hh; injection Hstep as <- <- <-; simpl.
      * apply (cancelled_without_handle_replace pre post j); [|done].
        intros _. simpl. by apply Z.eqb_eq.
      * by apply (cancelled_without_handle_unlink pre post j).
  - destruct (thunar_thumbnailer_queue_async_reply t h e a) as [[t2 ev2]|] eqn:Hrep; [|done].
    injection Hstep as <- <- <-.
    destruct (job_deref (jobs t) a) as [j|] eqn:Hd;
      [|unfold thunar_thumbnailer_queue_async_reply in Hrep; by rewrite Hd in Hrep].
    pose proof Hd as (pre & post & Hj & Ha & Hpre)%job_deref_split. subst a.
    destruct (cancelled j) eqn:Hc.
    + rewrite (reply_cancelled t (job_addr j) j h e Hd Hc) in Hrep.
      injection Hrep as <- <-. simpl.
      rewrite Hj, (g_slist_remove_app pre post j (job_addr j)) by done.
      rewrite Hj in Hinv. by apply (cancelled_without_handle_unlink pre post j).
    + unfold thunar_thumbnailer_queue_async_reply in Hrep. rewrite Hd in Hrep.
      simpl in Hrep. rewrite Hc in Hrep. rewrite Hj in Hinv.
      destruct e; simpl in Hrep; injection Hrep as <- <-; simpl; rewrite Hj.
      * rewrite (job_store_app pre post j (set_handle_call j false)) by done.
        apply (cancelled_without_handle_replace pre post j); [|done]. simpl. congruence.
      * rewrite (job_store_app pre post j (set_handle (set_handle_call j false) h)) by done.
        apply (cancelled_without_handle_replace pre post j); [|done]. simpl. congruence.
  - unfold thunar_thumbnailer_thumbnailer_finished in Hstep.
    destruct (finished_loop_cases h (jobs t))
      as [[_ Hl]|(pre & j & post & Hj & _ & _ & Hl)]; rewrite Hl in Hstep;
      injection Hstep as <- <- <-; [done|].
    simpl. rewrite Hj in Hinv. by apply (cancelled_without_handle_unlink pre post j).
  - injection Hstep as Hstep. by destruct (idle_jobs _ _ _ _ _ _ _ _ Hstep) as (_ & _ & -> & _).
  - injection Hstep as Hstep. by destruct (idle_jobs _ _ _ _ _ _ _ _ Hstep) as (_ & _ & -> & _).
  - destruct (idle_deref (idles t) idle) as [i|].
    + injection Hstep as Hstep.
      by destruct (idle_func_jobs _ _ _ _ _ _ Hstep) as (_ & _ & -> & _).
    + by injection Hstep as <- <- <-.
Qed.

(** X15.  A cancelled job never holds a handle.
    [thunar_thumbnailer_dequeue] unlinks a job that has a handle and marks
    only a job without one, and the reply handler unlinks a cancelled job
    instead of storing the handle.  So in every state reached from the
    construction of the thumbnailer, and more generally from any state
    where this holds, each cancelled job has handle 0; a signal [Finished],
    [Ready] or [Error] with a handle other than 0 therefore never matches
    a cancelled job. *)
Theorem cancelled_job_holds_no_handle (ins : list Input) :
  forall (t t' : ThunarThumbnailer) (w w' : World) (ev : list Event),
    cancelled_without_handle (jobs t) ->
    run has_scheme is_a t w ins = Some (t', w', ev) ->
    cancelled_without_handle (jobs t')
    /\ forall h j, h <> 0 -> j ∈ jobs t' -> handle j = h -> cancelled j = false.
Proof.
  assert (forall t', cancelled_without_handle (jobs t') ->
                     forall h j, h <> 0 -> j ∈ jobs t' -> handle j = h -> cancelled j = false)
    as Hcons.
  { intros t' Hinv h j Hh Hj Hhj. unfold cancelled_without_handle in Hinv.
    rewrite Forall_forall in Hinv. specialize (Hinv j Hj).
    destruct (cancelled j); [|done]. rewrite Hinv in Hhj by done. congruence. }
  induction ins as [|i ins IH]; intros t t' w w' ev Hinv Hrun.
  - simpl in Hrun. injection Hrun as <- <- <-. split; [done|by apply Hcons].
  - cbn [run] in Hrun.
    destruct (step has_scheme is_a t w i) as [[[t1 w1] ev1]|] eqn:Hstep; [|done].
    destruct (run has_scheme is_a t1 w1 ins) as [[[t2 w2] ev2]|] eqn:Hrest; [|done].
    injection Hrun as <- <- <-.
    apply (IH _ _ _ _ _ (step_cancelled_without_handle _ _ _ _ _ _ Hinv Hstep) Hrest).
Qed.

(** ** A job without a handle *)

Lemma job_deref_app_cases (pre l : list ThunarThumbnailerJob) (a : nat) :
  job_deref (pre ++ l) a
  = match job_deref pre a with Some x => Some x | None => job_deref l a end.
Proof.
  induction pre as [|x pre IH]; [done|]. simpl. by destruct (Nat.eqb (job_addr x) a).
Qed.

Lemma job_deref_replace (pre post : list ThunarThumbnailerJob)
    (jx jx' : ThunarThumbnailerJob) (a : nat) :
  job_addr jx' = job_addr jx -> job_addr jx <> a ->
  job_deref (pre ++ jx' :: post) a = job_deref (pre ++ jx :: post) a.
Proof.
  intros Heq Hne. rewrite !job_deref_app_cases. simpl. rewrite Heq.
  apply Nat.eqb_neq in Hne. by rewrite Hne.
Qed.

Lemma job_deref_unlink (pre post : list ThunarThumbnailerJob)
    (jx : ThunarThumbnailerJob) (a : nat) :
  job_addr jx <> a ->
  job_deref (pre ++ post) a = job_deref (pre ++ jx :: post) a.
Proof.
  intros Hne. rewrite !job_deref_app_cases. simpl.
  apply Nat.eqb_neq in Hne. by rewrite Hne.
Qed.

Lemma job_deref_at (pre post : list ThunarThumbnailerJob) (jx : ThunarThumbnailerJob)
    (a : nat) :
  job_addr jx = a ->
  Forall (fun x => job_addr x <> a) pre ->
  job_deref (pre ++ jx :: post) a = Some jx.
Proof. intros <- Hpre. by apply job_deref_app. Qed.

Lemma job_deref_same_addr (pre post : list ThunarThumbnailerJob)
    (jx j : ThunarThumbnailerJob) :
  NoDup (job_addr <$> (pre ++ jx :: post)) ->
  job_deref (pre ++ jx :: post) (job_addr jx) = Some j ->
  j = jx /\ Forall (fun x => job_addr x <> job_addr jx) pre.
Proof.
  intros Hnd Hd. apply job_deref_elem in Hd as [Hin Ha].
  split.
  - apply (unique_addr _ _ _ Hnd Hin); [|done].
    apply elem_of_app. right. apply list_elem_of_here.
  - rewrite fmap_app, fmap_cons in Hnd. apply NoDup_app in Hnd as (_ & Hdis & _).
    apply Forall_forall. intros x Hx Heq. apply (Hdis (job_addr x)).
    + apply list_elem_of_fmap. eauto.
    + rewrite Heq. apply list_elem_of_here.
Qed.

Lemma step_keeps_job_without_handle (t t1 : ThunarThumbnailer) (w w1 : World) (i : Input)
    (ev : list Event) (a : nat) (j : ThunarThumbnailerJob) :
  heap_ok t w ->
  job_deref (jobs t) a = Some j ->
  handle j = 0 ->
  unlinks_without_handle a i = false ->
  step has_scheme is_a t w i = Some (t1, w1, ev) ->
  exists j',
    job_deref (jobs t1) a = Some j'
    /\ handle j' = 0 /\ request j' = request j /\ handle_call j' = handle_call j
    /\ (cancelled j = true -> cancelled j' = true)
    /\ count_events_of_job a ev = 0%nat.
Proof.
  intros [Hnd Halloc] Hd Hh Hi Hstep.
  assert (forall evs, Forall (fun e => forall a, is_event_of_job a e = false) evs ->
                      jobs t1 = jobs t ->
                      exists j',
                        job_deref (jobs t1) a = Some j'
                        /\ handle j' = 0 /\ request j' = request j
                        /\ handle_call j' = handle_call j
                        /\ (cancelled j = true -> cancelled j' = true)
                        /\ count_events_of_job a evs = 0%nat) as Hsame.
  { intros evs Hevs ->. exists j. split_and!; try done.
    by apply count_events_of_job_none. }
  pose proof (job_deref_elem _ _ _ Hd) as [Hin Ha].
  destruct i as [fl|r|a' h e|h|h us|h us c m|idle]; simpl in Hstep, Hi.
  - destruct (queue_files_cases has_scheme is_a t w fl)
      as [[_ Hq]|[(_ & _ & t2 & ev2 & Hq & Hsame' & Hev2)|(_ & _ & t2 & ev2 & _ & Hev2 & Hq)]].
    + rewrite Hq in Hstep. injection Hstep as <- <- <-. by apply Hsame.
    + rewrite Hq in Hstep. injection Hstep as <- <- <-.
      destruct Hsame' as (_ & Hjobs & _). apply Hsame; [|done].
      eapply Forall_impl; [exact Hev2|]. by intros e' ->.
    + cbv zeta in Hq.
      pose proof (fill_arrays_events
                    (rev (List.filter (eligible has_scheme is_a t w) fl)) (files w)) as Hev3.
      destruct (fill_arrays (files w) (rev (List.filter (eligible has_scheme is_a t w) fl)))
        as [[[fs us] mh] ev3].
      rewrite Hq in Hstep. injection Hstep as <- <- <-. simpl in Hev3. subst ev3.
      exists j. simpl.
      assert (Nat.eqb (next_addr w) a = false) as ->.
      { apply Nat.eqb_neq. intros Heq. rewrite Forall_forall in Halloc.
        assert (a < next_addr w)%nat; [|lia].
        apply Halloc, list_elem_of_fmap. exists j. by rewrite Ha. }
      split_and!; try done. apply count_events_of_job_none.
      apply Forall_app. split; [eapply Forall_impl; [exact Hev2|]; by intros e' ->|].
      apply Forall_app. split; [|by repeat constructor].
      apply Forall_forall. intros e' He'.
      by apply list_elem_of_In, in_map_iff in He' as (f & <- & _).
  - unfold thunar_thumbnailer_dequeue in Hstep.
    destruct (dequeue_loop_cases (thumbnailer_proxy t) r (jobs t))
      as [[_ Hl]|(pre & jx & post & Hj & _ & _ & Hl)]; rewrite Hl in Hstep.
    + injection Hstep as <- <- <-. apply Hsame; [by constructor|done].
    + rewrite Hj in Hd, Hnd.
      destruct (decide (job_addr jx = a)) as [Heq|Hne].
      * rewrite <- Heq in Hd. destruct (job_deref_same_addr _ _ _ _ Hnd Hd) as [-> Hpre].
        rewrite Hh in Hstep. simpl in Hstep. injection Hstep as <- <- <-.
        exists (set_cancelled jx true). simpl.
        rewrite (job_deref_at pre post (set_cancelled jx true) a) by (by rewrite <- ?Heq).
        by split_and!.
      * destruct (handle jx =? 0); injection Hstep as <- <- <-; exists j; simpl.
        -- rewrite (job_deref_replace pre post jx) by done.
           by split_and!.
        -- rewrite (job_deref_unlink pre post jx) by done. split_and!; try done.
           destruct (thumbnailer_proxy t); [|done].
           unfold count_events_of_job, is_event_of_job. simpl.
           apply Nat.eqb_neq in Hne. by rewrite Hne.
  - apply Nat.eqb_neq in Hi.
    destruct (thunar_thumbnailer_queue_async_reply t h e a') as [[t2 ev2]|] eqn:Hrep; [|done].
    injection Hstep as <- <- <-.
    destruct (job_deref (jobs t) a') as [jx|] eqn:Hdx;
      [|unfold thunar_thumbnailer_queue_async_reply in Hrep; by rewrite Hdx in Hrep].
    pose proof Hdx as (pre & post & Hj & Hax & Hpre)%job_deref_split. subst a'.
    destruct (cancelled jx) eqn:Hc.
    + rewrite (reply_cancelled t (job_addr jx) jx h e Hdx Hc) in Hrep.
      injection Hrep as <- <-. exists j. simpl.
      rewrite Hj, (g_slist_remove_app pre post jx (job_addr jx)) by done.
      rewrite (job_deref_unlink pre post jx) by done. rewrite <- Hj.
      split_and!; try done.
      unfold count_events_of_job, is_event_of_job. simpl.
      apply Nat.eqb_neq in Hi. by rewrite Hi.
    + unfold thunar_thumbnailer_queue_async_reply in Hrep. rewrite Hdx in Hrep.
      simpl in Hrep. rewrite Hc in Hrep.
      destruct e; simpl in Hrep; injection Hrep as <- <-; exists j; simpl; rewrite Hj.
      * rewrite (job_store_app pre post jx (set_handle_call jx false)) by done.
        rewrite (job_deref_replace pre post jx) by done. rewrite <- Hj. by split_and!.
      * rewrite (job_store_app pre post jx (set_handle (set_handle_call jx false) h))
          by done.
        rewrite (job_deref_replace pre post jx) by done. rewrite <- Hj. by split_and!.
  - apply Z.eqb_neq in Hi. unfold thunar_thumbnailer_thumbnailer_finished in Hstep.
    destruct (finished_loop_cases h (jobs t))
      as [[_ Hl]|(pre & jx & post & Hj & Hhx & _ & Hl)]; rewrite Hl in Hstep;
      injection Hstep as <- <- <-; [apply Hsame; [by constructor|done]|].
    assert (job_addr jx <> a) as Hne.
    { intros Heq. rewrite Hj in Hd, Hnd. rewrite <- Heq in Hd.
      destruct (job_deref_same_addr _ _ _ _ Hnd Hd) as [-> _]. congruence. }
    exists j. simpl. rewrite (job_deref_unlink pre post jx) by done. rewrite <- Hj.
    split_and!; try done.
    unfold count_events_of_job, is_event_of_job. simpl.
    apply Nat.eqb_neq in Hne. by rewrite Hne.
  - injection Hstep as Hstep.
    destruct (idle_jobs _ _ _ _ _ _ _ _ Hstep) as (_ & _ & Hjobs & _ & _ & Hev).
    by apply Hsame.
  - injection Hstep as Hstep.
    destruct (idle_jobs _ _ _ _ _ _ _ _ Hstep) as (_ & _ & Hjobs & _ & _ & Hev).
    by apply Hsame.
  - destruct (idle_deref (idles t) idle) as [i|].
    + injection Hstep as Hstep.
      destruct (idle_func_jobs _ _ _ _ _ _ Hstep) as (_ & _ & Hjobs & _ & Hev).
      apply Hsame; [|done]. eapply Forall_impl; [exact Hev|].
      intros e' He' b. by destruct e'.
    + injection Hstep as <- <- <-. apply Hsame; [by constructor|done].
Qed.

(** X16.  A job without a handle leaves the registry in two ways only:
    through the reply of its own [Queue] call and through a signal
    [Finished] with handle 0.  In a run without these two inputs, whatever
    else is called or delivered, the job is still registered at the end,
    still without a handle, with its request number and its pending call
    as they were; cancelling it marks it and nothing more, and neither
    [request-finished] nor [Dequeue] is issued for it.  This holds in
    particular for a job whose [Queue] call has failed: no reply is
    outstanding for it, so that it stays until a [Finished] with handle 0
    or the end of the thumbnailer. *)
Theorem job_without_handle_stays (ins : list Input) :
  forall (t t' : ThunarThumbnailer) (w w' : World) (ev : list Event)
         (a : nat) (j : ThunarThumbnailerJob),
    heap_ok t w ->
    job_deref (jobs t) a = Some j ->
    handle j = 0 ->
    Forall (fun i => unlinks_without_handle a i = false) ins ->
    run has_scheme is_a t w ins = Some (t', w', ev) ->
    exists j',
      job_deref (jobs t') a = Some j'
      /\ handle j' = 0 /\ request j' = request j /\ handle_call j' = handle_call j
      /\ (cancelled j = true -> cancelled j' = true)
      /\ count_events_of_job a ev = 0%nat.
Proof.
  induction ins as [|i ins IH]; intros t t' w w' ev a j Hheap Hd Hh Hins Hrun.
  - simpl in Hrun. injection Hrun as <- <- <-. exists j. by split_and!.
  - cbn [run] in Hrun. apply Forall_cons in Hins as [Hi Hins].
    destruct (step has_scheme is_a t w i) as [[[t1 w1] ev1]|] eqn:Hstep; [|done].
    destruct (run has_scheme is_a t1 w1 ins) as [[[t2 w2] ev2]|] eqn:Hrest; [|done].
    injection Hrun as <- <- <-.
    destruct (step_keeps_job_without_handle _ _ _ _ _ _ _ _ Hheap Hd Hh Hi Hstep)
      as (j1 & Hd1 & Hh1 & Hr1 & Hc1 & Hcan1 & Hev1).
    destruct (step_heap has_scheme is_a _ _ _ _ _ _ Hheap Hstep) as (Hheap1 & _).
    destruct (IH _ _ _ _ _ _ _ Hheap1 Hd1 Hh1 Hins Hrest)
      as (j2 & Hd2 & Hh2 & Hr2 & Hc2 & Hcan2 & Hev2).
    exists j2. rewrite count_events_of_job_app, Hev1, Hev2.
    split_and!; try done; try congruence. tauto.
Qed.

(** ** The end of the thumbnailer *)

Lemma finalize_idles_map (lp : list ThunarThumbnailerIdle) :
  finalize_idles lp = map (fun i => FinSourceRemove (id i)) lp.
Proof. induction lp as [|i lp IH]; [done|]. simpl. by rewrite IH. Qed.

Lemma finalize_idles_count (a : nat) (lp : list ThunarThumbnailerIdle) :
  length (List.filter (is_finalize_event_of_job a)
            (map (fun i => FinSourceRemove (id i)) lp)) = 0%nat.
Proof. induction lp as [|i lp IH]; [done|]. simpl. exact IH. Qed.

Lemma finalize_jobs_events (e : FinalizeEvent) (lp : list ThunarThumbnailerJob) :
  e ∈ finalize_jobs true lp
  <-> exists j, j ∈ lp
                /\ ((e = FinCancelCall (job_addr j) /\ handle_call j = true)
                    \/ (e = FinProxyDequeue (job_addr j) (handle j) /\ handle j <> 0)).
Proof.
  induction lp as [|x lp IH].
  - simpl. split; [by intros ?%elem_of_nil|]. by intros (j & ?%elem_of_nil & _).
  - cbn [finalize_jobs]. rewrite !elem_of_app, IH. split.
    + intros [[He|He]|(j & Hj & He)].
      * destruct (handle_call x) eqn:Hc; [|by apply elem_of_nil in He].
        apply list_elem_of_singleton in He as ->. exists x.
        split; [apply list_elem_of_here|by left].
      * destruct (handle x =? 0) eqn:Hh; [by apply elem_of_nil in He|].
        apply list_elem_of_singleton in He as ->. exists x.
        split; [apply list_elem_of_here|right]. split; [done|]. by apply Z.eqb_neq.
      * exists j. split; [by apply list_elem_of_further|done].
    + intros (j & Hj & He). apply elem_of_cons in Hj as [->|Hj]; [|right; by exists j].
      left. destruct He as [[-> Hc]|[-> Hh]].
      * left. rewrite Hc. apply list_elem_of_here.
      * right. apply Z.eqb_neq in Hh. rewrite Hh. apply list_elem_of_here.
Qed.

Lemma finalize_jobs_no_proxy (lp : list ThunarThumbnailerJob) : finalize_jobs false lp = [].
Proof. induction lp as [|x lp IH]; [done|]. simpl. exact IH. Qed.

Lemma finalize_jobs_count (a : nat) (proxy : bool) (lp : list ThunarThumbnailerJob) :
  NoDup (job_addr <$> lp) ->
  Forall (fun j => handle_call j = true -> handle j = 0) lp ->
  (length (List.filter (is_finalize_event_of_job a) (finalize_jobs proxy lp)) <= 1)%nat
  /\ (a ∉ job_addr <$> lp ->
      length (List.filter (is_finalize_event_of_job a) (finalize_jobs proxy lp)) = 0%nat).
Proof.
  induction lp as [|x lp IH]; intros Hnd Hp; [simpl; split; [lia|done]|].
  rewrite fmap_cons in Hnd. apply NoDup_cons in Hnd as [Hx Hnd].
  apply Forall_cons in Hp as [Hpx Hp]. destruct (IH Hnd Hp) as [IH1 IH2].
  cbn [finalize_jobs]. rewrite List.filter_app, length_app.
  destruct (decide (job_addr x = a)) as [<-|Hne].
  - rewrite (IH2 Hx). split.
    + destruct proxy; [|simpl; lia].
      destruct (handle_call x); [rewrite Hpx by done|]; simpl;
        destruct (handle x =? 0); simpl; rewrite ?Nat.eqb_refl; simpl; lia.
    + intros Hno. exfalso. apply Hno. rewrite fmap_cons. apply list_elem_of_here.
  - assert (length (List.filter (is_finalize_event_of_job a)
                      (if proxy
                       then (if handle_call x then [FinCancelCall (job_addr x)] else [])
                            ++ (if negb (handle x =? 0)
                                then [FinProxyDequeue (job_addr x) (handle x)] else [])
                       else [])) = 0%nat) as ->.
    { apply Nat.eqb_neq in Hne.
      destruct proxy, (handle_call x), (handle x =? 0); simpl; by rewrite ?Hne. }
    split; [lia|]. intros Hno. apply IH2. intros Hin. apply Hno.
    rewrite fmap_cons. by apply list_elem_of_further.
Qed.

(** X17.  What [thunar_thumbnailer_finalize] releases.  It removes the
    GLib source of every idle function that is still queued.  For the
    jobs, when there is a proxy, it cancels the [Queue] call of exactly the
    jobs whose call is pending and sends [Dequeue] for exactly the jobs
    that hold a handle, with that handle; a job that has neither (its
    [Queue] call failed) is freed without any message to the service.  In
    a well-formed registry no job gets more than one of the two.  Without
    a proxy the service is not contacted and only the sources are
    removed. *)
Theorem finalize_releases_jobs_and_idles (t : ThunarThumbnailer) :
  let ev := thunar_thumbnailer_finalize t in
  (forall s, FinSourceRemove s ∈ ev <-> exists i, i ∈ idles t /\ id i = s)
  /\ (forall a, FinCancelCall a ∈ ev
        <-> thumbnailer_proxy t = true
            /\ exists j, j ∈ jobs t /\ job_addr j = a /\ handle_call j = true)
  /\ (forall a h, FinProxyDequeue a h ∈ ev
        <-> thumbnailer_proxy t = true /\ h <> 0
            /\ exists j, j ∈ jobs t /\ job_addr j = a /\ handle j = h)
  /\ (NoDup (job_addr <$> jobs t) ->
      Forall (fun j => handle_call j = true -> handle j = 0) (jobs t) ->
      forall a, (length (List.filter (is_finalize_event_of_job a) ev) <= 1)%nat)
  /\ (thumbnailer_proxy t = false ->
      ev = map (fun i => FinSourceRemove (id i)) (idles t)).
Proof.
  cbv zeta. unfold thunar_thumbnailer_finalize. rewrite finalize_idles_map.
  assert (forall s, FinSourceRemove s ∈ map (fun i => FinSourceRemove (id i)) (idles t)
                    <-> exists i, i ∈ idles t /\ id i = s) as Hsrc.
  { intros s. rewrite list_elem_of_In, in_map_iff. split.
    - intros (i & [= <-] & Hi). exists i. by rewrite list_elem_of_In.
    - intros (i & Hi & <-). exists i. by rewrite <- list_elem_of_In. }
  assert (forall e, (forall s, e <> FinSourceRemove s) ->
                    e ∉ map (fun i => FinSourceRemove (id i)) (idles t)) as Hnosrc.
  { intros e He Hin. apply list_elem_of_In, in_map_iff in Hin as (i & <- & _).
    by apply (He (id i)). }
  destruct (thumbnailer_proxy t) eqn:Hp.
  - split_and!.
    + intros s. rewrite !elem_of_app, finalize_jobs_events, <- Hsrc. split.
      * intros [Hin|[Hin|[(j & _ & [[? _]|[? _]])|Hin]]]; try done;
          by apply list_elem_of_singleton in Hin.
      * intros Hin. right. by left.
    + intros a. rewrite !elem_of_app, finalize_jobs_events. split.
      * intros [Hin|[Hin|[(j & Hj & [[[= ->] Hc]|[? _]])|Hin]]]; try done.
        -- by apply list_elem_of_singleton in Hin.
        -- by apply Hnosrc in Hin.
        -- split; [done|]. by exists j.
        -- by apply list_elem_of_singleton in Hin.
      * intros (_ & j & Hj & <- & Hc). right. right. left. exists j. split; [done|by left].
    + intros a h. rewrite !elem_of_app, finalize_jobs_events. split.
      * intros [Hin|[Hin|[(j & Hj & [[? _]|[[= -> ->] Hh]])|Hin]]]; try done.
        -- by apply list_elem_of_singleton in Hin.
        -- by apply Hnosrc in Hin.
        -- split; [done|]. split; [done|]. by exists j.
        -- by apply list_elem_of_singleton in Hin.
      * intros (_ & Hh & j & Hj & <- & <-). right. right. left. exists j.
        split; [done|by right].
    + intros Hnd Hpend a.
      rewrite !List.filter_app, !length_app.
      destruct (finalize_jobs_count a true (jobs t) Hnd Hpend) as [Hle _].
      rewrite finalize_idles_count. simpl. lia.
    + done.
  - rewrite finalize_jobs_no_proxy, !app_nil_r. simpl. split_and!.
    + exact Hsrc.
    + intros a. split; [|by intros [? _]]. intros Hin. by apply Hnosrc in Hin.
    + intros a h. split; [|by intros [? _]]. intros Hin. by apply Hnosrc in Hin.
    + intros _ _ a. rewrite finalize_idles_count. lia.
    + done.
Qed.


(** ** No job is dropped silently *)

Lemma count_job_events_app (ev1 ev2 : list Event) :
  count_job_events (ev1 ++ ev2) = (count_job_events ev1 + count_job_events ev2)%nat.
Proof. unfold count_job_events. by rewrite List.filter_app, length_app. Qed.

Lemma count_job_events_none (ev : list Event) :
  Forall (fun e => is_job_event e = false) ev -> count_job_events ev = 0%nat.
Proof.
  unfold count_job_events. induction 1 as [|e ev He _ IH]; [done|]. simpl. by rewrite He.
Qed.

Lemma step_accounting (t t1 : ThunarThumbnailer) (w w1 : World) (i : Input)
    (ev : list Event) :
  (jobs t <> [] -> thumbnailer_proxy t = true) ->
  step has_scheme is_a t w i = Some (t1, w1, ev) ->
  (jobs t1 <> [] -> thumbnailer_proxy t1 = true)
  /\ (length (jobs t1) + count_job_events ev
      = length (jobs t)
        + length (match i with
                  | CallQueueFiles fl =>
                      match (thunar_thumbnailer_queue_files has_scheme is_a t w fl).2 with
                      | Some r => [r]
                      | None => []
                      end
                  | _ => []
                  end))%nat.
Proof.
  intros Hinv Hstep.
  destruct i as [fl|r|a h e|h|h us|h us c m|idle]; simpl in Hstep.
  - destruct (queue_files_cases has_scheme is_a t w fl)
      as [[_ Hq]|[(_ & _ & t2 & ev2 & Hq & Hsame & Hev2)|(Hpt & _ & t2 & ev2 & Hsame & Hev2 & Hq)]].
    + rewrite Hq in Hstep |- *. injection Hstep as <- <- <-. split; [done|]. unfold count_job_events. simpl. lia.
    + rewrite Hq in Hstep |- *. injection Hstep as <- <- <-.
      destruct Hsame as (Hp & Hjobs & _). rewrite Hp, Hjobs. split; [done|].
      rewrite count_job_events_none by (eapply Forall_impl; [exact Hev2|]; by intros e' ->).
      unfold count_job_events. simpl. lia.
    + cbv zeta in Hq.
      pose proof (fill_arrays_events
                    (rev (List.filter (eligible has_scheme is_a t w) fl)) (files w)) as Hev3.
      destruct (fill_arrays (files w) (rev (List.filter (eligible has_scheme is_a t w) fl)))
        as [[[fs us] mh] ev3].
      rewrite Hq in Hstep |- *. injection Hstep as <- <- <-. simpl in Hev3. subst ev3.
      destruct Hsame as (Hp & _). simpl. split; [intros _; congruence|].
      rewrite !count_job_events_app.
      rewrite count_job_events_none by (eapply Forall_impl; [exact Hev2|]; by intros e' ->).
      rewrite count_job_events_none
        by (apply Forall_forall; intros e' He';
            by apply list_elem_of_In, in_map_iff in He' as (f & <- & _)).
      unfold count_job_events. simpl. lia.
  - unfold thunar_thumbnailer_dequeue in Hstep.
    destruct (dequeue_loop_cases (thumbnailer_proxy t) r (jobs t))
      as [[_ Hl]|(pre & j & post & Hj & _ & _ & Hl)]; rewrite Hl in Hstep.
    + injection Hstep as <- <- <-. split; [done|]. unfold count_job_events. simpl. lia.
    + assert (thumbnailer_proxy t = true) as Hp
        by (apply Hinv; rewrite Hj; by destruct pre).
      rewrite Hp in Hstep.
      destruct (handle j =? 0); injection Hstep as <- <- <-; simpl;
        (split; [done|]); rewrite Hj, !length_app; unfold count_job_events; simpl; lia.
  - destruct (thunar_thumbnailer_queue_async_reply t h e a) as [[t2 ev2]|] eqn:Hrep; [|done].
    injection Hstep as <- <- <-.
    destruct (job_deref (jobs t) a) as [j|] eqn:Hd;
      [|unfold thunar_thumbnailer_queue_async_reply in Hrep; by rewrite Hd in Hrep].
    pose proof Hd as (pre & post & Hj & Ha & Hpre)%job_deref_split. subst a.
    assert (thumbnailer_proxy t = true) as Hp
      by (apply Hinv; rewrite Hj; by destruct pre).
    destruct (cancelled j) eqn:Hc.
    + rewrite (reply_cancelled t (job_addr j) j h e Hd Hc) in Hrep.
      injection Hrep as <- <-. simpl. split; [done|].
      rewrite Hj, (g_slist_remove_app pre post j (job_addr j)) by done.
      rewrite !length_app. unfold count_job_events. simpl. lia.
    + unfold thunar_thumbnailer_queue_async_reply in Hrep. rewrite Hd in Hrep.
      simpl in Hrep. rewrite Hc in Hrep.
      destruct e; simpl in Hrep; injection Hrep as <- <-; simpl; (split; [done|]);
        rewrite Hj.
      * rewrite (job_store_app pre post j (set_handle_call j false)) by done.
        rewrite !length_app. unfold count_job_events. simpl. lia.
      * rewrite (job_store_app pre post j (set_handle (set_handle_call j false) h)) by done.
        rewrite !length_app. unfold count_job_events. simpl. lia.
  - unfold thunar_thumbnailer_thumbnailer_finished in Hstep.
    destruct (finished_loop_cases h (jobs t))
      as [[_ Hl]|(pre & j & post & Hj & _ & _ & Hl)]; rewrite Hl in Hstep;
      injection Hstep as <- <- <-; simpl.
    + split; [done|]. unfold count_job_events. simpl. lia.
    + split; [intros _; apply Hinv; rewrite Hj; by destruct pre|].
      rewrite Hj, !length_app. unfold count_job_events. simpl. lia.
  - injection Hstep as Hstep.
    destruct (idle_jobs _ _ _ _ _ _ _ _ Hstep) as (Hp & _ & Hjobs & _ & _ & Hev).
    rewrite Hp, Hjobs. split; [done|].
    unfold thunar_thumbnailer_thumbnailer_ready, thunar_thumbnailer_idle in Hstep.
    destruct us as [l|]; [destruct (job_with_handle h (jobs t))|];
      injection Hstep as _ _ <-; unfold count_job_events; simpl; lia.
  - injection Hstep as Hstep.
    destruct (idle_jobs _ _ _ _ _ _ _ _ Hstep) as (Hp & _ & Hjobs & _ & _ & Hev).
    rewrite Hp, Hjobs. split; [done|].
    unfold thunar_thumbnailer_thumbnailer_error, thunar_thumbnailer_idle in Hstep.
    destruct us as [l|]; [destruct (job_with_handle h (jobs t))|];
      injection Hstep as _ _ <-; unfold count_job_events; simpl; lia.
  - destruct (idle_deref (idles t) idle) as [i|].
    + injection Hstep as Hstep.
      destruct (idle_func_jobs _ _ _ _ _ _ Hstep) as (Hp & _ & Hjobs & _ & Hev).
      rewrite Hp, Hjobs. split; [done|]. rewrite count_job_events_none; [unfold count_job_events; simpl; lia|].
      eapply Forall_impl; [exact Hev|]. intros e' He'. by destruct e'.
    + injection Hstep as <- <- <-. split; [done|]. unfold count_job_events. simpl. lia.
Qed.

(** X18.  No job is dropped silently.  Every job that leaves the registry
    is reported exactly once, to the caller by [request-finished] or to
    the service by [Dequeue], and nothing else is reported: over any run
    from a state whose jobs have a proxy (as after construction), the
    number of jobs at the end plus the number of [request-finished] and
    [Dequeue] events of the run equals the number of jobs at the start
    plus the number of successful [thunar_thumbnailer_queue_files]
    calls. *)
Theorem every_unlinked_job_is_reported (ins : list Input) :
  forall (t t' : ThunarThumbnailer) (w w' : World) (ev : list Event),
    (jobs t <> [] -> thumbnailer_proxy t = true) ->
    run has_scheme is_a t w ins = Some (t', w', ev) ->
    (length (jobs t') + count_job_events ev
     = length (jobs t) + length (returned_requests has_scheme is_a t w ins))%nat.
Proof.
  induction ins as [|i ins IH]; intros t t' w w' ev Hinv Hrun.
  - simpl in Hrun. injection Hrun as <- <- <-. unfold count_job_events. simpl. lia.
  - cbn [run returned_requests] in Hrun |- *.
    destruct (step has_scheme is_a t w i) as [[[t1 w1] ev1]|] eqn:Hstep; [|done].
    destruct (run has_scheme is_a t1 w1 ins) as [[[t2 w2] ev2]|] eqn:Hrest; [|done].
    injection Hrun as <- <- <-.
    destruct (step_accounting _ _ _ _ _ _ Hinv Hstep) as (Hinv1 & Hacc).
    pose proof (IH _ _ _ _ _ Hinv1 Hrest) as IH'.
    rewrite count_job_events_app, length_app. lia.
Qed.

End Lifecycle.

Section Provenance.

Variable has_scheme : string -> string -> bool.
Variable is_a : string -> string -> bool.

(** ** Signals for a handle that no job holds *)

Lemma Forall_unlink {A} (P : A -> Prop) (pre post : list A) (x : A) :
  Forall P (pre ++ x :: post) -> Forall P (pre ++ post).
Proof. rewrite !Forall_app, Forall_cons. tauto. Qed.

Lemma Forall_replace {A} (P : A -> Prop) (pre post : list A) (x y : A) :
  P y -> Forall P (pre ++ x :: post) -> Forall P (pre ++ y :: post).
Proof. rewrite !Forall_app, !Forall_cons. tauto. Qed.

Lemma step_no_job_with_handle (t t1 : ThunarThumbnailer) (w w1 : World) (i : Input)
    (ev : list Event) (h : Z) :
  h <> 0 ->
  Forall (fun j => handle j <> h) (jobs t) ->
  is_reply_with h i = false ->
  step has_scheme is_a t w i = Some (t1, w1, ev) ->
  Forall (fun j => handle j <> h) (jobs t1).
Proof.
  intros Hh Hinv Hi Hstep.
  destruct i as [fl|r|a h' e|h'|h' us|h' us c m|idle]; simpl in Hstep, Hi.
  - destruct (queue_files_cases has_scheme is_a t w fl)
      as [[_ Hq]|[(_ & _ & t2 & ev2 & Hq & Hsame & _)|(_ & _ & t2 & ev2 & _ & _ & Hq)]].
    + rewrite Hq in Hstep. by injection Hstep as <- <- <-.
    + rewrite Hq in Hstep. injection Hstep as <- <- <-.
      destruct Hsame as (_ & -> & _). done.
    + cbv zeta in Hq.
      destruct (fill_arrays (files w) (rev (List.filter (eligible has_scheme is_a t w) fl)))
        as [[[fs us] mh] ev3].
      rewrite Hq in Hstep. injection Hstep as <- <- <-. simpl.
      apply Forall_cons. split; [simpl; congruence|done].
  - unfold thunar_thumbnailer_dequeue in Hstep.
    destruct (dequeue_loop_cases (thumbnailer_proxy t) r (jobs t))
      as [[_ Hl]|(pre & j & post & Hj & _ & _ & Hl)]; rewrite Hl in Hstep.
    + by injection Hstep as <- <- <-.
    + rewrite Hj in Hinv. pose proof Hinv as Hall.
      apply Forall_app in Hall as [_ [Hjh _]%Forall_cons].
      destruct (handle j =? 0) eqn:H0; injection Hstep as <- <- <-; simpl.
      * by apply (Forall_replace _ pre post j).
      * by apply (Forall_unlink _ pre post j).
  - destruct (thunar_thumbnailer_queue_async_reply t h' e a) as [[t2 ev2]|] eqn:Hrep; [|done].
    injection Hstep as <- <- <-.
    destruct (job_deref (jobs t) a) as [j|] eqn:Hd;
      [|unfold thunar_thumbnailer_queue_async_reply in Hrep; by rewrite Hd in Hrep].
    pose proof Hd as (pre & post & Hj & Ha & Hpre)%job_deref_split. subst a.
    pose proof Hinv as Hall. rewrite Hj in Hall.
    apply Forall_app in Hall as [_ [Hjh _]%Forall_cons].
    destruct (cancelled j) eqn:Hc.
    + rewrite (reply_cancelled t (job_addr j) j h' e Hd Hc) in Hrep.
      injection Hrep as <- <-. simpl.
      rewrite Hj, (g_slist_remove_app pre post j (job_addr j)) by done.
      rewrite Hj in Hinv. by apply (Forall_unlink _ pre post j).
    + unfold thunar_thumbnailer_queue_async_reply in Hrep. rewrite Hd in Hrep.
      simpl in Hrep. rewrite Hc in Hrep. rewrite Hj in Hinv.
      destruct e; simpl in Hrep, Hi; injection Hrep as <- <-; simpl; rewrite Hj.
      * rewrite (job_store_app pre post j (set_handle_call j false)) by done.
        by apply (Forall_replace _ pre post j).
      * rewrite (job_store_app pre post j (set_handle (set_handle_call j false) h'))
          by done.
        apply (Forall_replace _ pre post j); [|done]. simpl. by apply Z.eqb_neq.
  - unfold thunar_thumbnailer_thumbnailer_finished in Hstep.
    destruct (finished_loop_cases h' (jobs t))
      as [[_ Hl]|(pre & j & post & Hj & _ & _ & Hl)]; rewrite Hl in Hstep;
      injection Hstep as <- <- <-; [done|].
    simpl. rewrite Hj in Hinv. by apply (Forall_unlink _ pre post j).
  - injection Hstep as Hstep. by destruct (idle_jobs _ _ _ _ _ _ _ _ Hstep) as (_ & _ & -> & _).
  - injection Hstep as Hstep. by destruct (idle_jobs _ _ _ _ _ _ _ _ Hstep) as (_ & _ & -> & _).
  - destruct (idle_deref (idles t) idle) as [i|].
    + injection Hstep as Hstep.
      by destruct (idle_func_jobs _ _ _ _ _ _ Hstep) as (_ & _ & -> & _).
    + by injection Hstep as <- <- <-.
Qed.

Lemma Forall_existsb_false {A} (p : A -> bool) (l : list A) :
  Forall (fun y => p y = false) l -> existsb p l = false.
Proof. induction 1 as [|x l Hx _ IH]; [done|]. simpl. by rewrite Hx, IH. Qed.

Lemma step_signal_for_unknown_handle (t : ThunarThumbnailer) (w : World) (i : Input)
    (h : Z) :
  Forall (fun j => handle j <> h) (jobs t) ->
  is_signal_for h i = true ->
  step has_scheme is_a t w i = Some (t, w, []).
Proof.
  intros Hinv Hi.
  assert (Forall (fun x => (handle x =? h) = false) (jobs t)) as Hall
    by (eapply Forall_impl; [exact Hinv|]; intros j Hj; by apply Z.eqb_neq).
  assert (job_with_handle h (jobs t) = false) as Hnone
    by (by apply Forall_existsb_false).
  destruct i as [fl|r|a h' e|h'|h' us|h' us c m|idle]; try done; simpl in Hi;
    apply Z.eqb_eq in Hi as ->; simpl.
  - unfold thunar_thumbnailer_thumbnailer_finished.
    by rewrite (finished_loop_none h (jobs t) Hall), set_jobs_id.
  - unfold thunar_thumbnailer_thumbnailer_ready, thunar_thumbnailer_idle.
    rewrite Hnone. by destruct us.
  - unfold thunar_thumbnailer_thumbnailer_error, thunar_thumbnailer_idle.
    rewrite Hnone. by destruct us.
Qed.

(** X19.  Signals for a handle that no job holds are ignored for good.
    When no running job holds the handle [h] (it is not 0), and no
    successful reply delivers [h] in the run, then every [Finished],
    [Ready] and [Error] signal for [h] can be struck from the run: the
    run with these signals and the run without them end in the same
    thumbnailer and the same files and have the same effects.  This is
    the state in which a handle is after its job was finished or
    cancelled. *)
Theorem signals_for_unknown_handle_are_ignored (ins : list Input) :
  forall (t : ThunarThumbnailer) (w : World) (h : Z),
    h <> 0 ->
    (forall j, j ∈ jobs t -> handle j <> h) ->
    Forall (fun i => is_reply_with h i = false) ins ->
    run has_scheme is_a t w ins
    = run has_scheme is_a t w (List.filter (fun i => negb (is_signal_for h i)) ins).
Proof.
  induction ins as [|i ins IH]; intros t w h Hh Hno Hins; [done|].
  apply Forall_cons in Hins as [Hi Hins]. cbn [List.filter].
  assert (Forall (fun j => handle j <> h) (jobs t)) as Hinv by (by apply Forall_forall).
  destruct (is_signal_for h i) eqn:Hsig; cbn [negb].
  - cbn [run]. rewrite (step_signal_for_unknown_handle t w i h Hinv Hsig).
    rewrite <- (IH t w h Hh Hno Hins).
    by destruct (run has_scheme is_a t w ins) as [[[t2 w2] ev2]|].
  - cbn [run].
    destruct (step has_scheme is_a t w i) as [[[t1 w1] ev1]|] eqn:Hstep; [|done].
    pose proof (step_no_job_with_handle _ _ _ _ _ _ h Hh Hinv Hi Hstep) as Hinv1.
    rewrite Forall_forall in Hinv1. by rewrite (IH t1 w1 h Hh Hinv1 Hins).
Qed.

(** ** Where request numbers and handles come from *)

Lemma elem_of_unlinked {A} (pre post : list A) (x y : A) :
  y ∈ pre ++ post -> y ∈ pre ++ x :: post.
Proof. rewrite !elem_of_app, elem_of_cons. tauto. Qed.

Lemma elem_of_replaced {A} (pre post : list A) (x x' y : A) :
  y ∈ pre ++ x' :: post -> y = x' \/ y ∈ pre ++ x :: post.
Proof. rewrite !elem_of_app, !elem_of_cons. tauto. Qed.

Lemma elem_of_middle {A} (pre post : list A) (x : A) : x ∈ pre ++ x :: post.
Proof. apply elem_of_app. right. apply list_elem_of_here. Qed.

Lemma step_provenance (t t1 : ThunarThumbnailer) (w w1 : World) (i : Input)
    (ev : list Event) :
  step has_scheme is_a t w i = Some (t1, w1, ev) ->
  (forall a r, EvRequestFinished a r ∈ ev -> r ∈ request <$> jobs t)
  /\ (forall a h, EvProxyDequeue a h ∈ ev ->
        (h <> 0 /\ h ∈ handle <$> jobs t) \/ exists error, i = QueueReply a h error)
  /\ (forall j1, j1 ∈ jobs t1 ->
        (request j1 ∈ request <$> jobs t
         \/ exists fl, i = CallQueueFiles fl
                       /\ (thunar_thumbnailer_queue_files has_scheme is_a t w fl).2
                          = Some (request j1))
        /\ (handle j1 = 0 \/ handle j1 ∈ handle <$> jobs t
            \/ exists a, i = QueueReply a (handle j1) false)).
Proof.
  intros Hstep.
  assert (forall j1 : ThunarThumbnailerJob, j1 ∈ jobs t ->
            (request j1 ∈ request <$> jobs t
             \/ exists fl, i = CallQueueFiles fl
                           /\ (thunar_thumbnailer_queue_files has_scheme is_a t w fl).2
                              = Some (request j1))
            /\ (handle j1 = 0 \/ handle j1 ∈ handle <$> jobs t
                \/ exists a, i = QueueReply a (handle j1) false)) as Hold.
  { intros j1 Hj1. split; [left|right; left]; apply list_elem_of_fmap; eauto. }
  assert (forall evs, Forall (fun e => forall a, is_event_of_job a e = false) evs ->
            (forall a r, EvRequestFinished a r ∈ evs -> r ∈ request <$> jobs t)
            /\ (forall a h, EvProxyDequeue a h ∈ evs ->
                  (h <> 0 /\ h ∈ handle <$> jobs t)
                  \/ exists error, i = QueueReply a h error)) as Hquiet.
  { intros evs Hevs. rewrite Forall_forall in Hevs. split.
    - intros a r Hin. specialize (Hevs _ Hin a). unfold is_event_of_job in Hevs.
      simpl in Hevs. by rewrite Nat.eqb_refl in Hevs.
    - intros a h Hin. specialize (Hevs _ Hin a). unfold is_event_of_job in Hevs.
      simpl in Hevs. by rewrite Nat.eqb_refl in Hevs. }
  destruct i as [fl|r|a h e|h|h us|h us c m|idle]; simpl in Hstep.
  - destruct (queue_files_cases has_scheme is_a t w fl)
      as [[_ Hq]|[(_ & _ & t2 & ev2 & Hq & Hsame & Hev2)|(_ & _ & t2 & ev2 & _ & Hev2 & Hq)]].
    + rewrite Hq in Hstep. injection Hstep as <- <- <-.
      destruct (Hquiet []) as [H1 H2]; [by constructor|]. by split_and!.
    + rewrite Hq in Hstep. injection Hstep as <- <- <-.
      destruct (Hquiet ev2) as [H1 H2];
        [eapply Forall_impl; [exact Hev2|]; by intros e' ->|].
      destruct Hsame as (_ & Hjobs & _). rewrite Hjobs. by split_and!.
    + cbv zeta in Hq.
      pose proof (fill_arrays_events
                    (rev (List.filter (eligible has_scheme is_a t w) fl)) (files w)) as Hev3.
      destruct (fill_arrays (files w) (rev (List.filter (eligible has_scheme is_a t w) fl)))
        as [[[fs us] mh] ev3].
      rewrite Hq in Hstep. injection Hstep as <- <- <-. simpl in Hev3. subst ev3.
      destruct (Hquiet (ev2 ++ map (fun f => EvSetThumbState f THUNAR_FILE_THUMB_STATE_LOADING)
                                   (rev (List.filter (eligible has_scheme is_a t w) fl))
                            ++ [EvProxyQueueAsync us mh (next_addr w)])) as [H1 H2].
      { apply Forall_app. split; [eapply Forall_impl; [exact Hev2|]; by intros e' ->|].
        apply Forall_app. split; [|by repeat constructor].
        apply Forall_forall. intros e' He'.
        by apply list_elem_of_In, in_map_iff in He' as (f & <- & _). }
      split; [exact H1|]. split; [exact H2|]. simpl.
      intros j1 [->|Hj1]%elem_of_cons; [|by apply Hold].
      simpl. split; [right; exists fl; split; [done|by rewrite Hq]|by left].
  - unfold thunar_thumbnailer_dequeue in Hstep.
    destruct (dequeue_loop_cases (thumbnailer_proxy t) r (jobs t))
      as [[_ Hl]|(pre & j & post & Hj & _ & _ & Hl)]; rewrite Hl in Hstep.
    + injection Hstep as <- <- <-. destruct (Hquiet []) as [H1 H2]; [by constructor|].
      by split_and!.
    + assert (j ∈ jobs t) as Hjin by (rewrite Hj; apply elem_of_middle).
      destruct (handle j =? 0) eqn:H0; injection Hstep as <- <- <-; simpl.
      * destruct (Hquiet []) as [H1 H2]; [by constructor|]. split; [exact H1|].
        split; [exact H2|].
        intros j1 [->|Hj1]%(elem_of_replaced pre post j).
        -- destruct (Hold j Hjin) as [Hr Hh]. by split.
        -- apply Hold. by rewrite Hj.
      * split_and!.
        -- intros a r' Hin. destruct (thumbnailer_proxy t);
             [by apply list_elem_of_singleton in Hin|by apply elem_of_nil in Hin].
        -- intros a h Hin. destruct (thumbnailer_proxy t); [|by apply elem_of_nil in Hin].
           apply list_elem_of_singleton in Hin. injection Hin as -> ->. left.
           split; [by apply Z.eqb_neq|]. apply list_elem_of_fmap. eauto.
        -- intros j1 Hj1%(elem_of_unlinked pre post j). apply Hold. by rewrite Hj.
  - destruct (thunar_thumbnailer_queue_async_reply t h e a) as [[t2 ev2]|] eqn:Hrep; [|done].
    injection Hstep as <- <- <-.
    destruct (job_deref (jobs t) a) as [j|] eqn:Hd;
      [|unfold thunar_thumbnailer_queue_async_reply in Hrep; by rewrite Hd in Hrep].
    pose proof Hd as (pre & post & Hj & Ha & Hpre)%job_deref_split. subst a.
    assert (j ∈ jobs t) as Hjin by (rewrite Hj; apply elem_of_middle).
    destruct (cancelled j) eqn:Hc.
    + rewrite (reply_cancelled t (job_addr j) j h e Hd Hc) in Hrep.
      injection Hrep as <- <-. simpl. split_and!.
      * intros a r' Hin. by apply list_elem_of_singleton in Hin.
      * intros a h' Hin. apply list_elem_of_singleton in Hin. injection Hin as -> ->.
        right. by exists e.
      * intros j1 Hj1. apply Hold.
        rewrite Hj, (g_slist_remove_app pre post j (job_addr j)) in Hj1 by done.
        rewrite Hj. by apply elem_of_unlinked.
    + unfold thunar_thumbnailer_queue_async_reply in Hrep. rewrite Hd in Hrep.
      simpl in Hrep. rewrite Hc in Hrep.
      destruct (Hquiet []) as [H1 H2]; [by constructor|].
      destruct e; simpl in Hrep; injection Hrep as <- <-; simpl;
        (split; [exact H1|]); (split; [exact H2|]); intros j1 Hj1; rewrite Hj in Hj1.
      * rewrite (job_store_app pre post j (set_handle_call j false)) in Hj1 by done.
        apply (elem_of_replaced pre post j) in Hj1 as [->|Hj1].
        -- destruct (Hold j Hjin) as [Hr Hh]. by split.
        -- apply Hold. by rewrite Hj.
      * rewrite (job_store_app pre post j (set_handle (set_handle_call j false) h)) in Hj1
          by done.
        apply (elem_of_replaced pre post j) in Hj1 as [->|Hj1].
        -- destruct (Hold j Hjin) as [Hr _]. split; [exact Hr|]. right. right.
           by exists (job_addr j).
        -- apply Hold. by rewrite Hj.
  - unfold thunar_thumbnailer_thumbnailer_finished in Hstep.
    destruct (finished_loop_cases h (jobs t))
      as [[_ Hl]|(pre & j & post & Hj & _ & _ & Hl)]; rewrite Hl in Hstep;
      injection Hstep as <- <- <-; simpl.
    + destruct (Hquiet []) as [H1 H2]; [by constructor|]. by split_and!.
    + assert (j ∈ jobs t) as Hjin by (rewrite Hj; apply elem_of_middle). split_and!.
      * intros a r' Hin. apply list_elem_of_singleton in Hin. injection Hin as -> ->.
        apply list_elem_of_fmap. eauto.
      * intros a h' Hin. by apply list_elem_of_singleton in Hin.
      * intros j1 Hj1%(elem_of_unlinked pre post j). apply Hold. by rewrite Hj.
  - injection Hstep as Hstep.
    destruct (idle_jobs _ _ _ _ _ _ _ _ Hstep) as (_ & _ & Hjobs & _ & _ & Hev).
    destruct (Hquiet ev Hev) as [H1 H2]. rewrite Hjobs. by split_and!.
  - injection Hstep as Hstep.
    destruct (idle_jobs _ _ _ _ _ _ _ _ Hstep) as (_ & _ & Hjobs & _ & _ & Hev).
    destruct (Hquiet ev Hev) as [H1 H2]. rewrite Hjobs. by split_and!.
  - destruct (idle_deref (idles t) idle) as [i|].
    + injection Hstep as Hstep.
      destruct (idle_func_jobs _ _ _ _ _ _ Hstep) as (_ & _ & Hjobs & _ & Hev).
      destruct (Hquiet ev) as [H1 H2];
        [eapply Forall_impl; [exact Hev|]; intros e' He' b; by destruct e'|].
      rewrite Hjobs. by split_and!.
    + injection Hstep as <- <- <-. destruct (Hquiet []) as [H1 H2]; [by constructor|].
      by split_and!.
Qed.

(** X20.  The thumbnailer invents neither request numbers nor handles.
    Over any run, every [request-finished] carries the request number of
    a job that was running at the start or a number that a
    [thunar_thumbnailer_queue_files] call of the run has returned; and
    every [Dequeue] carries either the handle of a reply of the run, or a
    handle other than 0 that a job held at the start. *)
Theorem reports_only_what_it_was_given (ins : list Input) :
  forall (t t' : ThunarThumbnailer) (w w' : World) (ev : list Event),
    run has_scheme is_a t w ins = Some (t', w', ev) ->
    (forall a r, EvRequestFinished a r ∈ ev ->
       r ∈ request <$> jobs t \/ r ∈ returned_requests has_scheme is_a t w ins)
    /\ (forall a h, EvProxyDequeue a h ∈ ev ->
          (h <> 0 /\ h ∈ handle <$> jobs t)
          \/ exists a' error, QueueReply a' h error ∈ ins).
Proof.
  induction ins as [|i ins IH]; intros t t' w w' ev Hrun.
  - simpl in Hrun. injection Hrun as <- <- <-.
    split; intros; match goal with H : _ ∈ [] |- _ => by apply elem_of_nil in H end.
  - cbn [run returned_requests] in Hrun |- *.
    destruct (step has_scheme is_a t w i) as [[[t1 w1] ev1]|] eqn:Hstep; [|done].
    destruct (run has_scheme is_a t1 w1 ins) as [[[t2 w2] ev2]|] eqn:Hrest; [|done].
    injection Hrun as <- <- <-.
    destruct (step_provenance _ _ _ _ _ _ Hstep) as (Hfin & Hdeq & Hjobs).
    destruct (IH _ _ _ _ _ Hrest) as (IHfin & IHdeq).
    split.
    + intros a r [Hin|Hin]%elem_of_app; [left; by apply (Hfin a)|].
      destruct (IHfin a r Hin) as [Hr|Hr]; [|right; apply elem_of_app; by right].
      apply list_elem_of_fmap in Hr as (j1 & -> & Hj1).
      destruct (Hjobs j1 Hj1) as [[Hr|(fl & -> & Hres)] _]; [by left|].
      right. apply elem_of_app. left. rewrite Hres. apply list_elem_of_here.
    + intros a h [Hin|Hin]%elem_of_app.
      * destruct (Hdeq a h Hin) as [Hh|[error ->]]; [by left|].
        right. exists a, error. apply list_elem_of_here.
      * destruct (IHdeq a h Hin) as [[Hh Hj]|(a' & error & Hrep)];
          [|right; exists a', error; by apply list_elem_of_further].
        apply list_elem_of_fmap in Hj as (j1 & -> & Hj1).
        destruct (Hjobs j1 Hj1) as [_ [H0|[Hold|[a' ->]]]]; [done|by left|].
        right. exists a', false. apply list_elem_of_here.
Qed.

End Provenance.

(** ** The further properties at concrete inputs *)

Lemma thumbnailer_without_proxy_is_inert_witness :
  run example_has_uri_scheme example_content_type_is_a
      (thunar_thumbnailer_init false) example_world
      [CallQueueFiles [1%nat]; CallDequeue 1; SignalFinished 0;
       SignalReady 0 (Some ["file:///a.png"]); IdleDispatch 5]
  = Some (thunar_thumbnailer_init false, example_world, [])
  /\ returned_requests example_has_uri_scheme example_content_type_is_a
       (thunar_thumbnailer_init false) example_world
       [CallQueueFiles [1%nat]; CallDequeue 1; SignalFinished 0;
        SignalReady 0 (Some ["file:///a.png"]); IdleDispatch 5]
     = [].
Proof.
  destruct (run example_has_uri_scheme example_content_type_is_a
                (thunar_thumbnailer_init false) example_world
                [CallQueueFiles [1%nat]; CallDequeue 1; SignalFinished 0;
                 SignalReady 0 (Some ["file:///a.png"]); IdleDispatch 5])
    as [[[t' w'] ev]|] eqn:Hrun; [|vm_compute in Hrun; discriminate Hrun].
  destruct (thumbnailer_without_proxy_is_inert
              example_has_uri_scheme example_content_type_is_a
              _ (thunar_thumbnailer_init false) _ _ _ _
              eq_refl eq_refl eq_refl Hrun) as (-> & -> & -> & Hret).
  by split.
Defined.

Lemma effects_come_from_their_inputs_witness :
  step example_has_uri_scheme example_content_type_is_a
       example_thumbnailer example_world (CallDequeue 1)
  = Some (mkThumbnailer true [mkJob 11 false 2 0 true]
                        (Some ["file"]) (Some ["image/png"]) 2 [],
          example_world, [EvProxyDequeue 10 7])
  /\ ((exists r, CallDequeue 1 = CallDequeue r)
      \/ (exists error, CallDequeue 1 = QueueReply 10 7 error)).
Proof.
  assert (step example_has_uri_scheme example_content_type_is_a
               example_thumbnailer example_world (CallDequeue 1)
          = Some (mkThumbnailer true [mkJob 11 false 2 0 true]
                                (Some ["file"]) (Some ["image/png"]) 2 [],
                  example_world, [EvProxyDequeue 10 7])) as Hstep
    by (vm_compute; reflexivity).
  destruct (effects_come_from_their_inputs
              example_has_uri_scheme example_content_type_is_a _ _ _ _ _ _ Hstep)
    as (_ & Hd & _).
  split; [exact Hstep|]. apply (Hd 10%nat 7). apply list_elem_of_here.
Defined.

Lemma dequeue_is_idempotent_witness :
  NoDup (request <$> jobs example_thumbnailer)
  /\ thunar_thumbnailer_dequeue (thunar_thumbnailer_dequeue example_thumbnailer 1).1 1
     = ((thunar_thumbnailer_dequeue example_thumbnailer 1).1, []).
Proof.
  pose proof (ok_unique _ example_thumbnailer_ok) as Hnd.
  split; [exact Hnd|]. exact (proj1 (dequeue_is_idempotent example_thumbnailer 1 Hnd)).
Defined.

Lemma operations_touch_one_job_witness :
  thunar_thumbnailer_queue_async_reply example_thumbnailer 9 false 11
  = Some (mkThumbnailer true [mkJob 11 false 2 9 false; mkJob 10 false 1 7 false]
                        (Some ["file"]) (Some ["image/png"]) 2 [], [])
  /\ List.filter (fun j => negb (Nat.eqb (job_addr j) 11))
                 [mkJob 11 false 2 9 false; mkJob 10 false 1 7 false]
     = List.filter (fun j => negb (Nat.eqb (job_addr j) 11)) (jobs example_thumbnailer).
Proof.
  assert (thunar_thumbnailer_queue_async_reply example_thumbnailer 9 false 11
          = Some (mkThumbnailer true [mkJob 11 false 2 9 false; mkJob 10 false 1 7 false]
                                (Some ["file"]) (Some ["image/png"]) 2 [], [])) as Hrep
    by (vm_compute; reflexivity).
  destruct (operations_touch_one_job example_thumbnailer) as (_ & _ & Hreply).
  split; [exact Hrep|]. exact (proj1 (Hreply _ _ _ _ _ Hrep)).
Defined.

Lemma request_runs_through_witness :
  (thunar_thumbnailer_queue_files example_has_uri_scheme example_content_type_is_a
     example_thumbnailer example_world [1%nat; 2%nat; 3%nat]).2 = Some 3
  /\ exists t2,
       thunar_thumbnailer_queue_async_reply
         (thunar_thumbnailer_queue_files example_has_uri_scheme example_content_type_is_a
            example_thumbnailer example_world [1%nat; 2%nat; 3%nat]).1.1.1
         9 false 100
       = Some (t2, [])
       /\ jobs t2 = mkJob 100 false 3 9 false :: jobs example_thumbnailer
       /\ (thunar_thumbnailer_thumbnailer_finished t2 9).2 = [EvRequestFinished 100 3].
Proof.
  assert ((thunar_thumbnailer_queue_files example_has_uri_scheme example_content_type_is_a
             example_thumbnailer example_world [1%nat; 2%nat; 3%nat]).2 = Some 3) as Hsome
    by (vm_compute; reflexivity).
  pose proof (request_runs_through example_has_uri_scheme example_content_type_is_a
                example_thumbnailer example_world [1%nat; 2%nat; 3%nat] 3 9 Hsome) as H.
  cbv zeta in H. destruct H as (_ & _ & t2 & Hrep & Hjobs & Hfin & _).
  split; [exact Hsome|]. exists t2. split; [exact Hrep|]. split; [exact Hjobs|].
  by rewrite Hfin.
Defined.

Lemma idle_func_writes_only_thumb_states_witness :
  (forall us uri,
     uris (mkIdle 50 THUNAR_THUMBNAILER_IDLE_ERROR 1 (Some ["file:///a.png"])) = Some us ->
     uri ∈ us -> thunar_file_cache_lookup example_world uri <> Some 2%nat)
  /\ files (thunar_thumbnailer_idle_func example_thumbnailer example_world
              (mkIdle 50 THUNAR_THUMBNAILER_IDLE_ERROR 1 (Some ["file:///a.png"]))).1.2
     !! 2%nat
     = files example_world !! 2%nat.
Proof.
  assert (forall us uri,
            uris (mkIdle 50 THUNAR_THUMBNAILER_IDLE_ERROR 1 (Some ["file:///a.png"]))
            = Some us ->
            uri ∈ us -> thunar_file_cache_lookup example_world uri <> Some 2%nat) as Hno.
  { intros us uri [= <-] Hin. apply list_elem_of_singleton in Hin as ->.
    vm_compute. discriminate. }
  pose proof (idle_func_writes_only_thumb_states example_thumbnailer example_world
                (mkIdle 50 THUNAR_THUMBNAILER_IDLE_ERROR 1 (Some ["file:///a.png"]))) as H.
  cbv zeta in H. destruct H as (_ & _ & Hother & _).
  split; [exact Hno|]. exact (Hother 2%nat Hno).
Defined.

Lemma notification_reaches_files_witness :
  (exists j, j ∈ jobs example_thumbnailer /\ handle j = 7)
  /\ exists w2 ev,
       run example_has_uri_scheme example_content_type_is_a
           example_thumbnailer example_world
           [SignalReady 7 (Some ["file:///a.png"]); IdleDispatch 100]
       = Some (example_thumbnailer, w2, EvIdleAdd 100 1 :: ev)
       /\ thunar_file_get_thumb_state (files w2) 1 = Some THUNAR_FILE_THUMB_STATE_READY.
Proof.
  assert (exists j, j ∈ jobs example_thumbnailer /\ handle j = 7) as Hj.
  { exists (mkJob 10 false 1 7 false).
    split; [apply list_elem_of_further, list_elem_of_here|reflexivity]. }
  destruct (notification_reaches_files example_has_uri_scheme example_content_type_is_a
              example_thumbnailer example_world 7 ["file:///a.png"] Hj)
    as [(w2 & ev & Hrun & Hready & _) _].
  split; [exact Hj|]. exists w2, ev. split; [exact Hrun|].
  apply (Hready "file:///a.png" 1%nat); [apply list_elem_of_here|].
  vm_compute. reflexivity.
Defined.

Lemma get_supported_is_asked_once_witness :
  get_supported_reply example_world = Some (["file"], ["image/png"])
  /\ exists t' w' ev,
       run example_has_uri_scheme example_content_type_is_a
           (thunar_thumbnailer_init true) example_world
           [CallQueueFiles [1%nat; 2%nat]; CallQueueFiles [3%nat]]
       = Some (t', w', ev)
       /\ (count_get_supported ev <= 1)%nat.
Proof.
  split; [reflexivity|].
  destruct (run example_has_uri_scheme example_content_type_is_a
                (thunar_thumbnailer_init true) example_world
                [CallQueueFiles [1%nat; 2%nat]; CallQueueFiles [3%nat]])
    as [[[t' w'] ev]|] eqn:Hrun; [|vm_compute in Hrun; discriminate Hrun].
  destruct (get_supported_is_asked_once
              example_has_uri_scheme example_content_type_is_a _ _ _ _ _ _ Hrun)
    as (_ & Hfetch).
  destruct (Hfetch ["file"] ["image/png"] eq_refl) as (Hle & _).
  exists t', w', ev. by split.
Defined.

Lemma get_supported_failure_is_retried_per_file_witness :
  (get_supported_reply example_world_silent = None
   /\ thumbnailer_proxy (thunar_thumbnailer_init true) = true
   /\ (supported_schemes (thunar_thumbnailer_init true) = None
       \/ supported_types (thunar_thumbnailer_init true) = None))
  /\ (thunar_thumbnailer_queue_files example_has_uri_scheme example_content_type_is_a
        (thunar_thumbnailer_init true) example_world_silent [1%nat; 2%nat; 3%nat]).2 = None
  /\ count_get_supported
       (thunar_thumbnailer_queue_files example_has_uri_scheme example_content_type_is_a
          (thunar_thumbnailer_init true) example_world_silent [1%nat; 2%nat; 3%nat]).1.2
     = 3%nat.
Proof.
  assert (supported_schemes (thunar_thumbnailer_init true) = None
          \/ supported_types (thunar_thumbnailer_init true) = None) as Hn
    by (left; reflexivity).
  destruct (get_supported_failure_is_retried_per_file
              example_has_uri_scheme example_content_type_is_a
              (thunar_thumbnailer_init true) example_world_silent [1%nat; 2%nat; 3%nat]
              eq_refl eq_refl Hn) as (Hq & Hcount).
  split; [by split_and!|]. split; [by rewrite Hq|].
  rewrite Hcount. vm_compute. reflexivity.
Defined.


Lemma queue_call_arrays_are_parallel_witness :
  (thunar_thumbnailer_queue_files example_has_uri_scheme example_content_type_is_a
     example_thumbnailer example_world [1%nat; 2%nat; 3%nat]).2 = Some 3
  /\ Forall is_Some
       (map (thunar_file_get_content_type (files example_world))
            (rev (List.filter (eligible example_has_uri_scheme example_content_type_is_a
                                        example_thumbnailer example_world)
                              [1%nat; 2%nat; 3%nat])))
  /\ exists ev,
       (thunar_thumbnailer_queue_files example_has_uri_scheme example_content_type_is_a
          example_thumbnailer example_world [1%nat; 2%nat; 3%nat]).1.2
       = ev ++ [EvProxyQueueAsync ["file:///c.png"; "file:///a.png"]
                                  [Some "image/png"; Some "image/png"] 100].
Proof.
  assert ((thunar_thumbnailer_queue_files example_has_uri_scheme example_content_type_is_a
             example_thumbnailer example_world [1%nat; 2%nat; 3%nat]).2 = Some 3) as Hsome
    by (vm_compute; reflexivity).
  pose proof (queue_call_arrays_are_parallel
                example_has_uri_scheme example_content_type_is_a
                example_thumbnailer example_world [1%nat; 2%nat; 3%nat] 3 Hsome) as H.
  cbv zeta in H. destruct H as ((ev & Hev & _) & _ & _ & Hall).
  split; [exact Hsome|]. split; [exact Hall|]. exists ev. exact Hev.
Defined.

Lemma queue_file_succeeds_iff_supported_witness :
  eligible example_has_uri_scheme example_content_type_is_a
           example_thumbnailer example_world 1 = true
  /\ (thunar_thumbnailer_queue_file example_has_uri_scheme example_content_type_is_a
        example_thumbnailer example_world 1).2 = Some 3
  /\ thunar_file_get_thumb_state
       (files (thunar_thumbnailer_queue_file
                 example_has_uri_scheme example_content_type_is_a
                 example_thumbnailer example_world 1).1.1.2) 1
     = Some THUNAR_FILE_THUMB_STATE_LOADING.
Proof.
  assert (eligible example_has_uri_scheme example_content_type_is_a
                   example_thumbnailer example_world 1 = true) as He
    by (vm_compute; reflexivity).
  pose proof (queue_file_succeeds_iff_supported
                example_has_uri_scheme example_content_type_is_a
                example_thumbnailer example_world 1) as H.
  cbv zeta in H. destruct H as (_ & Hyes). destruct (Hyes He) as (Hres & _ & Hload & _).
  split; [exact He|]. split; [exact Hres|exact Hload].
Defined.

Lemma reachable_states_are_well_formed_witness :
  Z.of_nat (count_submits [CallQueueFiles [1%nat]; QueueReply 100 5 false; CallDequeue 1])
  <= G_MAXUINT
  /\ exists t' w' ev,
       run example_has_uri_scheme example_content_type_is_a
           (thunar_thumbnailer_init true) example_world
           [CallQueueFiles [1%nat]; QueueReply 100 5 false; CallDequeue 1]
       = Some (t', w', ev)
       /\ heap_ok t' w' /\ registry_ok t'.
Proof.
  assert (Z.of_nat (count_submits
                      [CallQueueFiles [1%nat]; QueueReply 100 5 false; CallDequeue 1])
          <= G_MAXUINT) as Hb by (vm_compute; discriminate).
  split; [exact Hb|].
  destruct (run example_has_uri_scheme example_content_type_is_a
                (thunar_thumbnailer_init true) example_world
                [CallQueueFiles [1%nat]; QueueReply 100 5 false; CallDequeue 1])
    as [[[t' w'] ev]|] eqn:Hrun; [|vm_compute in Hrun; discriminate Hrun].
  destruct (reachable_states_are_well_formed
              example_has_uri_scheme example_content_type_is_a _ _ _ _ _ _ Hrun)
    as (Hheap & Hreg).
  exists t', w', ev. split; [reflexivity|]. split; [exact Hheap|exact (Hreg Hb)].
Defined.

Lemma request_numbers_are_consecutive_witness :
  (0 <= last_request example_thumbnailer
   /\ last_request example_thumbnailer
      + Z.of_nat (count_submits [CallQueueFiles [1%nat]; CallQueueFiles [2%nat];
                                 CallQueueFiles [3%nat]]) <= G_MAXUINT)
  /\ returned_requests example_has_uri_scheme example_content_type_is_a
       example_thumbnailer example_world
       [CallQueueFiles [1%nat]; CallQueueFiles [2%nat]; CallQueueFiles [3%nat]]
     = map (fun k : nat => last_request example_thumbnailer + Z.of_nat k)
           (seq 1 (length (returned_requests
                             example_has_uri_scheme example_content_type_is_a
                             example_thumbnailer example_world
                             [CallQueueFiles [1%nat]; CallQueueFiles [2%nat];
                              CallQueueFiles [3%nat]]))).
Proof.
  assert (0 <= last_request example_thumbnailer) as H0 by (simpl; lia).
  assert (last_request example_thumbnailer
          + Z.of_nat (count_submits [CallQueueFiles [1%nat]; CallQueueFiles [2%nat];
                                     CallQueueFiles [3%nat]]) <= G_MAXUINT) as Hb
    by (vm_compute; discriminate).
  split; [by split|].
  exact (proj1 (request_numbers_are_consecutive
                  example_has_uri_scheme example_content_type_is_a _
                  example_thumbnailer example_world H0 Hb)).
Defined.

Lemma cancelled_job_holds_no_handle_witness :
  cancelled_without_handle (jobs example_thumbnailer)
  /\ exists t' w' ev,
       run example_has_uri_scheme example_content_type_is_a
           example_thumbnailer example_world [CallDequeue 2; CallDequeue 1]
       = Some (t', w', ev)
       /\ cancelled_without_handle (jobs t').
Proof.
  assert (cancelled_without_handle (jobs example_thumbnailer)) as Hinv
    by (repeat constructor; simpl; discriminate).
  split; [exact Hinv|].
  destruct (run example_has_uri_scheme example_content_type_is_a
                example_thumbnailer example_world [CallDequeue 2; CallDequeue 1])
    as [[[t' w'] ev]|] eqn:Hrun; [|vm_compute in Hrun; discriminate Hrun].
  destruct (cancelled_job_holds_no_handle
              example_has_uri_scheme example_content_type_is_a _ _ _ _ _ _ Hinv Hrun)
    as (Hinv' & _).
  exists t', w', ev. by split.
Defined.

Lemma job_without_handle_stays_witness :
  (heap_ok example_thumbnailer example_world
   /\ job_deref (jobs example_thumbnailer) 11 = Some (mkJob 11 false 2 0 true)
   /\ handle (mkJob 11 false 2 0 true) = 0
   /\ Forall (fun i => unlinks_without_handle 11 i = false)
             [CallDequeue 2; SignalFinished 7; CallQueueFiles [1%nat]])
  /\ exists t' w' ev,
       run example_has_uri_scheme example_content_type_is_a
           example_thumbnailer example_world
           [CallDequeue 2; SignalFinished 7; CallQueueFiles [1%nat]]
       = Some (t', w', ev)
       /\ exists j',
            job_deref (jobs t') 11 = Some j'
            /\ handle j' = 0 /\ request j' = 2 /\ handle_call j' = true
            /\ count_events_of_job 11 ev = 0%nat.
Proof.
  assert (Forall (fun i => unlinks_without_handle 11 i = false)
                 [CallDequeue 2; SignalFinished 7; CallQueueFiles [1%nat]]) as Hins
    by (repeat constructor).
  split; [split_and!; [exact example_heap_ok|reflexivity|reflexivity|exact Hins]|].
  destruct (run example_has_uri_scheme example_content_type_is_a
                example_thumbnailer example_world
                [CallDequeue 2; SignalFinished 7; CallQueueFiles [1%nat]])
    as [[[t' w'] ev]|] eqn:Hrun; [|vm_compute in Hrun; discriminate Hrun].
  destruct (job_without_handle_stays
              example_has_uri_scheme example_content_type_is_a _ _ _ _ _ _
              11%nat (mkJob 11 false 2 0 true) example_heap_ok eq_refl eq_refl Hins Hrun)
    as (j' & Hd & Hh & Hr & Hc & _ & Hev).
  exists t', w', ev. split; [reflexivity|]. exists j'. by split_and!.
Defined.

Lemma finalize_releases_jobs_and_idles_witness :
  (NoDup (job_addr <$> jobs example_thumbnailer)
   /\ Forall (fun j => handle_call j = true -> handle j = 0) (jobs example_thumbnailer))
  /\ (length (List.filter (is_finalize_event_of_job 10)
                          (thunar_thumbnailer_finalize example_thumbnailer)) <= 1)%nat
  /\ FinProxyDequeue 10 7 ∈ thunar_thumbnailer_finalize example_thumbnailer
  /\ FinCancelCall 11 ∈ thunar_thumbnailer_finalize example_thumbnailer.
Proof.
  pose proof (ok_addrs _ _ example_heap_ok) as Hnd.
  pose proof (ok_pending _ example_thumbnailer_ok) as Hpend.
  pose proof (finalize_releases_jobs_and_idles example_thumbnailer) as H.
  cbv zeta in H. destruct H as (_ & Hcancel & Hdequeue & Hcount & _).
  split; [by split|]. split; [exact (Hcount Hnd Hpend 10%nat)|]. split.
  - apply Hdequeue. split; [reflexivity|]. split; [discriminate|].
    exists (mkJob 10 false 1 7 false).
    split; [apply list_elem_of_further, list_elem_of_here|by split].
  - apply Hcancel. split; [reflexivity|].
    exists (mkJob 11 false 2 0 true). split; [apply list_elem_of_here|by split].
Defined.

Lemma every_unlinked_job_is_reported_witness :
  (jobs example_thumbnailer <> [] -> thumbnailer_proxy example_thumbnailer = true)
  /\ exists t' w' ev,
       run example_has_uri_scheme example_content_type_is_a
           example_thumbnailer example_world
           [SignalFinished 7; CallQueueFiles [1%nat]; CallDequeue 2]
       = Some (t', w', ev)
       /\ (length (jobs t') + count_job_events ev
           = length (jobs example_thumbnailer)
             + length (returned_requests
                         example_has_uri_scheme example_content_type_is_a
                         example_thumbnailer example_world
                         [SignalFinished 7; CallQueueFiles [1%nat]; CallDequeue 2]))%nat.
Proof.
  assert (jobs example_thumbnailer <> [] -> thumbnailer_proxy example_thumbnailer = true)
    as Hinv by (intros _; reflexivity).
  split; [exact Hinv|].
  destruct (run example_has_uri_scheme example_content_type_is_a
                example_thumbnailer example_world
                [SignalFinished 7; CallQueueFiles [1%nat]; CallDequeue 2])
    as [[[t' w'] ev]|] eqn:Hrun; [|vm_compute in Hrun; discriminate Hrun].
  pose proof (every_unlinked_job_is_reported
                example_has_uri_scheme example_content_type_is_a _ _ _ _ _ _ Hinv Hrun)
    as Hacc.
  exists t', w', ev. by split.
Defined.

Lemma signals_for_unknown_handle_are_ignored_witness :
  (9 <> 0
   /\ (forall j, j ∈ jobs example_thumbnailer -> handle j <> 9)
   /\ Forall (fun i => is_reply_with 9 i = false)
             [SignalReady 9 (Some ["file:///a.png"]); SignalFinished 9; CallDequeue 1;
              SignalError 9 None 0 "failed"])
  /\ run example_has_uri_scheme example_content_type_is_a
         example_thumbnailer example_world
         [SignalReady 9 (Some ["file:///a.png"]); SignalFinished 9; CallDequeue 1;
          SignalError 9 None 0 "failed"]
     = run example_has_uri_scheme example_content_type_is_a
           example_thumbnailer example_world [CallDequeue 1].
Proof.
  assert (9 <> 0) as Hh by discriminate.
  assert (forall j, j ∈ jobs example_thumbnailer -> handle j <> 9) as Hno.
  { intros j Hj. simpl in Hj.
    apply elem_of_cons in Hj as [->|Hj]; [discriminate|].
    apply list_elem_of_singleton in Hj as ->. discriminate. }
  assert (Forall (fun i => is_reply_with 9 i = false)
                 [SignalReady 9 (Some ["file:///a.png"]); SignalFinished 9; CallDequeue 1;
                  SignalError 9 None 0 "failed"]) as Hins by (repeat constructor).
  split; [by split_and!|].
  exact (signals_for_unknown_handle_are_ignored
           example_has_uri_scheme example_content_type_is_a _
           example_thumbnailer example_world 9 Hh Hno Hins).
Defined.

Lemma reports_only_what_it_was_given_witness :
  run example_has_uri_scheme example_content_type_is_a
      example_thumbnailer example_world
      [SignalFinished 7; CallDequeue 2; QueueReply 11 5 false]
  = Some (mkThumbnailer true [] (Some ["file"]) (Some ["image/png"]) 2 [],
          example_world, [EvRequestFinished 10 1; EvProxyDequeue 11 5])
  /\ (1 ∈ request <$> jobs example_thumbnailer
      \/ 1 ∈ returned_requests example_has_uri_scheme example_content_type_is_a
               example_thumbnailer example_world
               [SignalFinished 7; CallDequeue 2; QueueReply 11 5 false])
  /\ ((5 <> 0 /\ 5 ∈ handle <$> jobs example_thumbnailer)
      \/ exists a' error,
           QueueReply a' 5 error ∈ [SignalFinished 7; CallDequeue 2; QueueReply 11 5 false]).
Proof.
  assert (run example_has_uri_scheme example_content_type_is_a
              example_thumbnailer example_world
              [SignalFinished 7; CallDequeue 2; QueueReply 11 5 false]
          = Some (mkThumbnailer true [] (Some ["file"]) (Some ["image/png"]) 2 [],
                  example_world, [EvRequestFinished 10 1; EvProxyDequeue 11 5])) as Hrun
    by (vm_compute; reflexivity).
  destruct (reports_only_what_it_was_given
              example_has_uri_scheme example_content_type_is_a _ _ _ _ _ _ Hrun)
    as (Hfin & Hdeq).
  split; [exact Hrun|]. split.
  - apply (Hfin 10%nat 1). apply list_elem_of_here.
  - apply (Hdeq 11%nat 5). apply list_elem_of_further, list_elem_of_here.
Defined.
